(** * UaiSo: shared lexing primitives and the Python parser

    A shallow embedding of [Parsing/Lexer.cpp] and [Python/PyParser.cpp].
    Pointers into the source buffer are addresses in [Z], the optional
    [unique_ptr] children of the AST are [option]s, and the member functions
    of [Lexer] and [PyParser] thread their object explicitly. *)

From Stdlib Require Import ZArith NArith List String Ascii Bool Lia.
Import ListNotations.

Set Implicit Arguments.

(** ** Tokens, locations, diagnostics (Parsing/Token.h, Parsing/SourceLoc.h,
    Parsing/Diagnostic.h: the enumerators the two translation units name) *)

Inductive Token : Set :=
| TK_EOP | TK_INVALID | TK_NEWLINE | TK_INDENT | TK_DEDENT
| TK_LPAREN | TK_RPAREN | TK_LBRACKET | TK_RBRACKET | TK_LBRACE | TK_RBRACE
| TK_COMMA | TK_COLON | TK_SEMICOLON | TK_DOT | TK_DOT_DOT_DOT
| TK_BACKTICK | TK_AT_SYMBOL
| TK_PLUS | TK_MINUS | TK_STAR | TK_SLASH | TK_SLASH_SLASH | TK_PERCENT
| TK_STAR_STAR | TK_TILDE | TK_PIPE | TK_CARET | TK_AMPER
| TK_LESS_LESS | TK_GREATER_GREATER
| TK_LESS | TK_GREATER | TK_EQUAL_EQUAL | TK_GREATER_EQUAL | TK_LESS_EQUAL
| TK_LESS_GREATER | TK_EXCLAM_EQUAL
| TK_EQUAL | TK_PLUS_EQUAL | TK_MINUS_EQUAL | TK_STAR_EQUAL | TK_SLASH_EQUAL
| TK_PERCENT_EQUAL | TK_AMPER_EQUAL | TK_PIPE_EQUAL | TK_CARET_EQUAL
| TK_LESS_LESS_EQUAL | TK_GREATER_GREATER_EQUAL | TK_STAR_STAR_EQUAL
| TK_SLASH_SLASH_EQUAL
| TK_PRINT | TK_DELETE | TK_PASS | TK_IMPORT | TK_FROM | TK_AS | TK_GLOBAL
| TK_EXEC | TK_ASSERT | TK_BREAK | TK_CONTINUE | TK_RETURN | TK_THROW
| TK_YIELD | TK_IF | TK_ELIF | TK_ELSE | TK_WHILE | TK_FOR | TK_IN | TK_IS
| TK_NOT | TK_AND | TK_OR | TK_TRY | TK_CATCH | TK_FINALLY | TK_WITH
| TK_FUNC | TK_CLASS | TK_LAMBDA
| TK_IDENTIFIER | TK_INTEGER_LITERAL | TK_FLOAT_LITERAL | TK_STRING_LITERAL
| TK_NULL_LITERAL | TK_TRUE_LITERAL | TK_FALSE_LITERAL.

Scheme Equality for Token.

Record SourceLoc : Set := mkSourceLoc {
  fileName_ : string;
  firstLine_ : nat;
  firstCol_ : nat;
  lastLine_ : nat;
  lastCol_ : nat
}.

Definition emptyLoc : SourceLoc := mkSourceLoc EmptyString 0 0 0 0.

Module Diagnostic.
Inductive Kind : Set :=
| UnexpectedToken | NameRequired
| UnterminatedString | UnknownEscape | InvalidNumericDigit.
End Diagnostic.

(** ** Lexer (Parsing/Lexer.cpp) *)

Module Lexer.

Local Open Scope char_scope.

Definition char := ascii.

(** The 0 sentinel of [peekChar]. *)
Definition NUL : char := zero.

Definition code (c : char) : N := N_of_ascii c.

Definition char_eqb (a b : char) : bool := Ascii.eqb a b.

(** [<cctype>] in the "C" locale. *)
Definition isdigit (c : char) : bool := (48 <=? code c)%N && (code c <=? 57)%N.
Definition isxdigit (c : char) : bool :=
  isdigit c
  || ((65 <=? code c)%N && (code c <=? 70)%N)
  || ((97 <=? code c)%N && (code c <=? 102)%N).
Definition iscntrl (c : char) : bool := (code c <? 32)%N || (code c =? 127)%N.
Definition isprint (c : char) : bool := (32 <=? code c)%N && (code c <=? 126)%N.

(** The per-language capability object (Parsing/Syntax.h): the pure
    predicates the sub-lexers call through [const Syntax*]. *)
Record Syntax : Type := {
  isIdentFirstChar : char -> bool;
  isIdentChar : char -> bool;
  isOctalPrefix : char -> bool;
  isHexPrefix : char -> bool;
  isBinPrefix : char -> bool;
  isExponent : char -> bool;
  classifyIdent : list char -> Token
}.

(** The lexer object.  [memory] holds the bytes stored from address
    [buff_] on (what the [const char*] given to [setBuffer] points to);
    [curr_] and [eof_] are addresses.  [reports] is the diagnostic sink of
    the parsing context the lexer works for. *)
Record t : Type := mk {
  memory : list char;
  buff_ : Z;
  curr_ : Z;
  eof_ : Z;
  reports : list Diagnostic.Kind
}.

(** [*p]: [None] when [p] is outside the bytes of the buffer. *)
Definition load (l : t) (p : Z) : option char :=
  if (p <? buff_ l)%Z then None
  else nth_error (memory l) (Z.to_nat (p - buff_ l)).

(** [size_t] and pointers have 64 bits; their arithmetic is modulo
    [SIZE_MAX + 1], with [SIZE_MAX = 2^64 - 1]. *)
Definition SIZE_MAX : Z := 18446744073709551615%Z.

Definition isAddress (p : Z) : bool := ((0 <=? p) && (p <=? SIZE_MAX))%Z.

(** A record stands for a lexer object when its three pointers are
    addresses. *)
Definition addressable (l : t) : bool :=
  isAddress (buff_ l) && isAddress (curr_ l) && isAddress (eof_ l).

(** [p + d] of a pointer and a [size_t].  On addresses ([wraps]) it is the
    sum modulo [SIZE_MAX + 1]; a record with a field that is no address
    stands for no object, and the sum is left as it is there. *)
Definition ptrAdd (wraps : bool) (p : Z) (d : N) : Z :=
  if wraps then ((p + Z.of_N d) mod (SIZE_MAX + 1))%Z
  else (p + Z.of_N d)%Z.

Definition setBuffer (l : t) (buff : Z) (bytes : list char) (length : N) : t :=
  {| memory := bytes;
     buff_ := buff;
     curr_ := buff;
     eof_ := ptrAdd (isAddress buff) buff length;
     reports := reports l |}.

Definition peekChar (l : t) (dist : N) : char :=
  let p := ptrAdd (addressable l) (curr_ l) dist in
  if (p >=? eof_ l)%Z then NUL
  else match load l p with
       | Some c => c
       | None => NUL
       end.

(** [UAISO_ASSERT(peekChar(dist), return)] guards the two increments. *)
Definition consumeChar (l : t) (dist : N) : t :=
  if char_eqb (peekChar l dist) NUL then l
  else {| memory := memory l;
          buff_ := buff_ l;
          curr_ := ptrAdd (addressable l)
                          (ptrAdd (addressable l) (curr_ l) 1) dist;
          eof_ := eof_ l;
          reports := reports l |}.

Definition consumeCharPeekNext (l : t) (dist : N) : char * t :=
  let l' := consumeChar l dist in
  (peekChar l' 0, l').

Definition backslash : char := ascii_of_N 92.
Definition newline : char := ascii_of_N 10.

(** The [while] loop of [lexStrLit]; [ch] is the by-reference parameter.
    Both error branches are empty in the source (a TODO comment each). *)
Fixpoint lexStrLit_loop (fuel : nat) (l : t) (ch quote : char)
         (mayBreak : bool) : option (char * t) :=
  if negb (char_eqb ch NUL) && negb (char_eqb ch quote) then
    match fuel with
    | O => None
    | S fuel' =>
        let '(ch1, l1) :=
          if char_eqb ch backslash then
            let '(c, l') := consumeCharPeekNext l 0 in
            if negb (iscntrl c) && negb (isprint c)
            then (c, l')   (* TODO: Error, unknown escape sequence. *)
            else (c, l')
          else if char_eqb ch newline && negb mayBreak
            then (ch, l)   (* TODO: Error, unterminated string. *)
            else (ch, l) in
        let '(ch2, l2) := consumeCharPeekNext l1 0 in
        lexStrLit_loop fuel' l2 ch2 quote mayBreak
    end
  else Some (ch, l).

Definition lexStrLit (fuel : nat) (l : t) (ch quote : char) (mayBreak : bool)
           (syntax : Syntax) : option (Token * char * t) :=
  match lexStrLit_loop fuel l ch quote mayBreak with
  | Some (ch', l') => Some (TK_STRING_LITERAL, ch', l')
  | None => None
  end.

Fixpoint lexIdent_loop (fuel : nat) (syntax : Syntax) (l : t) (ch : char)
  : option (char * t) :=
  if isIdentChar syntax ch then
    match fuel with
    | O => None
    | S fuel' =>
        let '(ch', l') := consumeCharPeekNext l 0 in
        lexIdent_loop fuel' syntax l' ch'
    end
  else Some (ch, l).

(** The slice [ident, curr_). *)
Definition slice (l : t) (from to : Z) : list char :=
  firstn (Z.to_nat (to - from)) (skipn (Z.to_nat (from - buff_ l)) (memory l)).

Definition lexIdentOrKeyword (fuel : nat) (l : t) (ch : char)
           (syntax : Syntax) : option (Token * char * t) :=
  if negb (isIdentFirstChar syntax ch) then Some (TK_INVALID, ch, l)
  else
    let ident := curr_ l in
    let '(ch1, l1) := consumeCharPeekNext l 0 in
    match lexIdent_loop fuel syntax l1 ch1 with
    | Some (ch', l') =>
        Some (classifyIdent syntax (slice l' ident (curr_ l')), ch', l')
    | None => None
    end.

(** [while (ch && p(ch)) ch = consumeCharPeekNext();] of the prefixed
    forms. *)
Fixpoint lexDigits_loop (fuel : nat) (p : char -> bool) (l : t) (ch : char)
  : option (char * t) :=
  if negb (char_eqb ch NUL) && p ch then
    match fuel with
    | O => None
    | S fuel' =>
        let '(ch', l') := consumeCharPeekNext l 0 in
        lexDigits_loop fuel' p l' ch'
    end
  else Some (ch, l).

Definition isOctDigit (ch : char) : bool :=
  (code "0" <=? code ch)%N && (code ch <? code "8")%N.
Definition isBinDigit (ch : char) : bool :=
  char_eqb ch "0" || char_eqb ch "1".

(** The three prefixed forms of [lexNumLit] share their shape: consume the
    prefix, demand one digit of the kind [p], then take digits. *)
Definition prefixed (fuel : nat) (p : char -> bool) (l : t)
  : option (Token * char * t) :=
  let '(ch, l1) := consumeCharPeekNext l 0 in
  if negb (p ch) then
    (* TODO: Error *)
    Some (TK_INVALID, ch, l1)
  else
    match lexDigits_loop fuel p l1 ch with
    | Some (ch', l') => Some (TK_INTEGER_LITERAL, ch', l')
    | None => None
    end.

(** The final accumulation loop of [lexNumLit]. *)
Fixpoint lexNum_loop (fuel : nat) (syntax : Syntax) (l : t) (ch : char)
         (tk : Token) : option (Token * char * t) :=
  if negb (char_eqb ch NUL)
     && (isdigit ch || char_eqb ch "." || isExponent syntax ch) then
    match fuel with
    | O => None
    | S fuel' =>
        let tk1 := if negb (isdigit ch) then TK_FLOAT_LITERAL else tk in
        let prev := ch in
        let '(ch1, l1) := consumeCharPeekNext l 0 in
        let '(ch2, l2) :=
          if isExponent syntax prev && (char_eqb ch1 "+" || char_eqb ch1 "-")
          then consumeCharPeekNext l1 0
          else (ch1, l1) in
        lexNum_loop fuel' syntax l2 ch2 tk1
    end
  else Some (tk, ch, l).

Definition lexNumLit (fuel : nat) (l : t) (ch : char) (syntax : Syntax)
  : option (Token * char * t) :=
  if negb (isdigit ch || char_eqb ch ".") then Some (TK_INVALID, ch, l)
  else if char_eqb ch "0" then
    let '(ch1, l1) := consumeCharPeekNext l 0 in
    (* Octal *)
    if isOctalPrefix syntax ch1 then prefixed fuel isOctDigit l1
    (* Hex *)
    else if isHexPrefix syntax ch1 then prefixed fuel isxdigit l1
    (* Bin *)
    else if isBinPrefix syntax ch1 then prefixed fuel isBinDigit l1
    else lexNum_loop fuel syntax l1 ch1 TK_INTEGER_LITERAL
  else lexNum_loop fuel syntax l ch TK_INTEGER_LITERAL.

(** [curr_ + dist] does not wrap. *)
Definition within (l : t) (dist : N) : Prop :=
  addressable l = true -> (curr_ l + Z.of_N dist <= SIZE_MAX)%Z.

(** The cursor invariant of the data model, and the readability of the
    buffer [setBuffer] was given. *)
Definition cursor_inv (l : t) : Prop :=
  (buff_ l <= curr_ l /\ curr_ l <= eof_ l)%Z.

Definition readable (l : t) : Prop :=
  (eof_ l - buff_ l <= Z.of_nat (List.length (memory l)))%Z.

(** Bytes left between the cursor and the end of the buffer. *)
Definition remaining (l : t) : nat := Z.to_nat (eof_ l - curr_ l).

(** A syntax with the usual prefix and exponent letters; the concrete
    [Syntax] classes of the languages are not among the sources. *)
Definition isLetter (c : char) : bool :=
  ((65 <=? code c)%N && (code c <=? 90)%N)
  || ((97 <=? code c)%N && (code c <=? 122)%N)
  || char_eqb c "_".

Definition sampleSyntax : Syntax :=
  {| isIdentFirstChar := isLetter;
     isIdentChar := fun c => isLetter c || isdigit c;
     isOctalPrefix := fun c => char_eqb c "o" || char_eqb c "O";
     isHexPrefix := fun c => char_eqb c "x" || char_eqb c "X";
     isBinPrefix := fun c => char_eqb c "b" || char_eqb c "B";
     isExponent := fun c => char_eqb c "e" || char_eqb c "E";
     classifyIdent := fun _ => TK_IDENTIFIER |}.

(** A lexer over the bytes [bytes] placed at address [base]. *)
Definition onBytes (base : Z) (bytes : list char) : t :=
  setBuffer (mk [] 0 0 0 []) base bytes (N.of_nat (List.length bytes)).

(** A lexer over a string placed at address [base]. *)
Definition onString (base : Z) (s : string) : t :=
  setBuffer (mk [] 0 0 0 []) base (list_ascii_of_string s)
            (N.of_nat (String.length s)).

(** The lexer on the bytes [pre ++ suf] placed at address [base], with the
    cursor on the first byte of [suf]: [pre] is what has been consumed. *)
Definition between (base : Z) (pre suf : list char)
           (reps : list Diagnostic.Kind) : t :=
  {| memory := pre ++ suf;
     buff_ := base;
     curr_ := base + Z.of_nat (List.length pre);
     eof_ := base + Z.of_nat (List.length (pre ++ suf));
     reports := reps |}.

(** The character the cursor is on when [suf] is still to come. *)
Definition headOr (suf : list char) : char :=
  match suf with
  | [] => NUL
  | c :: _ => c
  end.

(** What a sub-lexer may do to the lexer object: move the cursor forward,
    not past [eof_], and nothing else. *)
Definition advanced (l l' : t) : Prop :=
  memory l' = memory l /\ buff_ l' = buff_ l /\ eof_ l' = eof_ l
  /\ reports l' = reports l
  /\ (curr_ l <= curr_ l')%Z
  /\ (curr_ l <= eof_ l -> curr_ l' <= eof_ l)%Z.

(** The text of a string literal, piece by piece: a character standing for
    itself, or a backslash and the character after it. *)
Inductive piece : Set :=
| Plain (c : char)
| Escaped (c : char).

Definition piece_chars (p : piece) : list char :=
  match p with
  | Plain c => [c]
  | Escaped c => [backslash; c]
  end.

Definition text (ps : list piece) : list char := flat_map piece_chars ps.

(** A piece the loop of [lexStrLit] steps over: a plain character is
    neither 0, the quote nor a backslash; an escaped one is not 0. *)
Definition piece_ok (quote : char) (p : piece) : bool :=
  match p with
  | Plain c =>
      negb (char_eqb c NUL) && negb (char_eqb c quote)
      && negb (char_eqb c backslash)
  | Escaped c => negb (char_eqb c NUL)
  end.

(** A character of a decimal literal without exponent. *)
Definition isDigitOrDot (c : char) : bool := isdigit c || char_eqb c ".".

(** The condition of the last loop of [lexNumLit]. *)
Definition isNumChar (syntax : Syntax) (c : char) : bool :=
  negb (char_eqb c NUL)
  && (isdigit c || char_eqb c "." || isExponent syntax c).

(** The digits [lexNumLit] asks for after a [0] and the character [x]:
    the octal form is tried first, then the hexadecimal, then the binary
    one. *)
Definition digitsOfPrefix (syntax : Syntax) (x : char)
  : option (char -> bool) :=
  if isOctalPrefix syntax x then Some isOctDigit
  else if isHexPrefix syntax x then Some isxdigit
  else if isBinPrefix syntax x then Some isBinDigit
  else None.

Definition isSign (c : char) : bool := char_eqb c "+" || char_eqb c "-".

(** A syntax that takes every character but the blank for part of an
    identifier, the 0 sentinel included. *)
Definition looseSyntax : Syntax :=
  {| isIdentFirstChar := isLetter;
     isIdentChar := fun c => negb (char_eqb c " ");
     isOctalPrefix := isOctalPrefix sampleSyntax;
     isHexPrefix := isHexPrefix sampleSyntax;
     isBinPrefix := isBinPrefix sampleSyntax;
     isExponent := isExponent sampleSyntax;
     classifyIdent := fun _ => TK_IDENTIFIER |}.

End Lexer.

(** ** The AST (Ast/Ast.h), as far as [PyParser] builds it

    A [std::unique_ptr] child is an [option]; an AST list
    ([ExprAstList], [StmtAstList], ...) is a [list] of such children, the
    null list being [[]].  The [delim_] locations stored between the
    elements of a list are not part of the model. *)

Module Ast.

#[local] Unset Elimination Schemes.

Inductive NameAst : Set :=
| SimpleNameAst (nameLoc : SourceLoc)
| NestedNameAst (names : list (option NameAst))
| GenNameAst (genLoc : SourceLoc).

Definition Name := option NameAst.

(** The classes deriving from [BinaryExprAst] and [UnaryExprAst], and the
    literal classes, are the tags of one constructor each. *)
Inductive BinaryKind : Set :=
| BitOrExprAst | BitXorExprAst | BitAndExprAst | ShiftExprAst
| AddExprAst | SubExprAst | MulExprAst | DivExprAst | ModExprAst
| LogicOrExprAst | LogicAndExprAst | RelExprAst | InExprAst | IsExprAst
| PowerExprAst | ConcatExprAst.

Inductive UnaryKind : Set :=
| PlusExprAst | MinusExprAst | BitCompExprAst | LogicNotExprAst.

Inductive LitKind : Set :=
| StrLitExprAst | NumLitExprAst | NullLitExprAst | BoolLitExprAst.

Inductive ExprAst : Set :=
| BinaryExprAst (k : BinaryKind) (oprLoc : SourceLoc)
                (expr1 expr2 : option ExprAst)
| UnaryExprAst (k : UnaryKind) (oprLoc : SourceLoc) (expr : option ExprAst)
| AssignExprAst (oprLoc : SourceLoc) (expr1s expr2s : list (option ExprAst))
| CondExprAst (yes : option ExprAst) (questionLoc : SourceLoc)
              (cond : option ExprAst) (delimLoc : SourceLoc)
              (no : option ExprAst)
| PrintExprAst (keyLoc oprLoc : SourceLoc) (exprs : list (option ExprAst))
| DelExprAst (keyLoc : SourceLoc) (exprs : list (option ExprAst))
| AssertExprAst (keyLoc : SourceLoc) (expr : option ExprAst)
| CallExprAst (lDelimLoc : SourceLoc) (base : option ExprAst)
              (args : list (option ExprAst)) (rDelimLoc : SourceLoc)
| ArraySliceExprAst (lDelimLoc : SourceLoc) (base range : option ExprAst)
| MemberAccessExprAst (oprLoc : SourceLoc) (expr : option ExprAst)
                      (name : Name)
| LitExprAst (k : LitKind) (litLoc : SourceLoc)
| IdentExprAst (name_ : Name)
| SubrangeExprAst (delim1Loc : SourceLoc) (low hi : option ExprAst)
                  (delim2Loc : SourceLoc) (max : option ExprAst)
| ArrayInitExprAst (lDelimLoc : SourceLoc) (inits : list (option ExprAst))
                   (rDelimLoc : SourceLoc)
| TupleLitExprAst (lDelimLoc : SourceLoc) (inits : list (option ExprAst))
                  (rDelimLoc : SourceLoc)
| DesignateExprAst (delimLoc : SourceLoc) (id value : option ExprAst)
| ListCompreExpr (lc : ListCompreExprAst)
| WrappedExprAst (lDelimLoc : SourceLoc) (expr : option ExprAst)
                 (rDelimLoc : SourceLoc)
| YieldExprAst (keyLoc : SourceLoc) (exprs : list (option ExprAst))
| UnpackExprAst (keyLoc : SourceLoc) (expr : option ExprAst)
| FuncLitExprAst (spec : option SpecAst) (stmt : option StmtAst)

with ListCompreExprAst : Set :=
| mkListCompre (lDelimLoc : SourceLoc) (expr : option ExprAst)
               (gens : list (option GeneratorAst)) (rDelimLoc : SourceLoc)

with GeneratorAst : Set :=
| mkGenerator (patterns : list (option ExprAst)) (oprLoc : SourceLoc)
              (range : option ExprAst) (filters : list (option ExprAst))

with StmtAst : Set :=
| BlockStmtAst (stmts : list (option StmtAst))
| IfStmtAst (ifLoc : SourceLoc) (expr : option ExprAst)
            (then_ : option StmtAst) (elseLoc : SourceLoc)
            (notThen : option StmtAst)
| WhileStmtAst (whileLoc : SourceLoc) (expr : option ExprAst)
               (stmt : option StmtAst)
| ForeachStmtAst (decl : option DeclAst) (expr : option ExprAst)
                 (stmt : option StmtAst)
| TryStmtAst (keyLoc : SourceLoc) (stmt : option StmtAst)
             (catchs : list (option StmtAst)) (final : option StmtAst)
| CatchClauseStmtAst (keyLoc : SourceLoc) (decl : option DeclAst)
                     (stmt : option StmtAst)
| FinallyClauseStmtAst (keyLoc : SourceLoc) (stmt : option StmtAst)
| WithStmtAst (keyLoc : SourceLoc) (exprs : list (option ExprAst))
              (stmt : option StmtAst)
| ReturnStmtAst (keyLoc : SourceLoc) (exprs : list (option ExprAst))
| BreakStmtAst (keyLoc : SourceLoc)
| ContinueStmtAst (keyLoc : SourceLoc)
| ThrowStmtAst (keyLoc : SourceLoc) (expr : option ExprAst)
| YieldStmtAst (expr : option ExprAst)
| EmptyStmtAst (keyLoc : SourceLoc)
| EvalStmtAst (keyLoc : SourceLoc) (expr : option ExprAst)
| DeclStmtAst (decl : option DeclAst)
| ExprStmtAst (exprs : list (option ExprAst))

with DeclAst : Set :=
| ImportClauseDeclAst (keyLoc hintLoc : SourceLoc)
                      (modules : list (option DeclAst))
| ImportModuleDeclAst (expr : option ExprAst) (asLoc : SourceLoc)
                      (localName : Name) (selectLoc : SourceLoc)
                      (members : list (option DeclAst))
| ImportMemberDeclAst (actualName : Name) (asLoc : SourceLoc)
                      (nickName : Name)
| VarGroupDeclAst (keyLoc : SourceLoc) (decls : list (option DeclAst))
| VarDeclAst (name : Name)
| ParamClauseDeclAst (lDelimLoc : SourceLoc) (decls : list (option DeclAst))
| ParamGroupDeclAst (spec : option SpecAst) (decls : list (option DeclAst))
| ParamDeclAst (name : Name)
  (* ParamDeclAst__<ParamVariadic__Empty__, ParamDefaultArg__> *)
| ParamDeclAst_DefaultArg (assignLoc : SourceLoc) (name : Name)
                          (defaultArg : option ExprAst)
  (* ParamDeclAst__<ParamVariadic__> *)
| ParamDeclAst_Variadic (variadicLoc : SourceLoc) (name : Name)
| FuncDeclAst (name : Name) (stmt : option StmtAst) (spec : option SpecAst)
| RecordDeclAst (name : Name) (spec : option SpecAst)
| BaseDeclAst (name : Name)

with SpecAst : Set :=
| NamedSpecAst (name : Name)
| InferredSpecAst
| FuncSpecAst (keyLoc : SourceLoc) (param : option DeclAst)
              (lDelimLoc : SourceLoc)
| RecordSpecAst (keyLoc : SourceLoc) (bases : list (option DeclAst))
                (lDelimLoc : SourceLoc) (proto : option StmtAst).

Definition Expr := option ExprAst.
Definition Stmt := option StmtAst.
Definition Decl := option DeclAst.
Definition Spec := option SpecAst.
Definition ListCompre := option ListCompreExprAst.

(** The root handed to the context. *)
Inductive ProgramAst : Set :=
| mkProgram (stmts : list Stmt).

(** [Ast::Kind], reduced to the one test the parser makes of it:
    [kind() != Ast::Kind::IdentExpr]. *)
Definition isIdentExpr (e : ExprAst) : bool :=
  match e with
  | IdentExprAst _ => true
  | _ => false
  end.

(** [IdentExpr_Cast(e)->name_.release()]. *)
Definition identName (e : ExprAst) : Name :=
  match e with
  | IdentExprAst n => n
  | _ => None
  end.

End Ast.

(** ** What the parser sees of its collaborators *)

(** The lexer as [PyParser] uses it: [lex()] and [tokenLoc()].  The tokens
    still to come are [pending]; past their end [lex()] answers [TK_EOP]. *)
Module TokenSource.

Record t : Set := mk {
  tokenLoc : SourceLoc;
  pending : list (Token * SourceLoc)
}.

Definition lex (l : t) : Token * t :=
  match pending l with
  | [] => (TK_EOP, l)
  | (tk, loc) :: rest => (tk, mk loc rest)
  end.

(** A source over the tokens [tks], the [i]-th of them at column [i] of
    line 1. *)
Definition locAt (i : nat) : SourceLoc := mkSourceLoc EmptyString 1 i 1 i.

Fixpoint place (i : nat) (tks : list Token) : list (Token * SourceLoc) :=
  match tks with
  | [] => []
  | tk :: rest => (tk, locAt i) :: place (S i) rest
  end.

Definition ofTokens (tks : list Token) : t := mk emptyLoc (place 1 tks).

End TokenSource.

(** Modelled from the spec: [Parsing/ParsingContext.h] is not among the
    sources.  A mutable [{fileName, diagnostics, astRoot}];
    [trackReport(kind, loc)] appends, [takeAst(root)] transfers ownership of
    the program root. *)
Module ParsingContext.

Record t : Set := mk {
  fileName : option string;
  reports : list (Diagnostic.Kind * SourceLoc);
  astRoot : option Ast.ProgramAst
}.

Definition trackReport (kind : Diagnostic.Kind) (loc : SourceLoc) (c : t) : t :=
  mk (fileName c) (reports c ++ [(kind, loc)]) (astRoot c).

Definition takeAst (root : Ast.ProgramAst) (c : t) : t :=
  mk (fileName c) (reports c) (Some root).

Definition fresh (file : string) : t := mk (Some file) [] None.

End ParsingContext.

(** ** PyParser (Python/PyParser.cpp) *)

Module PyParser.

Import Ast.

(** The data members of the parser object. *)
Record t : Set := mk {
  lexer_ : TokenSource.t;
  context_ : ParsingContext.t;
  ahead_ : Token;
  lastLoc_ : SourceLoc
}.

(** How a member function ends: with a value and the object as it left
    it, in the dereference of a null list ([*exprs] of a range-for), or
    with the bound on loop turns and call depth used up. *)
Inductive Res (A : Type) : Type :=
| Ok (a : A) (s : t)
| NullDeref
| OutOfFuel.

Arguments Ok {A} a s.
Arguments NullDeref {A}.
Arguments OutOfFuel {A}.

Definition M (A : Type) : Type := t -> Res A.

Definition ret {A} (a : A) : M A := fun s => Ok a s.

Definition bind {A B} (m : M A) (k : A -> M B) : M B :=
  fun s => match m s with
           | Ok a s' => k a s'
           | NullDeref => NullDeref
           | OutOfFuel => OutOfFuel
           end.

Definition gets {A} (f : t -> A) : M A := fun s => Ok (f s) s.
Definition nullDeref {A} : M A := fun _ => NullDeref.
Definition outOfFuel {A} : M A := fun _ => OutOfFuel.

Declare Scope parser_scope.
Delimit Scope parser_scope with parser.
Notation "x <- m ;; k" := (bind m (fun x => k))
  (at level 61, m at next level, right associativity) : parser_scope.
Notation "' pat <- m ;; k" := (bind m (fun x => match x with pat => k end))
  (at level 61, pat pattern, m at next level, right associativity)
  : parser_scope.
Notation "m ;;; k" := (bind m (fun _ => k))
  (at level 61, right associativity) : parser_scope.
Local Open Scope parser_scope.

Definition tok_eqb : Token -> Token -> bool := Token_beq.

(** [enum Precedence]: [Precedence(curPrec + 1)] is taken in the
    underlying integers. *)
Definition Precedence := nat.
Definition Zero : Precedence := 0.
Definition Or : Precedence := 1.
Definition Xor : Precedence := 2.
Definition And : Precedence := 3.
Definition Shift : Precedence := 4.
Definition Term : Precedence := 5.
Definition Factor : Precedence := 6.

Definition consumeToken : M unit :=
  fun s =>
    if tok_eqb (ahead_ s) TK_EOP then Ok tt s
    else
      (* Track previous token location. *)
      let loc := TokenSource.tokenLoc (lexer_ s) in
      let file := match ParsingContext.fileName (context_ s) with
                  | Some f => f
                  | None => EmptyString
                  end in
      let loc := mkSourceLoc file (firstLine_ loc) (firstCol_ loc)
                             (lastLine_ loc) (lastCol_ loc) in
      let '(tk, lexer') := TokenSource.lex (lexer_ s) in
      Ok tt (mk lexer' (context_ s) tk loc).

Definition maybeConsume (tk : Token) : M bool :=
  a <- gets ahead_ ;;
  if tok_eqb a tk then consumeToken ;;; ret true
  else ret false.

Fixpoint skipTo_loop (n : nat) (tk : Token) : M unit :=
  a <- gets ahead_ ;;
  if negb (tok_eqb a tk || tok_eqb a TK_EOP) then
    match n with
    | O => outOfFuel
    | S n' => consumeToken ;;; skipTo_loop n' tk
    end
  else ret tt.

Definition trackReport (kind : Diagnostic.Kind) (loc : SourceLoc) : M unit :=
  fun s => Ok tt (mk (lexer_ s)
                     (ParsingContext.trackReport kind loc (context_ s))
                     (ahead_ s) (lastLoc_ s)).

Definition failMatch (consume : bool) : M unit :=
  (* Location in the report is always from the lastly consumed token. *)
  (if consume then consumeToken else ret tt) ;;;
  loc <- gets lastLoc_ ;;
  trackReport Diagnostic.UnexpectedToken loc.

Definition match_ (tk : Token) : M bool :=
  actual <- gets ahead_ ;;
  consumeToken ;;; (* Move on, regardless of a match. *)
  if negb (tok_eqb actual tk) then failMatch false ;;; ret false
  else ret true.

Definition isAtomAhead (s : t) : bool :=
  match ahead_ s with
  | TK_LPAREN | TK_LBRACKET | TK_LBRACE | TK_BACKTICK | TK_IDENTIFIER
  | TK_INTEGER_LITERAL | TK_FLOAT_LITERAL | TK_STRING_LITERAL
  | TK_NULL_LITERAL | TK_TRUE_LITERAL | TK_FALSE_LITERAL => true
  | _ => false
  end.

Definition isFactorAhead (s : t) : bool :=
  match ahead_ s with
  | TK_PLUS | TK_MINUS | TK_TILDE => true
  | _ => isAtomAhead s
  end.

Definition isExprAhead (s : t) : bool := isFactorAhead s.

Definition isNonLambdaTestAhead (s : t) : bool :=
  match ahead_ s with
  | TK_NOT => true
  | _ => isExprAhead s
  end.

Definition isTestAhead (s : t) : bool :=
  match ahead_ s with
  | TK_LAMBDA => true
  | _ => isNonLambdaTestAhead s
  end.

Definition isArgAhead (s : t) : bool :=
  match ahead_ s with
  | TK_STAR | TK_STAR_STAR => true
  | _ => isTestAhead s
  end.

Definition isSubscriptAhead (s : t) : bool :=
  match ahead_ s with
  | TK_DOT_DOT_DOT | TK_COLON => true
  | _ => isTestAhead s
  end.

Definition isNameAhead (s : t) : bool := tok_eqb (ahead_ s) TK_IDENTIFIER.

(** The pair of a precedence and a fresh node of the operator's class;
    the node is null for [Precedence::Zero]. *)
Definition fetchPrecAhead (s : t) : Precedence * option BinaryKind :=
  match ahead_ s with
  | TK_PIPE => (Or, Some BitOrExprAst)
  | TK_CARET => (Xor, Some BitXorExprAst)
  | TK_AMPER => (And, Some BitAndExprAst)
  | TK_LESS_LESS | TK_GREATER_GREATER => (Shift, Some ShiftExprAst)
  | TK_PLUS => (Term, Some AddExprAst)
  | TK_MINUS => (Term, Some SubExprAst)
  | TK_STAR => (Factor, Some MulExprAst)
  | TK_SLASH => (Factor, Some DivExprAst)
  | TK_SLASH_SLASH => (Factor, Some DivExprAst)
  | TK_PERCENT => (Factor, Some ModExprAst)
  | _ => (Zero, None)
  end.

(** Modelled from the spec: [joinedLoc] (Parsing/SourceLoc.h) is not among
    the sources.  Two locations are joined into the smallest span covering
    both. *)
Definition posLeb (l1 c1 l2 c2 : nat) : bool :=
  (l1 <? l2) || ((l1 =? l2) && (c1 <=? c2)).

Definition joinedLoc (a b : SourceLoc) : SourceLoc :=
  let '(fl, fc) :=
    if posLeb (firstLine_ a) (firstCol_ a) (firstLine_ b) (firstCol_ b)
    then (firstLine_ a, firstCol_ a) else (firstLine_ b, firstCol_ b) in
  let '(ll, lc) :=
    if posLeb (lastLine_ a) (lastCol_ a) (lastLine_ b) (lastCol_ b)
    then (lastLine_ b, lastCol_ b) else (lastLine_ a, lastCol_ a) in
  mkSourceLoc (fileName_ a) fl fc ll lc.

(** The environment of a member function: what is not fixed by
    [PyParser.cpp] itself, and the functions it reaches by recursion.

    - [keepNull]: [addToList] and the [add...] members of the nodes
      (Ast/AstList.h, Ast/Ast.h) are not among the sources; whether they
      store a null item or leave the list as it is is a parameter.
    - [fuel] bounds the turns of every loop; the [rec_] fields are the
      member functions one level of calls further down. *)
Record Env : Type := mkEnv {
  keepNull : bool;
  fuel : nat;
  rec_parseStmt : M Stmt;
  rec_parseIfElseIfStmt : M Stmt;
  rec_parseTest : M Expr;
  rec_parseOldTest : M Expr;
  rec_parseOrTest : M Expr;
  rec_parseNotTest : M Expr;
  rec_parseExpr : M Expr;
  rec_parseBinaryExpr : Precedence -> M Expr;
  rec_parseFactor : M Expr;
  rec_parseStrLit : M Expr;
  rec_parseCompFor : ListCompre -> M ListCompre;
  rec_parseCompIf : ListCompre -> M ListCompre;
  rec_parseListFor : ListCompre -> M ListCompre;
  rec_parseListIf : ListCompre -> M ListCompre
}.

Definition addToList {A} (r : Env) (lst : list (option A)) (item : option A)
  : list (option A) :=
  match item with
  | Some _ => lst ++ [item]
  | None => if keepNull r then lst ++ [item] else lst
  end.

(** [list1] followed by [list2] ([mergeList], [mergeExprs], [mergeInits]). *)
Definition mergeList {A} (list1 list2 : list (option A)) : list (option A) :=
  list1 ++ list2.

(** [!list] of a list pointer. *)
Definition isNil {A} (lst : list A) : bool :=
  match lst with
  | [] => true
  | _ => false
  end.

(** [list->releaseHead()] of a non-null list. *)
Definition releaseHead {A} (lst : list (option A)) : option A :=
  match lst with
  | [] => None
  | x :: _ => x
  end.

Definition skipTo (r : Env) (tk : Token) : M unit := skipTo_loop (fuel r) tk.

(** [if (!match(tk)) skipTo(tk);], the recovery on a closing delimiter. *)
Definition matchOrSkipTo (r : Env) (tk : Token) : M unit :=
  ok <- match_ tk ;;
  if negb ok then skipTo r tk else ret tt.

Definition parseName : M Name :=
  (* A name AST may only be created if the match succeeds. *)
  ok <- match_ TK_IDENTIFIER ;;
  if ok then
    loc <- gets lastLoc_ ;;
    ret (Some (SimpleNameAst loc))
  else ret None.

Fixpoint parseList_loop {A} (r : Env) (n : nat) (tk : Token)
         (checkAhead : t -> bool) (parseFunc : M (option A))
         (trailingOK : bool) (lst : list (option A))
  : M (list (option A) * bool) :=
  match n with
  | O => outOfFuel
  | S n' =>
      more <- maybeConsume tk ;;
      if more then
        ok <- gets checkAhead ;;
        if trailingOK && negb ok then ret (lst, true)
        else
          item <- parseFunc ;;
          parseList_loop r n' tk checkAhead parseFunc trailingOK
                         (addToList r lst item)
      else ret (lst, false)
  end.

Definition parseList {A} (r : Env) (tk : Token) (checkAhead : t -> bool)
           (parseFunc : M (option A)) (trailingOK : bool)
  : M (list (option A) * bool) :=
  item <- parseFunc ;;
  parseList_loop r (fuel r) tk checkAhead parseFunc trailingOK
                 (addToList r [] item).

Definition parseDottedName (r : Env) : M Name :=
  p <- parseList r TK_DOT isNameAhead parseName false ;;
  ret (Some (NestedNameAst (fst p))).

Definition parseStrLit (r : Env) : M Expr :=
  a <- gets ahead_ ;;
  if negb (tok_eqb a TK_STRING_LITERAL) then ret None
  else
    match_ TK_STRING_LITERAL ;;;
    loc <- gets lastLoc_ ;;
    let str := LitExprAst StrLitExprAst loc in
    a <- gets ahead_ ;;
    if tok_eqb a TK_STRING_LITERAL then
      e2 <- rec_parseStrLit r ;;
      ret (Some (BinaryExprAst ConcatExprAst emptyLoc (Some str) e2))
    else ret (Some str).

Definition parseExprList (r : Env) : M (list Expr) :=
  p <- parseList r TK_COMMA isExprAhead (rec_parseExpr r) true ;;
  ret (fst p).

Definition parseTestList (r : Env) : M (list Expr) :=
  p <- parseList r TK_COMMA isTestAhead (rec_parseTest r) true ;;
  ret (fst p).

Definition parseTestList1 (r : Env) : M (list Expr) :=
  p <- parseList r TK_COMMA isTestAhead (rec_parseTest r) false ;;
  ret (fst p).

Definition parseTestListSafe (r : Env) : M (list Expr) :=
  p <- parseList r TK_COMMA isTestAhead (rec_parseOldTest r) true ;;
  ret (fst p).

Definition parseYieldExpr (r : Env) : M Expr :=
  a <- gets ahead_ ;;
  if negb (tok_eqb a TK_YIELD) then ret None
  else
    match_ TK_YIELD ;;;
    keyLoc <- gets lastLoc_ ;;
    ok <- gets isTestAhead ;;
    exprs <- (if ok then parseTestList r else ret []) ;;
    ret (Some (YieldExprAst keyLoc exprs)).

(** [group] is the [ParamGroupDeclAst] under construction: its spec and
    its decls. *)
Definition completeParam (r : Env) (group : Spec * list Decl) : M Decl :=
  variadicLoc <- gets lastLoc_ ;;
  name <- parseName ;;
  ret (Some (ParamGroupDeclAst
               (fst group)
               (addToList r (snd group)
                          (Some (ParamDeclAst_Variadic variadicLoc name))))).

(** The [do ... while (takeComma && maybeConsume(TK_COMMA))] of
    [parseVarArgsList]; [decls] are the groups of the clause so far. *)
Fixpoint parseVarArgsList_loop (r : Env) (n : nat) (seenStar : bool)
         (decls : list Decl) : M (list Decl) :=
  match n with
  | O => outOfFuel
  | S n' =>
      let group := (Some InferredSpecAst, @nil Decl) in
      a <- gets ahead_ ;;
      '(seenStar', takeComma, decls') <-
        match a with
        | TK_IDENTIFIER =>
            if seenStar then ret (seenStar, true, decls)
            else
              name <- parseName ;;
              eq <- maybeConsume TK_EQUAL ;;
              (if eq then
                 assignLoc <- gets lastLoc_ ;;
                 defaultArg <- rec_parseTest r ;;
                 ret (seenStar, true,
                      addToList r decls
                        (Some (ParamGroupDeclAst (fst group)
                           (addToList r (snd group)
                              (Some (ParamDeclAst_DefaultArg
                                       assignLoc name defaultArg))))))
               else
                 ret (seenStar, true,
                      addToList r decls
                        (Some (ParamGroupDeclAst (fst group)
                           (addToList r (snd group)
                              (Some (ParamDeclAst name)))))))
        | TK_STAR =>
            if seenStar then ret (seenStar, true, decls)
            else
              consumeToken ;;;
              g <- completeParam r group ;;
              ret (true, true, addToList r decls g)
        | TK_STAR_STAR =>
            consumeToken ;;;
            g <- completeParam r group ;;
            (* Fallthrough *)
            ret (seenStar, false, addToList r decls g)
        | _ => ret (seenStar, false, decls)
        end ;;
      if takeComma then
        more <- maybeConsume TK_COMMA ;;
        if more then parseVarArgsList_loop r n' seenStar' decls'
        else ret decls'
      else ret decls'
  end.

Definition parseVarArgsList (r : Env) (wantParen : bool) : M Decl :=
  lDelimLoc <- (if wantParen
                then match_ TK_LPAREN ;;; gets lastLoc_
                else ret emptyLoc) ;;
  decls <- parseVarArgsList_loop r (fuel r) false [] ;;
  (if wantParen then matchOrSkipTo r TK_RPAREN else ret tt) ;;;
  ret (Some (ParamClauseDeclAst lDelimLoc decls)).

Definition parseLambdaCore (r : Env) (parseFunc : M Expr) : M Expr :=
  a <- gets ahead_ ;;
  if negb (tok_eqb a TK_LAMBDA) then ret None
  else
    match_ TK_LAMBDA ;;;
    keyLoc <- gets lastLoc_ ;;
    param <- parseVarArgsList r false ;;
    match_ TK_COLON ;;;
    lDelimLoc <- gets lastLoc_ ;;
    body <- parseFunc ;;
    ret (Some (FuncLitExprAst
                 (Some (FuncSpecAst keyLoc param lDelimLoc))
                 (Some (ExprStmtAst (addToList r [] body))))).

Definition parseLambdaDef (r : Env) : M Expr :=
  parseLambdaCore r (rec_parseTest r).

Definition parseOldLambdaDef (r : Env) : M Expr :=
  parseLambdaCore r (rec_parseOldTest r).

(** *** Comprehensions *)

Definition completeListCompre (listCompre : ListCompre)
           (genFunc filterFunc : ListCompre -> M ListCompre) : M ListCompre :=
  a <- gets ahead_ ;;
  if tok_eqb a TK_FOR then genFunc listCompre
  else if tok_eqb a TK_IF then filterFunc listCompre
  else ret listCompre.

(** [listCompre->addGen(gen)], with [gen] filled as the source fills
    [gens()->back()]. *)
Definition addGen (r : Env) (lc : ListCompreExprAst) (gen : GeneratorAst)
  : ListCompreExprAst :=
  match lc with
  | mkListCompre l e gens rd =>
      mkListCompre l e (addToList r gens (Some gen)) rd
  end.

Definition gensOf (lc : ListCompreExprAst) : list (option GeneratorAst) :=
  match lc with
  | mkListCompre _ _ gens _ => gens
  end.

(** [gens()->back()->addFilter(filter)]. *)
Definition addFilterToBack (r : Env) (lc : ListCompreExprAst) (filter : Expr)
  : ListCompreExprAst :=
  match lc with
  | mkListCompre l e gens rd =>
      match rev gens with
      | Some (mkGenerator ps ol rg fs) :: before =>
          mkListCompre l e
            (rev before ++ [Some (mkGenerator ps ol rg (addToList r fs filter))])
            rd
      | _ => lc
      end
  end.

Definition setCompreExpr (lc : ListCompreExprAst) (e : Expr) : ListCompreExprAst :=
  match lc with
  | mkListCompre l _ gens rd => mkListCompre l e gens rd
  end.

Definition setCompreLDelimLoc (lc : ListCompreExprAst) (l : SourceLoc)
  : ListCompreExprAst :=
  match lc with
  | mkListCompre _ e gens rd => mkListCompre l e gens rd
  end.

Definition setCompreRDelimLoc (lc : ListCompreExprAst) (rd : SourceLoc)
  : ListCompreExprAst :=
  match lc with
  | mkListCompre l e gens _ => mkListCompre l e gens rd
  end.

(** [makeAst<ListCompreExprAst>()]. *)
Definition newListCompre : ListCompre :=
  Some (mkListCompre emptyLoc None [] emptyLoc).

Definition parseCompFor (r : Env) (listCompre : ListCompre) : M ListCompre :=
  a <- gets ahead_ ;;
  if negb (tok_eqb a TK_FOR) then ret listCompre
  else
    match listCompre with
    | None => ret listCompre
    | Some lc =>
        match_ TK_FOR ;;;
        patterns <- parseExprList r ;;
        match_ TK_IN ;;;
        oprLoc <- gets lastLoc_ ;;
        range <- rec_parseOrTest r ;;
        completeListCompre
          (Some (addGen r lc (mkGenerator patterns oprLoc range [])))
          (rec_parseCompFor r) (rec_parseCompIf r)
    end.

Definition parseListFor (r : Env) (listCompre : ListCompre) : M ListCompre :=
  a <- gets ahead_ ;;
  if negb (tok_eqb a TK_FOR) then ret listCompre
  else
    match listCompre with
    | None => ret listCompre
    | Some lc =>
        match_ TK_FOR ;;;
        patterns <- parseExprList r ;;
        match_ TK_IN ;;;
        oprLoc <- gets lastLoc_ ;;
        tests <- parseTestListSafe r ;;
        let range := match tests with
                     | [] => None
                     | _ => releaseHead tests
                     end in
        completeListCompre
          (Some (addGen r lc (mkGenerator patterns oprLoc range [])))
          (rec_parseListFor r) (rec_parseListIf r)
    end.

Definition parseListOrCompIf (r : Env) (listCompre : ListCompre)
           (genFunc filterFunc : ListCompre -> M ListCompre) : M ListCompre :=
  a <- gets ahead_ ;;
  if negb (tok_eqb a TK_IF) then ret listCompre
  else
    match listCompre with
    | None => ret listCompre
    | Some lc =>
        match gensOf lc with
        | [] => ret listCompre
        | _ =>
            match_ TK_IF ;;;
            filter <- rec_parseOldTest r ;;
            completeListCompre (Some (addFilterToBack r lc filter))
                               genFunc filterFunc
        end
    end.

Definition parseCompIf (r : Env) (listCompre : ListCompre) : M ListCompre :=
  parseListOrCompIf r listCompre (rec_parseCompFor r) (rec_parseCompIf r).

Definition parseListIf (r : Env) (listCompre : ListCompre) : M ListCompre :=
  parseListOrCompIf r listCompre (rec_parseListFor r) (rec_parseListIf r).

(** *** Atoms *)

(** [exprFunc] is the closure handed to [completeWrapped]. *)
Definition completeWrapped (r : Env) (exprFunc : M Expr) : M Expr :=
  lDelimLoc <- gets lastLoc_ ;;
  expr <- exprFunc ;;
  matchOrSkipTo r TK_RPAREN ;;;
  rDelimLoc <- gets lastLoc_ ;;
  ret (Some (WrappedExprAst lDelimLoc expr rDelimLoc)).

(** [listCompre->setExpr(e)] and the like, on the pointer a comprehension
    parser returned. *)
Definition onCompre {A} (listCompre : ListCompre)
           (k : ListCompreExprAst -> M A) : M A :=
  match listCompre with
  | Some lc => k lc
  | None => nullDeref
  end.

Definition parseWrappedOrTuple (r : Env) : M Expr :=
  a <- gets ahead_ ;;
  if negb (tok_eqb a TK_LPAREN) then ret None
  else
    match_ TK_LPAREN ;;;
    lDelimLoc <- gets lastLoc_ ;;
    close <- maybeConsume TK_RPAREN ;;
    if close then
      rDelimLoc <- gets lastLoc_ ;;
      ret (Some (TupleLitExprAst lDelimLoc [] rDelimLoc))
    else
      a <- gets ahead_ ;;
      if tok_eqb a TK_YIELD then completeWrapped r (parseYieldExpr r)
      else
        test <- rec_parseTest r ;;
        a <- gets ahead_ ;;
        match a with
        | TK_FOR =>
            completeWrapped r
              (listCompre <- parseListFor r newListCompre ;;
               onCompre listCompre (fun lc =>
                 ret (Some (ListCompreExpr (setCompreExpr lc test)))))
        | TK_COMMA =>
            consumeToken ;;;
            let inits := addToList r [] test in
            ok <- gets isTestAhead ;;
            inits <- (if ok
                      then more <- parseTestList r ;; ret (mergeList inits more)
                      else ret inits) ;;
            matchOrSkipTo r TK_RPAREN ;;;
            rDelimLoc <- gets lastLoc_ ;;
            ret (Some (TupleLitExprAst lDelimLoc inits rDelimLoc))
        | _ => completeWrapped r (ret test)
        end.

Definition parseListMaker (r : Env) : M Expr :=
  a <- gets ahead_ ;;
  if negb (tok_eqb a TK_LBRACKET) then ret None
  else
    match_ TK_LBRACKET ;;;
    lDelimLoc <- gets lastLoc_ ;;
    close <- maybeConsume TK_RBRACKET ;;
    if close then
      rDelimLoc <- gets lastLoc_ ;;
      ret (Some (ArrayInitExprAst lDelimLoc [] rDelimLoc))
    else
      test <- rec_parseTest r ;;
      a <- gets ahead_ ;;
      match a with
      | TK_FOR =>
          listCompre <- parseListFor r newListCompre ;;
          onCompre listCompre (fun lc =>
            matchOrSkipTo r TK_RBRACKET ;;;
            rDelimLoc <- gets lastLoc_ ;;
            ret (Some (ListCompreExpr
                         (setCompreRDelimLoc
                            (setCompreExpr (setCompreLDelimLoc lc lDelimLoc) test)
                            rDelimLoc))))
      | TK_COMMA =>
          consumeToken ;;;
          let inits := addToList r [] test in
          ok <- gets isTestAhead ;;
          inits <- (if ok
                    then more <- parseTestList r ;; ret (mergeList inits more)
                    else ret inits) ;;
          (* Fallthrough: [test] was released above. *)
          matchOrSkipTo r TK_RBRACKET ;;;
          rDelimLoc <- gets lastLoc_ ;;
          ret (Some (ArrayInitExprAst lDelimLoc inits rDelimLoc))
      | _ =>
          let inits := match test with
                       | Some _ => addToList r [] test
                       | None => []
                       end in
          matchOrSkipTo r TK_RBRACKET ;;;
          rDelimLoc <- gets lastLoc_ ;;
          ret (Some (ArrayInitExprAst lDelimLoc inits rDelimLoc))
      end.

(** The [while (maybeConsume(TK_COMMA))] of the dictionary display. *)
Fixpoint parseDictItems_loop (r : Env) (n : nat) (inits : list Expr)
  : M (list Expr) :=
  match n with
  | O => outOfFuel
  | S n' =>
      more <- maybeConsume TK_COMMA ;;
      if more then
        ok <- gets isTestAhead ;;
        if negb ok then ret inits
        else
          id <- rec_parseTest r ;;
          match_ TK_COLON ;;;
          delimLoc <- gets lastLoc_ ;;
          value <- rec_parseTest r ;;
          parseDictItems_loop r n'
            (addToList r inits (Some (DesignateExprAst delimLoc id value)))
      else ret inits
  end.

Definition parseDictOrSetMaker (r : Env) : M Expr :=
  a <- gets ahead_ ;;
  if negb (tok_eqb a TK_LBRACE) then ret None
  else
    match_ TK_LBRACE ;;;
    lDelimLoc <- gets lastLoc_ ;;
    close <- maybeConsume TK_RBRACE ;;
    if close then
      rDelimLoc <- gets lastLoc_ ;;
      ret (Some (ArrayInitExprAst lDelimLoc [] rDelimLoc))
    else
      test <- rec_parseTest r ;;
      a <- gets ahead_ ;;
      match a with
      | TK_COLON =>
          consumeToken ;;;
          delimLoc <- gets lastLoc_ ;;
          value <- rec_parseTest r ;;
          let desig := Some (DesignateExprAst delimLoc test value) in
          a <- gets ahead_ ;;
          if tok_eqb a TK_FOR then
            listCompre <- parseListFor r newListCompre ;;
            onCompre listCompre (fun lc =>
              matchOrSkipTo r TK_RBRACE ;;;
              rDelimLoc <- gets lastLoc_ ;;
              ret (Some (ListCompreExpr
                           (setCompreRDelimLoc
                              (setCompreExpr (setCompreLDelimLoc lc lDelimLoc)
                                             desig)
                              rDelimLoc))))
          else
            inits <- parseDictItems_loop r (fuel r) (addToList r [] desig) ;;
            matchOrSkipTo r TK_RBRACE ;;;
            rDelimLoc <- gets lastLoc_ ;;
            ret (Some (ArrayInitExprAst lDelimLoc inits rDelimLoc))
      | TK_FOR =>
          listCompre <- parseListFor r newListCompre ;;
          onCompre listCompre (fun lc =>
            matchOrSkipTo r TK_RBRACE ;;;
            rDelimLoc <- gets lastLoc_ ;;
            ret (Some (ListCompreExpr
                         (setCompreRDelimLoc
                            (setCompreExpr (setCompreLDelimLoc lc lDelimLoc) test)
                            rDelimLoc))))
      | TK_COMMA =>
          consumeToken ;;;
          let inits := addToList r [] test in
          more <- parseTestList r ;;
          let inits := mergeList inits more in
          (* Fallthrough: [test] was released above. *)
          matchOrSkipTo r TK_RBRACE ;;;
          rDelimLoc <- gets lastLoc_ ;;
          ret (Some (ArrayInitExprAst lDelimLoc inits rDelimLoc))
      | _ =>
          let inits := match test with
                       | Some _ => addToList r [] test
                       | None => []
                       end in
          matchOrSkipTo r TK_RBRACE ;;;
          rDelimLoc <- gets lastLoc_ ;;
          ret (Some (ArrayInitExprAst lDelimLoc inits rDelimLoc))
      end.

Definition parseAtom (r : Env) : M Expr :=
  a <- gets ahead_ ;;
  match a with
  | TK_LPAREN => parseWrappedOrTuple r
  | TK_LBRACE => parseDictOrSetMaker r
  | TK_LBRACKET => parseListMaker r
  | TK_BACKTICK =>
      consumeToken ;;;
      loc <- gets lastLoc_ ;;
      parseTestList1 r ;;; (* Let it die. *)
      matchOrSkipTo r TK_BACKTICK ;;;
      last <- gets lastLoc_ ;;
      ret (Some (LitExprAst StrLitExprAst (joinedLoc loc last)))
  | TK_IDENTIFIER =>
      name <- parseName ;;
      ret (Some (IdentExprAst name))
  | TK_INTEGER_LITERAL | TK_FLOAT_LITERAL =>
      consumeToken ;;;
      loc <- gets lastLoc_ ;;
      ret (Some (LitExprAst NumLitExprAst loc))
  | TK_NULL_LITERAL =>
      consumeToken ;;;
      loc <- gets lastLoc_ ;;
      ret (Some (LitExprAst NullLitExprAst loc))
  | TK_TRUE_LITERAL | TK_FALSE_LITERAL =>
      consumeToken ;;;
      loc <- gets lastLoc_ ;;
      ret (Some (LitExprAst BoolLitExprAst loc))
  | TK_STRING_LITERAL => parseStrLit r
  | _ =>
      failMatch true ;;;
      ret None
  end.

(** *** Subscripts and arguments *)

Definition completeSubrangeExpr (r : Env) (expr : Expr) : M Expr :=
  delim1Loc <- gets lastLoc_ ;;
  ok <- gets isTestAhead ;;
  hi <- (if ok then rec_parseTest r else ret None) ;;
  colon <- maybeConsume TK_COLON ;;
  delim2Loc <- (if colon then gets lastLoc_ else ret emptyLoc) ;;
  ok <- gets isTestAhead ;;
  max <- (if ok then rec_parseTest r else ret None) ;;
  ret (Some (SubrangeExprAst delim1Loc expr hi delim2Loc max)).

Definition parseSubscript (r : Env) : M Expr :=
  a <- gets ahead_ ;;
  match a with
  | TK_DOT_DOT_DOT =>
      (* TODO: Model this kind of slice. *)
      consumeToken ;;;
      ret (Some (SubrangeExprAst emptyLoc None None emptyLoc None))
  | TK_COLON =>
      consumeToken ;;;
      completeSubrangeExpr r None
  | _ =>
      test <- rec_parseTest r ;;
      colon <- maybeConsume TK_COLON ;;
      if colon then completeSubrangeExpr r test
      else ret test
  end.

Definition parseSubscriptList (r : Env) : M (list Expr) :=
  p <- parseList r TK_COMMA isSubscriptAhead (parseSubscript r) true ;;
  ret (fst p).

Definition completeUnaryExpr (k : UnaryKind) (parseFunc : M Expr) : M Expr :=
  oprLoc <- gets lastLoc_ ;;
  expr <- parseFunc ;;
  ret (Some (UnaryExprAst k oprLoc expr)).

Definition completeBinaryExpr (k : BinaryKind) (expr : Expr)
           (parseFunc : M Expr) : M Expr :=
  oprLoc <- gets lastLoc_ ;;
  expr2 <- parseFunc ;;
  ret (Some (BinaryExprAst k oprLoc expr expr2)).

Definition completeAssignExpr (expr : Expr) (parseFunc : M Expr) : M Expr :=
  oprLoc <- gets lastLoc_ ;;
  expr2 <- parseFunc ;;
  ret (Some (AssignExprAst oprLoc [expr] [expr2])).

Definition parseArg (r : Env) : M Expr :=
  test <- rec_parseTest r ;;
  a <- gets ahead_ ;;
  match a with
  | TK_FOR =>
      listCompre <- parseCompFor r newListCompre ;;
      onCompre listCompre (fun lc =>
        ret (Some (ListCompreExpr (setCompreExpr lc test))))
  | TK_EQUAL =>
      consumeToken ;;;
      completeAssignExpr test (rec_parseTest r)
  | _ => ret test
  end.

(** The [UnpackExprAst] of a [*] or [**] argument, once its token is
    consumed. *)
Definition parseUnpack (r : Env) : M Expr :=
  keyLoc <- gets lastLoc_ ;;
  expr <- rec_parseTest r ;;
  ret (Some (UnpackExprAst keyLoc expr)).

Definition parseArgList (r : Env) : M (list Expr) :=
  ok <- gets isTestAhead ;;
  '(args, goOn) <-
    (if ok then
       p <- parseList r TK_COMMA isTestAhead (parseArg r) true ;;
       (* If there's no trailing comma, this arg must be the last one. *)
       ret (fst p, snd p)
     else ret ([], true)) ;;
  if negb goOn then ret args
  else
    star <- maybeConsume TK_STAR ;;
    '(args, wantStarStar) <-
      (if star then
         unpack <- parseUnpack r ;;
         let args := addToList r args unpack in
         comma <- maybeConsume TK_COMMA ;;
         if comma then
           ok <- gets isTestAhead ;;
           if ok then
             p <- parseList r TK_COMMA isTestAhead (parseArg r) true ;;
             ret (mergeList args (fst p), snd p)
           else ret (args, true)
         else ret (args, false)
       else ret (args, false)) ;;
    starStar <- maybeConsume TK_STAR_STAR ;;
    if starStar then
      unpack <- parseUnpack r ;;
      ret (addToList r args unpack)
    else
      (if wantStarStar then failMatch true else ret tt) ;;;
      ret args.

(** *** Operators *)

(** The trailer loop of [parsePower]. *)
Fixpoint parsePower_loop (r : Env) (n : nat) (atom : Expr) : M Expr :=
  match n with
  | O => outOfFuel
  | S n' =>
      a <- gets ahead_ ;;
      match a with
      | TK_LPAREN =>
          consumeToken ;;;
          lDelimLoc <- gets lastLoc_ ;;
          ok <- gets isArgAhead ;;
          args <- (if ok then parseArgList r else ret []) ;;
          matchOrSkipTo r TK_RPAREN ;;;
          rDelimLoc <- gets lastLoc_ ;;
          parsePower_loop r n' (Some (CallExprAst lDelimLoc atom args rDelimLoc))
      | TK_LBRACKET =>
          consumeToken ;;;
          lDelimLoc <- gets lastLoc_ ;;
          range <- parseSubscript r ;;
          matchOrSkipTo r TK_RBRACKET ;;;
          parsePower_loop r n' (Some (ArraySliceExprAst lDelimLoc atom range))
      | TK_DOT =>
          consumeToken ;;;
          oprLoc <- gets lastLoc_ ;;
          name <- parseName ;;
          parsePower_loop r n' (Some (MemberAccessExprAst oprLoc atom name))
      | _ => ret atom
      end
  end.

Definition parsePower (r : Env) : M Expr :=
  atom <- parseAtom r ;;
  atom <- parsePower_loop r (fuel r) atom ;;
  pow <- maybeConsume TK_STAR_STAR ;;
  if pow then completeBinaryExpr PowerExprAst atom (rec_parseFactor r)
  else ret atom.

Definition parseFactor (r : Env) : M Expr :=
  a <- gets ahead_ ;;
  match a with
  | TK_PLUS =>
      consumeToken ;;;
      completeUnaryExpr PlusExprAst (rec_parseFactor r)
  | TK_MINUS =>
      consumeToken ;;;
      completeUnaryExpr MinusExprAst (rec_parseFactor r)
  | TK_TILDE =>
      consumeToken ;;;
      completeUnaryExpr BitCompExprAst (rec_parseFactor r)
  | _ => parsePower r
  end.

(** The [while (true)] of [parseBinaryExpr]. *)
Fixpoint parseBinaryExpr_loop (r : Env) (n : nat) (curPrec : Precedence)
         (factor : Expr) : M Expr :=
  match n with
  | O => outOfFuel
  | S n' =>
      '(prec, bin) <- gets fetchPrecAhead ;;
      if prec <? curPrec then ret factor
      else
        consumeToken ;;;
        match bin with
        | None => nullDeref
        | Some k =>
            oprLoc <- gets lastLoc_ ;;
            expr2 <- rec_parseBinaryExpr r (curPrec + 1) ;;
            parseBinaryExpr_loop r n' curPrec
              (Some (BinaryExprAst k oprLoc factor expr2))
        end
  end.

Definition parseBinaryExpr (r : Env) (curPrec : Precedence) : M Expr :=
  factor <- parseFactor r ;;
  parseBinaryExpr_loop r (fuel r) curPrec factor.

Definition parseExpr (r : Env) : M Expr := parseBinaryExpr r Or.

Fixpoint parseComparison_loop (r : Env) (n : nat) (expr : Expr) : M Expr :=
  match n with
  | O => outOfFuel
  | S n' =>
      a <- gets ahead_ ;;
      match a with
      | TK_LESS | TK_GREATER | TK_EQUAL_EQUAL | TK_GREATER_EQUAL
      | TK_LESS_EQUAL | TK_LESS_GREATER | TK_EXCLAM_EQUAL =>
          consumeToken ;;;
          expr <- completeBinaryExpr RelExprAst expr (parseExpr r) ;;
          parseComparison_loop r n' expr
      | TK_IN =>
          consumeToken ;;;
          expr <- completeBinaryExpr InExprAst expr (parseExpr r) ;;
          parseComparison_loop r n' expr
      | TK_IS => (* May be followed by 'not'. *)
          consumeToken ;;;
          maybeConsume TK_NOT ;;;
          expr <- completeBinaryExpr IsExprAst expr (parseExpr r) ;;
          parseComparison_loop r n' expr
      | TK_NOT => (* Must be followed by 'in'. *)
          consumeToken ;;;
          match_ TK_IN ;;;
          expr <- completeBinaryExpr InExprAst expr (parseExpr r) ;;
          parseComparison_loop r n' expr
      | _ => ret expr
      end
  end.

Definition parseComparison (r : Env) : M Expr :=
  expr <- parseExpr r ;;
  parseComparison_loop r (fuel r) expr.

Definition parseNotTest (r : Env) : M Expr :=
  neg <- maybeConsume TK_NOT ;;
  if neg then
    oprLoc <- gets lastLoc_ ;;
    expr <- rec_parseNotTest r ;;
    ret (Some (UnaryExprAst LogicNotExprAst oprLoc expr))
  else parseComparison r.

Fixpoint parseAndTest_loop (r : Env) (n : nat) (notTest : Expr) : M Expr :=
  match n with
  | O => outOfFuel
  | S n' =>
      more <- maybeConsume TK_AND ;;
      if more then
        notTest <- completeBinaryExpr LogicAndExprAst notTest (parseNotTest r) ;;
        parseAndTest_loop r n' notTest
      else ret notTest
  end.

Definition parseAndTest (r : Env) : M Expr :=
  notTest <- parseNotTest r ;;
  parseAndTest_loop r (fuel r) notTest.

Fixpoint parseOrTest_loop (r : Env) (n : nat) (andTest : Expr) : M Expr :=
  match n with
  | O => outOfFuel
  | S n' =>
      more <- maybeConsume TK_OR ;;
      if more then
        andTest <- completeBinaryExpr LogicOrExprAst andTest (parseAndTest r) ;;
        parseOrTest_loop r n' andTest
      else ret andTest
  end.

Definition parseOrTest (r : Env) : M Expr :=
  andTest <- parseAndTest r ;;
  parseOrTest_loop r (fuel r) andTest.

Definition parseTest (r : Env) : M Expr :=
  a <- gets ahead_ ;;
  if tok_eqb a TK_LAMBDA then parseLambdaDef r
  else
    orTest <- parseOrTest r ;;
    cond <- maybeConsume TK_IF ;;
    if cond then
      (* Must be a conditional. *)
      questionLoc <- gets lastLoc_ ;;
      c <- parseOrTest r ;;
      match_ TK_ELSE ;;;
      delimLoc <- gets lastLoc_ ;;
      no <- rec_parseTest r ;;
      ret (Some (CondExprAst orTest questionLoc c delimLoc no))
    else ret orTest.

Definition parseOldTest (r : Env) : M Expr :=
  a <- gets ahead_ ;;
  if tok_eqb a TK_LAMBDA then parseOldLambdaDef r
  else parseOrTest r.

(** *** Simple statements *)

Definition isAugAssign (tk : Token) : bool :=
  match tk with
  | TK_PLUS_EQUAL | TK_MINUS_EQUAL | TK_STAR_EQUAL | TK_SLASH_EQUAL
  | TK_PERCENT_EQUAL | TK_AMPER_EQUAL | TK_PIPE_EQUAL | TK_CARET_EQUAL
  | TK_LESS_LESS_EQUAL | TK_GREATER_GREATER_EQUAL | TK_STAR_STAR_EQUAL
  | TK_SLASH_SLASH_EQUAL => true
  | _ => false
  end.

(** The right-hand side of an assignment in [parseExprStmt]:
    [ExprAstList::create(parseYieldExpr())] if [ahead_ == TK_YIELD], else
    [parseTestList()]. *)
Definition assignedExprs (r : Env) : M (list Expr) :=
  a <- gets ahead_ ;;
  if tok_eqb a TK_YIELD
  then y <- parseYieldExpr r ;; ret [y]
  else parseTestList r.

(** The [while (true)] of [parseExprStmt]. *)
Fixpoint parseExprStmt_loop (r : Env) (n : nat) (exprs : list Expr)
         (augmented : bool) : M Stmt :=
  match n with
  | O => outOfFuel
  | S n' =>
      a <- gets ahead_ ;;
      if isAugAssign a || tok_eqb a TK_EQUAL then
        let augmented := augmented || isAugAssign a in
        consumeToken ;;;
        oprLoc <- gets lastLoc_ ;;
        expr2s <- assignedExprs r ;;
        let exprs := [Some (AssignExprAst oprLoc exprs expr2s)] in
        a <- gets ahead_ ;;
        if augmented || negb (tok_eqb a TK_EQUAL)
        then ret (Some (ExprStmtAst exprs))
        else parseExprStmt_loop r n' exprs augmented
      else ret (Some (ExprStmtAst exprs))
  end.

Definition parseExprStmt (r : Env) : M Stmt :=
  exprs <- parseTestList r ;;
  parseExprStmt_loop r (fuel r) exprs false.

Definition parsePrintStmt (r : Env) : M Stmt :=
  a <- gets ahead_ ;;
  if negb (tok_eqb a TK_PRINT) then ret None
  else
    match_ TK_PRINT ;;;
    keyLoc <- gets lastLoc_ ;;
    redirect <- maybeConsume TK_GREATER_GREATER ;;
    '(oprLoc, exprs, wantTest, done) <-
      (if redirect then
         oprLoc <- gets lastLoc_ ;;
         e <- rec_parseTest r ;;
         comma <- maybeConsume TK_COMMA ;;
         ret (oprLoc, addToList r [] e, comma, negb comma)
       else ret (emptyLoc, [], false, false)) ;;
    if done then
      ret (Some (ExprStmtAst [Some (PrintExprAst keyLoc oprLoc exprs)]))
    else
      ok <- gets isTestAhead ;;
      exprs <-
        (if wantTest || ok then
           e <- rec_parseTest r ;;
           let exprs := addToList r exprs e in
           comma <- maybeConsume TK_COMMA ;;
           if comma then
             ok <- gets isTestAhead ;;
             if ok then more <- parseTestList r ;; ret (mergeList exprs more)
             else ret exprs
           else ret exprs
         else ret exprs) ;;
      ret (Some (ExprStmtAst [Some (PrintExprAst keyLoc oprLoc exprs)])).

Definition parseDelStmt (r : Env) : M Stmt :=
  a <- gets ahead_ ;;
  if negb (tok_eqb a TK_DELETE) then ret None
  else
    match_ TK_DELETE ;;;
    keyLoc <- gets lastLoc_ ;;
    exprs <- parseExprList r ;;
    ret (Some (ExprStmtAst [Some (DelExprAst keyLoc exprs)])).

Definition parsePassStmt : M Stmt :=
  a <- gets ahead_ ;;
  if negb (tok_eqb a TK_PASS) then ret None
  else
    match_ TK_PASS ;;;
    keyLoc <- gets lastLoc_ ;;
    ret (Some (EmptyStmtAst keyLoc)).

Definition parseContinueStmt : M Stmt :=
  a <- gets ahead_ ;;
  if negb (tok_eqb a TK_CONTINUE) then ret None
  else
    match_ TK_CONTINUE ;;;
    keyLoc <- gets lastLoc_ ;;
    ret (Some (ContinueStmtAst keyLoc)).

Definition parseBreakStmt : M Stmt :=
  a <- gets ahead_ ;;
  if negb (tok_eqb a TK_BREAK) then ret None
  else
    match_ TK_BREAK ;;;
    keyLoc <- gets lastLoc_ ;;
    ret (Some (BreakStmtAst keyLoc)).

Definition parseYieldStmt (r : Env) : M Stmt :=
  a <- gets ahead_ ;;
  if negb (tok_eqb a TK_YIELD) then ret None
  else
    e <- parseYieldExpr r ;;
    ret (Some (YieldStmtAst e)).

Definition parseRaiseStmt (r : Env) : M Stmt :=
  a <- gets ahead_ ;;
  if negb (tok_eqb a TK_THROW) then ret None
  else
    match_ TK_THROW ;;;
    keyLoc <- gets lastLoc_ ;;
    ok <- gets isTestAhead ;;
    if ok then
      e <- rec_parseTest r ;;
      (* TODO: Model remaining exprs. *)
      comma <- maybeConsume TK_COMMA ;;
      (if comma then
         rec_parseTest r ;;;
         comma <- maybeConsume TK_COMMA ;;
         if comma then rec_parseTest r ;;; ret tt else ret tt
       else ret tt) ;;;
      ret (Some (ThrowStmtAst keyLoc e))
    else ret (Some (ThrowStmtAst keyLoc None)).

Definition parseReturnStmt (r : Env) : M Stmt :=
  a <- gets ahead_ ;;
  if negb (tok_eqb a TK_RETURN) then ret None
  else
    match_ TK_RETURN ;;;
    keyLoc <- gets lastLoc_ ;;
    ok <- gets isTestAhead ;;
    exprs <- (if ok then parseTestList r else ret []) ;;
    ret (Some (ReturnStmtAst keyLoc exprs)).

Definition parseFlowStmt (r : Env) : M Stmt :=
  a <- gets ahead_ ;;
  match a with
  | TK_BREAK => parseBreakStmt
  | TK_CONTINUE => parseContinueStmt
  | TK_RETURN => parseReturnStmt r
  | TK_THROW => parseRaiseStmt r
  | TK_YIELD => parseYieldStmt r
  | _ => ret None
  end.

(** The two [do ... while (maybeConsume(TK_COMMA))] of [parseSubImports]. *)
Fixpoint parseSubImports_loop (r : Env) (n : nat) (selective : bool)
         (decls : list Decl) : M (list Decl) :=
  match n with
  | O => outOfFuel
  | S n' =>
      decl <-
        (if selective then
           actualName <- parseName ;;
           alias <- maybeConsume TK_AS ;;
           if alias then
             asLoc <- gets lastLoc_ ;;
             nickName <- parseName ;;
             ret (ImportMemberDeclAst actualName asLoc nickName)
           else ret (ImportMemberDeclAst actualName emptyLoc None)
         else
           name <- parseName ;;
           alias <- maybeConsume TK_AS ;;
           if alias then
             asLoc <- gets lastLoc_ ;;
             localName <- parseName ;;
             ret (ImportModuleDeclAst (Some (IdentExprAst name)) asLoc
                                      localName emptyLoc [])
           else
             ret (ImportModuleDeclAst (Some (IdentExprAst name)) emptyLoc
                                      None emptyLoc [])) ;;
      let decls := addToList r decls (Some decl) in
      more <- maybeConsume TK_COMMA ;;
      if more then parseSubImports_loop r n' selective decls
      else ret decls
  end.

Definition parseSubImports (r : Env) (selective : bool) : M (list Decl) :=
  a <- gets ahead_ ;;
  match a with
  | TK_STAR =>
      consumeToken ;;;
      if selective then
        genLoc <- gets lastLoc_ ;;
        ret [Some (ImportMemberDeclAst (Some (GenNameAst genLoc)) emptyLoc None)]
      else
        failMatch false ;;;
        ret []
  | _ =>
      wantParen <- (if tok_eqb a TK_LPAREN
                    then consumeToken ;;; ret true
                    else ret false) ;;
      decls <- parseSubImports_loop r (fuel r) selective [] ;;
      (if wantParen then matchOrSkipTo r TK_RPAREN else ret tt) ;;;
      (match decls with
       | [] => failMatch true
       | _ => ret tt
       end) ;;;
      ret decls
  end.

(** The [do ... while (maybeConsume(TK_COMMA))] of [import_name]. *)
Fixpoint parseImportNames_loop (r : Env) (n : nat) (modules : list Decl)
  : M (list Decl) :=
  match n with
  | O => outOfFuel
  | S n' =>
      name <- parseDottedName r ;;
      alias <- maybeConsume TK_AS ;;
      module <-
        (if alias then
           asLoc <- gets lastLoc_ ;;
           localName <- parseName ;;
           ret (ImportModuleDeclAst (Some (IdentExprAst name)) asLoc
                                    localName emptyLoc [])
         else
           ret (ImportModuleDeclAst (Some (IdentExprAst name)) emptyLoc
                                    None emptyLoc [])) ;;
      let modules := addToList r modules (Some module) in
      more <- maybeConsume TK_COMMA ;;
      if more then parseImportNames_loop r n' modules
      else ret modules
  end.

(** [while (maybeConsume(TK_DOT) || maybeConsume(TK_DOT_DOT_DOT))
    wantName = false;] *)
Fixpoint parseImportDots_loop (n : nat) (wantName : bool) : M bool :=
  match n with
  | O => outOfFuel
  | S n' =>
      dot <- maybeConsume TK_DOT ;;
      dots <- (if dot then ret true else maybeConsume TK_DOT_DOT_DOT) ;;
      if dots then parseImportDots_loop n' false
      else ret wantName
  end.

Definition parseImportStmt (r : Env) : M Stmt :=
  a <- gets ahead_ ;;
  match a with
  | TK_IMPORT =>
      consumeToken ;;;
      keyLoc <- gets lastLoc_ ;;
      modules <- parseImportNames_loop r (fuel r) [] ;;
      (match modules with
       | [] => failMatch true
       | _ => ret tt
       end) ;;;
      ret (Some (DeclStmtAst
                   (Some (ImportClauseDeclAst keyLoc emptyLoc modules))))
  | TK_FROM =>
      consumeToken ;;;
      keyLoc <- gets lastLoc_ ;;
      (* DESIGN: Store the dots (relative location info). *)
      wantName <- parseImportDots_loop (fuel r) true ;;
      nameAhead <- gets isNameAhead ;;
      if wantName || nameAhead then
        (* A selective import, members specified after 'import'. *)
        name <- parseDottedName r ;;
        match_ TK_IMPORT ;;;
        selectLoc <- gets lastLoc_ ;;
        members <- parseSubImports r true ;;
        let module := ImportModuleDeclAst (Some (IdentExprAst name)) emptyLoc
                                          None selectLoc members in
        ret (Some (DeclStmtAst
                     (Some (ImportClauseDeclAst keyLoc emptyLoc
                                                (addToList r [] (Some module))))))
      else
        (* An "ordinary" (non-selective) import. *)
        match_ TK_IMPORT ;;;
        hintLoc <- gets lastLoc_ ;;
        modules <- parseSubImports r false ;;
        ret (Some (DeclStmtAst
                     (Some (ImportClauseDeclAst keyLoc hintLoc modules))))
  | _ => ret None
  end.

(** The [do ... while (maybeConsume(TK_COMMA))] of [parseGlobalStmt]. *)
Fixpoint parseGlobalNames_loop (r : Env) (n : nat) (decls : list Decl)
  : M (list Decl) :=
  match n with
  | O => outOfFuel
  | S n' =>
      name <- parseName ;;
      let decls := addToList r decls (Some (VarDeclAst name)) in
      more <- maybeConsume TK_COMMA ;;
      if more then parseGlobalNames_loop r n' decls
      else ret decls
  end.

Definition parseGlobalStmt (r : Env) : M Stmt :=
  a <- gets ahead_ ;;
  if negb (tok_eqb a TK_GLOBAL) then ret None
  else
    match_ TK_GLOBAL ;;;
    keyLoc <- gets lastLoc_ ;;
    decls <- parseGlobalNames_loop r (fuel r) [] ;;
    (match decls with
     | [] => failMatch true
     | _ => ret tt
     end) ;;;
    ret (Some (DeclStmtAst (Some (VarGroupDeclAst keyLoc decls)))).

Definition parseExecStmt (r : Env) : M Stmt :=
  a <- gets ahead_ ;;
  if negb (tok_eqb a TK_EXEC) then ret None
  else
    match_ TK_EXEC ;;;
    keyLoc <- gets lastLoc_ ;;
    expr <- rec_parseExpr r ;;
    (* TODO: Model remaining items. *)
    more <- maybeConsume TK_IN ;;
    (if more then
       rec_parseTest r ;;;
       comma <- maybeConsume TK_COMMA ;;
       if comma then rec_parseTest r ;;; ret tt else ret tt
     else ret tt) ;;;
    ret (Some (EvalStmtAst keyLoc expr)).

Definition parseAssertStmt (r : Env) : M Stmt :=
  a <- gets ahead_ ;;
  if negb (tok_eqb a TK_ASSERT) then ret None
  else
    match_ TK_ASSERT ;;;
    keyLoc <- gets lastLoc_ ;;
    expr <- rec_parseTest r ;;
    (* TODO: Generalize "message" from AssertExprAst to "action". *)
    comma <- maybeConsume TK_COMMA ;;
    (if comma then rec_parseTest r ;;; ret tt else ret tt) ;;;
    ret (Some (ExprStmtAst [Some (AssertExprAst keyLoc expr)])).

Definition parseSmallStmt (r : Env) : M Stmt :=
  a <- gets ahead_ ;;
  match a with
  | TK_PRINT => parsePrintStmt r
  | TK_DELETE => parseDelStmt r
  | TK_PASS => parsePassStmt
  | TK_IMPORT | TK_FROM => parseImportStmt r
  | TK_GLOBAL => parseGlobalStmt r
  | TK_EXEC => parseExecStmt r
  | TK_ASSERT => parseAssertStmt r
  | TK_BREAK | TK_CONTINUE | TK_RETURN | TK_THROW | TK_YIELD =>
      parseFlowStmt r
  | _ => parseExprStmt r
  end.

(** The [while (maybeConsume(TK_SEMICOLON))] of [parseSimpleStmt]. *)
Fixpoint parseSimpleStmt_loop (r : Env) (n : nat) (stmts : list Stmt)
  : M (list Stmt) :=
  match n with
  | O => outOfFuel
  | S n' =>
      more <- maybeConsume TK_SEMICOLON ;;
      if more then
        a <- gets ahead_ ;;
        if tok_eqb a TK_NEWLINE || tok_eqb a TK_EOP then ret stmts
        else
          stmt <- parseSmallStmt r ;;
          parseSimpleStmt_loop r n' (addToList r stmts stmt)
      else ret stmts
  end.

Definition parseSimpleStmt (r : Env) : M Stmt :=
  stmt <- parseSmallStmt r ;;
  nl <- maybeConsume TK_NEWLINE ;;
  if nl then ret stmt
  else
    stmts <- parseSimpleStmt_loop r (fuel r) (addToList r [] stmt) ;;
    matchOrSkipTo r TK_NEWLINE ;;;
    ret (Some (BlockStmtAst stmts)).

(** *** Compound statements *)

(** [while (!maybeConsume(TK_DEDENT) && ahead_ != TK_EOP)] of [parseSuite]. *)
Fixpoint parseSuite_loop (r : Env) (n : nat) (stmts : list Stmt)
  : M (list Stmt) :=
  match n with
  | O => outOfFuel
  | S n' =>
      dedent <- maybeConsume TK_DEDENT ;;
      a <- gets ahead_ ;;
      if negb dedent && negb (tok_eqb a TK_EOP) then
        stmt <- rec_parseStmt r ;;
        parseSuite_loop r n' (addToList r stmts stmt)
      else ret stmts
  end.

Definition parseSuite (r : Env) : M Stmt :=
  nl <- maybeConsume TK_NEWLINE ;;
  if negb nl then parseSimpleStmt r
  else
    match_ TK_INDENT ;;;
    stmt <- rec_parseStmt r ;;
    stmts <- parseSuite_loop r (fuel r) (addToList r [] stmt) ;;
    ret (Some (BlockStmtAst stmts)).

Definition parseIfElseIfStmt (r : Env) : M Stmt :=
  ifLoc <- gets lastLoc_ ;;
  expr <- rec_parseTest r ;;
  match_ TK_COLON ;;;
  then_ <- parseSuite r ;;
  elif <- maybeConsume TK_ELIF ;;
  if elif then
    elseLoc <- gets lastLoc_ ;;
    notThen <- rec_parseIfElseIfStmt r ;;
    ret (Some (IfStmtAst ifLoc expr then_ elseLoc notThen))
  else
    els <- maybeConsume TK_ELSE ;;
    if els then
      elseLoc <- gets lastLoc_ ;;
      match_ TK_COLON ;;;
      notThen <- parseSuite r ;;
      ret (Some (IfStmtAst ifLoc expr then_ elseLoc notThen))
    else ret (Some (IfStmtAst ifLoc expr then_ emptyLoc None)).

Definition parseIfStmt (r : Env) : M Stmt :=
  a <- gets ahead_ ;;
  if negb (tok_eqb a TK_IF) then ret None
  else
    match_ TK_IF ;;;
    parseIfElseIfStmt r.

(** The trailing [else] of [while] and [for]: parsed and dropped. *)
Definition parseLoopElse (r : Env) : M unit :=
  els <- maybeConsume TK_ELSE ;;
  if els then
    match_ TK_COLON ;;;
    parseSuite r ;;;
    ret tt
  else ret tt.

Definition parseWhileStmt (r : Env) : M Stmt :=
  a <- gets ahead_ ;;
  if negb (tok_eqb a TK_WHILE) then ret None
  else
    match_ TK_WHILE ;;;
    whileLoc <- gets lastLoc_ ;;
    expr <- rec_parseTest r ;;
    match_ TK_COLON ;;;
    stmt <- parseSuite r ;;
    parseLoopElse r ;;;
    ret (Some (WhileStmtAst whileLoc expr stmt)).

(** The range-for over the elements of an expression list that turns the
    identifier expressions into declarations: [continue] on any other
    kind, [addDecl]/[addBase] of a node around the released name
    otherwise.  [expr->kind()] dereferences the element. *)
Fixpoint identDecls_loop (r : Env) (wrap : Name -> DeclAst)
         (exprs : list Expr) (decls : list Decl) : M (list Decl) :=
  match exprs with
  | [] => ret decls
  | None :: _ => nullDeref
  | Some expr :: rest =>
      if negb (isIdentExpr expr) then identDecls_loop r wrap rest decls
      else
        let name := identName expr in
        identDecls_loop r wrap rest (addToList r decls (Some (wrap name)))
  end.

(** [for (auto expr : *exprs)]: [*exprs] dereferences the list. *)
Definition identDecls (r : Env) (wrap : Name -> DeclAst) (exprs : list Expr)
  : M (list Decl) :=
  match exprs with
  | [] => nullDeref
  | _ => identDecls_loop r wrap exprs []
  end.

Definition parseForStmt (r : Env) : M Stmt :=
  a <- gets ahead_ ;;
  if negb (tok_eqb a TK_FOR) then ret None
  else
    match_ TK_FOR ;;;
    (* Convert the exprs (when plain identifiers) into var decls. *)
    exprs <- parseExprList r ;;
    decls <- identDecls r VarDeclAst exprs ;;
    let group := VarGroupDeclAst emptyLoc decls in
    match_ TK_IN ;;;
    test <- parseTestList r ;;
    (* DESIGN: Extend ForeachStmtAst to allow exprs? For now, take the
       first one. *)
    let expr := match test with
                | [] => None
                | _ => releaseHead test
                end in
    match_ TK_COLON ;;;
    stmt <- parseSuite r ;;
    parseLoopElse r ;;;
    ret (Some (ForeachStmtAst (Some group) expr stmt)).

(** The pattern of an [except] clause, once [test] is parsed and non-null. *)
Definition parseCatchDecl (r : Env) (test : ExprAst) : M Decl :=
  let spec := if negb (isIdentExpr test)
              then None (* TODO: This is an error, right? *)
              else Some (NamedSpecAst (identName test)) in
  bind_ <- maybeConsume TK_AS ;;
  bind_ <- (if bind_ then ret true else maybeConsume TK_COMMA) ;;
  decls <-
    (if bind_ then
       ident <- rec_parseTest r ;;
       match ident with
       | Some i =>
           if negb (isIdentExpr i) then
             loc <- gets lastLoc_ ;;
             trackReport Diagnostic.NameRequired loc ;;;
             ret []
           else ret (addToList r [] (Some (ParamDeclAst (identName i))))
       | None => ret []
       end
     else ret []) ;;
  ret (Some (ParamGroupDeclAst spec decls)).

(** [case TK_CATCH] of [parseTryStmt]: the clause [trie->addCatch] is
    given. *)
Definition parseCatchClause (r : Env) : M StmtAst :=
  consumeToken ;;;
  keyLoc <- gets lastLoc_ ;;
  ok <- gets isTestAhead ;;
  decl <-
    (if ok then
       test <- rec_parseTest r ;;
       match test with
       | Some e => parseCatchDecl r e
       | None => ret None
       end
     else ret None) ;;
  match_ TK_COLON ;;;
  stmt <- parseSuite r ;;
  ret (CatchClauseStmtAst keyLoc decl stmt).

(** The [while (true)] of [parseTryStmt]; [catchs] are the clauses added to
    the statement so far. *)
Fixpoint parseTryStmt_loop (r : Env) (n : nat) (keyLoc : SourceLoc)
         (stmt : Stmt) (catchs : list Stmt) (seenElse : bool) : M Stmt :=
  match n with
  | O => outOfFuel
  | S n' =>
      a <- gets ahead_ ;;
      match a with
      | TK_CATCH =>
          catche <- parseCatchClause r ;;
          parseTryStmt_loop r n' keyLoc stmt
            (addToList r catchs (Some catche)) seenElse
      | TK_FINALLY =>
          consumeToken ;;;
          finLoc <- gets lastLoc_ ;;
          match_ TK_COLON ;;;
          body <- parseSuite r ;;
          ret (Some (TryStmtAst keyLoc stmt catchs
                                (Some (FinallyClauseStmtAst finLoc body))))
      | TK_ELSE =>
          seenElse' <-
            (if isNil catchs || seenElse then
               (* TODO: Once else is added to stmt, check against it (no
                  seenElse). *)
               failMatch true ;;;
               ret seenElse
             else
               consumeToken ;;;
               match_ TK_COLON ;;;
               (* DESIGN: ForeachStmtAst needs an else clause. *)
               parseSuite r ;;;
               ret true) ;;
          parseTryStmt_loop r n' keyLoc stmt catchs seenElse'
      | _ =>
          (* Check for 'except' only ('finally' always returns). *)
          (match catchs with
           | [] => failMatch true
           | _ => ret tt
           end) ;;;
          ret (Some (TryStmtAst keyLoc stmt catchs None))
      end
  end.

Definition parseTryStmt (r : Env) : M Stmt :=
  a <- gets ahead_ ;;
  if negb (tok_eqb a TK_TRY) then ret None
  else
    match_ TK_TRY ;;;
    keyLoc <- gets lastLoc_ ;;
    match_ TK_COLON ;;;
    stmt <- parseSuite r ;;
    parseTryStmt_loop r (fuel r) keyLoc stmt [] false.

Definition parseWithItem (r : Env) : M Expr :=
  test <- rec_parseTest r ;;
  alias <- maybeConsume TK_AS ;;
  if alias then
    oprLoc <- gets lastLoc_ ;;
    expr2 <- rec_parseExpr r ;;
    ret (Some (AssignExprAst oprLoc (addToList r [] test)
                             (addToList r [] expr2)))
  else ret test.

Definition parseWithStmt (r : Env) : M Stmt :=
  a <- gets ahead_ ;;
  if negb (tok_eqb a TK_WITH) then ret None
  else
    match_ TK_WITH ;;;
    keyLoc <- gets lastLoc_ ;;
    p <- parseList r TK_COMMA isTestAhead (parseWithItem r) false ;;
    let exprs := fst p in
    (match exprs with
     | [] => failMatch true
     | _ => ret tt
     end) ;;;
    match_ TK_COLON ;;;
    stmt <- parseSuite r ;;
    ret (Some (WithStmtAst keyLoc exprs stmt)).

Definition parseFuncDef (r : Env) : M Stmt :=
  a <- gets ahead_ ;;
  if negb (tok_eqb a TK_FUNC) then ret None
  else
    match_ TK_FUNC ;;;
    keyLoc <- gets lastLoc_ ;;
    name <- parseName ;;
    param <- parseVarArgsList r true ;;
    match_ TK_COLON ;;;
    lDelimLoc <- gets lastLoc_ ;;
    stmt <- parseSuite r ;;
    ret (Some (DeclStmtAst
                 (Some (FuncDeclAst name stmt
                                    (Some (FuncSpecAst keyLoc param lDelimLoc)))))).

Definition parseClassDef (r : Env) : M Stmt :=
  a <- gets ahead_ ;;
  if negb (tok_eqb a TK_CLASS) then ret None
  else
    match_ TK_CLASS ;;;
    keyLoc <- gets lastLoc_ ;;
    name <- parseName ;;
    paren <- maybeConsume TK_LPAREN ;;
    bases <-
      (if paren then
         bases <- parseTestList r ;;
         decls <- identDecls r BaseDeclAst bases ;;
         matchOrSkipTo r TK_RPAREN ;;;
         ret decls
       else ret []) ;;
    match_ TK_COLON ;;;
    lDelimLoc <- gets lastLoc_ ;;
    proto <- parseSuite r ;;
    ret (Some (DeclStmtAst
                 (Some (RecordDeclAst
                          name
                          (Some (RecordSpecAst keyLoc bases lDelimLoc proto)))))).

(** The [do ... while (maybeConsume(TK_AT_SYMBOL))] of [parseDecorated]. *)
Fixpoint parseDecorators_loop (r : Env) (n : nat) : M unit :=
  match n with
  | O => outOfFuel
  | S n' =>
      (* TODO: Work on decorators. *)
      parseDottedName r ;;;
      paren <- maybeConsume TK_LPAREN ;;
      (if paren then
         parseArgList r ;;;
         matchOrSkipTo r TK_RPAREN
       else ret tt) ;;;
      matchOrSkipTo r TK_NEWLINE ;;;
      more <- maybeConsume TK_AT_SYMBOL ;;
      if more then parseDecorators_loop r n'
      else ret tt
  end.

Definition parseDecorated (r : Env) : M Stmt :=
  a <- gets ahead_ ;;
  if negb (tok_eqb a TK_AT_SYMBOL) then ret None
  else
    match_ TK_AT_SYMBOL ;;;
    parseDecorators_loop r (fuel r) ;;;
    a <- gets ahead_ ;;
    match a with
    | TK_CLASS => parseClassDef r
    | TK_FUNC => parseFuncDef r
    | _ =>
        failMatch true ;;;
        ret None
    end.

Definition parseStmt (r : Env) : M Stmt :=
  a <- gets ahead_ ;;
  match a with
  | TK_PRINT | TK_DELETE | TK_PASS | TK_IMPORT | TK_GLOBAL | TK_EXEC
  | TK_ASSERT | TK_BREAK | TK_CONTINUE | TK_RETURN | TK_THROW | TK_YIELD =>
      parseSimpleStmt r
  | TK_IF => parseIfStmt r
  | TK_WHILE => parseWhileStmt r
  | TK_FOR => parseForStmt r
  | TK_TRY => parseTryStmt r
  | TK_WITH => parseWithStmt r
  | TK_FUNC => parseFuncDef r
  | TK_CLASS => parseClassDef r
  | TK_AT_SYMBOL => parseDecorated r
  | _ => parseSimpleStmt r
  end.

(** *** The whole parser *)

(** The environment whose member functions may call [n] levels deep and
    whose loops may take [n] turns. *)
Fixpoint knot (keep : bool) (n : nat) : Env :=
  match n with
  | O =>
      mkEnv keep 0 outOfFuel outOfFuel outOfFuel outOfFuel outOfFuel
            outOfFuel outOfFuel (fun _ => outOfFuel) outOfFuel outOfFuel
            (fun _ => outOfFuel) (fun _ => outOfFuel) (fun _ => outOfFuel)
            (fun _ => outOfFuel)
  | S n' =>
      let r := knot keep n' in
      mkEnv keep (S n')
            (parseStmt r) (parseIfElseIfStmt r) (parseTest r) (parseOldTest r)
            (parseOrTest r) (parseNotTest r) (parseExpr r) (parseBinaryExpr r)
            (parseFactor r) (parseStrLit r) (parseCompFor r) (parseCompIf r)
            (parseListFor r) (parseListIf r)
  end.

(** [context->takeAst(...)]. *)
Definition takeAst (root : ProgramAst) : M unit :=
  fun s => Ok tt (mk (lexer_ s)
                     (ParsingContext.takeAst root (context_ s))
                     (ahead_ s) (lastLoc_ s)).

(** The [while (ahead_ != TK_EOP)] of [parse]. *)
Fixpoint parse_loop (r : Env) (n : nat) (stmts : list Stmt) : M (list Stmt) :=
  a <- gets ahead_ ;;
  if negb (tok_eqb a TK_EOP) then
    match n with
    | O => outOfFuel
    | S n' =>
        nl <- maybeConsume TK_NEWLINE ;;
        if nl then parse_loop r n' stmts
        else
          stmt <- parseStmt r ;;
          parse_loop r n' (addToList r stmts stmt)
    end
  else ret stmts.

(** [lexer_ = lexer; context_ = context;] *)
Definition attached (self : t) (lexer : TokenSource.t)
           (context : ParsingContext.t) : t :=
  mk lexer context (ahead_ self) (lastLoc_ self).

(** [parse] on the parser object [self]; a null [lexer] or [context] is
    [None], and so is a null [context->fileName()]. *)
Definition parse (r : Env) (self : t) (lexer : option TokenSource.t)
           (context : option ParsingContext.t) : Res bool :=
  match lexer with
  | None => Ok false self
  | Some lexer =>
      match context with
      | None => Ok false self
      | Some context =>
          match ParsingContext.fileName context with
          | None => Ok false self
          | Some _ =>
              let self := attached self lexer context in
              (consumeToken ;;;
               stmts <- parse_loop r (fuel r) [] ;;
               match stmts with
               | [] => ret false
               | _ =>
                   let prog := mkProgram stmts in
                   takeAst prog ;;;
                   ret true
               end) self
          end
      end
  end.

(** A newly constructed parser: [ahead_ { TK_INVALID }], no lexer and no
    context yet. *)
Definition newParser : t :=
  mk (TokenSource.mk emptyLoc []) (ParsingContext.mk None [] None)
     TK_INVALID emptyLoc.

(** [parse] of a new parser on the tokens [tks] of the file [file], with
    bound [n]. *)
Definition parseTokens (keep : bool) (n : nat) (file : string)
           (tks : list Token) : Res bool :=
  parse (knot keep n) newParser (Some (TokenSource.ofTokens tks))
        (Some (ParsingContext.fresh file)).

(** *** Reading runs *)

(** The parser with its lexer and context set and the first token in
    [ahead_], as [parse] enters its loop. *)
Definition primed (file : string) (tks : list Token) : t :=
  match consumeToken (mk (TokenSource.ofTokens tks)
                         (ParsingContext.fresh file) TK_INVALID emptyLoc) with
  | Ok _ s => s
  | _ => newParser
  end.

(** The object after [consumeToken()], and after
    [context_->trackReport(kind, lastLoc_)]. *)
Definition consumed (s : t) : t :=
  match consumeToken s with
  | Ok _ s' => s'
  | _ => s
  end.

Definition reported (kind : Diagnostic.Kind) (s : t) : t :=
  mk (lexer_ s) (ParsingContext.trackReport kind (lastLoc_ s) (context_ s))
     (ahead_ s) (lastLoc_ s).

Definition valueOf {A} (x : Res A) : option A :=
  match x with
  | Ok a _ => Some a
  | _ => None
  end.

Definition stateOf {A} (x : Res A) : option t :=
  match x with
  | Ok _ s => Some s
  | _ => None
  end.

Definition reportsOf (s : t) : list (Diagnostic.Kind * SourceLoc) :=
  ParsingContext.reports (context_ s).

Definition astRootOf (s : t) : option ProgramAst :=
  ParsingContext.astRoot (context_ s).

(** The location [consumeToken] records for the [i]-th token of
    [primed file tks], and the identifier expression of a name there. *)
Definition tokAt (file : string) (i : nat) : SourceLoc :=
  mkSourceLoc file 1 i 1 i.

Definition identAt (file : string) (i : nat) : Expr :=
  Some (IdentExprAst (Some (SimpleNameAst (tokAt file i)))).

(** The two shapes a chain [first = rhs1 = rhs2 ...] can take.  In
    [rightChain] every right-hand side is the left side of the next
    assignment (the spec's reading); in [leftChain] the assignment built
    so far is. *)
Fixpoint rightChain (first : list Expr) (rest : list (SourceLoc * list Expr))
  : list Expr :=
  match rest with
  | [] => first
  | (oprLoc, rhs) :: rest' =>
      [Some (AssignExprAst oprLoc first (rightChain rhs rest'))]
  end.

Definition leftChain (first : list Expr) (rest : list (SourceLoc * list Expr))
  : list Expr :=
  fold_left (fun acc p => [Some (AssignExprAst (fst p) acc (snd p))])
            rest first.

(** The declarations the target list of a [for] gives: one per identifier
    expression, in order. *)
Definition identsOnly (wrap : Name -> DeclAst) (exprs : list ExprAst)
  : list Decl :=
  map (fun e => Some (wrap (identName e))) (filter isIdentExpr exprs).

(** [fetchPrecAhead()] when [ahead_] is [tk]. *)
Definition precOf (tk : Token) : Precedence * option BinaryKind :=
  fetchPrecAhead (mk (TokenSource.mk emptyLoc []) (ParsingContext.mk None [] None)
                     tk emptyLoc).

(** The parser on the line [NAME op1 NAME op2 NAME NEWLINE] of [file]. *)
Definition onChain (file : string) (op1 op2 : Token) : t :=
  primed file [TK_IDENTIFIER; op1; TK_IDENTIFIER; op2; TK_IDENTIFIER;
               TK_NEWLINE].

(** The two trees of a chain [a op1 b op2 c]. *)
Definition leftTree (k1 k2 : BinaryKind) (loc1 loc2 : SourceLoc)
           (a b c : Expr) : Expr :=
  Some (BinaryExprAst k2 loc2 (Some (BinaryExprAst k1 loc1 a b)) c).

Definition rightTree (k1 k2 : BinaryKind) (loc1 loc2 : SourceLoc)
           (a b c : Expr) : Expr :=
  Some (BinaryExprAst k1 loc1 a (Some (BinaryExprAst k2 loc2 b c))).

(** *** Relations the member functions keep *)

(** [m] keeps [R]: whenever it returns, the parser object it leaves is
    related by [R] to the one it found. *)
Definition Keeps (R : t -> t -> Prop) {A} (m : M A) : Prop :=
  forall s a s', m s = Ok a s' -> R s s'.

(** The recursive entries of an environment all keep [R]. *)
Record KeepsEnv (R : t -> t -> Prop) (r : Env) : Prop := {
  keeps_rec_parseStmt : Keeps R (rec_parseStmt r);
  keeps_rec_parseIfElseIfStmt : Keeps R (rec_parseIfElseIfStmt r);
  keeps_rec_parseTest : Keeps R (rec_parseTest r);
  keeps_rec_parseOldTest : Keeps R (rec_parseOldTest r);
  keeps_rec_parseOrTest : Keeps R (rec_parseOrTest r);
  keeps_rec_parseNotTest : Keeps R (rec_parseNotTest r);
  keeps_rec_parseExpr : Keeps R (rec_parseExpr r);
  keeps_rec_parseBinaryExpr : forall p, Keeps R (rec_parseBinaryExpr r p);
  keeps_rec_parseFactor : Keeps R (rec_parseFactor r);
  keeps_rec_parseStrLit : Keeps R (rec_parseStrLit r);
  keeps_rec_parseCompFor : forall lc, Keeps R (rec_parseCompFor r lc);
  keeps_rec_parseCompIf : forall lc, Keeps R (rec_parseCompIf r lc);
  keeps_rec_parseListFor : forall lc, Keeps R (rec_parseListFor r lc);
  keeps_rec_parseListIf : forall lc, Keeps R (rec_parseListIf r lc)
}.

(** The context holds the same root. *)
Definition sameRoot (s s' : t) : Prop := astRootOf s' = astRootOf s.

(** A run of the [while (ahead_ != TK_EOP)] of [parse] from [s]: the
    number of its turns, the results of its calls of [parseStmt()] in
    their order, and the parser object when [TK_EOP] is ahead.  A turn
    either consumes a [TK_NEWLINE] or calls [parseStmt()]. *)
Inductive runs (r : Env) : t -> nat -> list Stmt -> t -> Prop :=
| runs_end (s : t) :
    ahead_ s = TK_EOP -> runs r s 0 [] s
| runs_newline (s s' : t) (turns : nat) (results : list Stmt) :
    ahead_ s = TK_NEWLINE ->
    runs r (consumed s) turns results s' ->
    runs r s (S turns) results s'
| runs_stmt (s s1 s' : t) (turns : nat) (stmt : Stmt)
            (results : list Stmt) :
    ahead_ s <> TK_EOP -> ahead_ s <> TK_NEWLINE ->
    parseStmt r s = Ok stmt s1 ->
    runs r s1 turns results s' ->
    runs r s (S turns) (stmt :: results) s'.

(** The statements in the list of [parse] after [addToList] was given
    these results one by one. *)
Definition accepted (r : Env) (results : list Stmt) : list Stmt :=
  fold_left (addToList r) results [].

(** The results that are statements (not null). *)
Definition nonNull {A} (results : list (option A)) : list (option A) :=
  filter (fun x => match x with Some _ => true | None => false end) results.

(** The object [parse] leaves when its list holds [stmts]. *)
Definition handedOver (stmts : list Stmt) (s : t) : t :=
  mk (lexer_ s) (ParsingContext.takeAst (mkProgram stmts) (context_ s))
     (ahead_ s) (lastLoc_ s).

(** Every token still to come is a [TK_NEWLINE]. *)
Definition onlyNewlines (lexer : TokenSource.t) : Prop :=
  Forall (fun p => fst p = TK_NEWLINE) (TokenSource.pending lexer).

(** *** Independence of the bound *)

(** [m'] goes as [m] does wherever [m] does not run out of its bound. *)
Definition Refines {A} (m m' : M A) : Prop :=
  forall s, m s <> OutOfFuel -> m' s = m s.

(** [r'] is [r] with more room: the same parameter, a bound at least as
    large, and recursive entries that go as those of [r]. *)
Record RefinesEnv (r r' : Env) : Prop := {
  refines_keepNull : keepNull r' = keepNull r;
  refines_fuel : fuel r <= fuel r';
  refines_rec_parseStmt : Refines (rec_parseStmt r) (rec_parseStmt r');
  refines_rec_parseIfElseIfStmt :
    Refines (rec_parseIfElseIfStmt r) (rec_parseIfElseIfStmt r');
  refines_rec_parseTest : Refines (rec_parseTest r) (rec_parseTest r');
  refines_rec_parseOldTest :
    Refines (rec_parseOldTest r) (rec_parseOldTest r');
  refines_rec_parseOrTest : Refines (rec_parseOrTest r) (rec_parseOrTest r');
  refines_rec_parseNotTest :
    Refines (rec_parseNotTest r) (rec_parseNotTest r');
  refines_rec_parseExpr : Refines (rec_parseExpr r) (rec_parseExpr r');
  refines_rec_parseBinaryExpr :
    forall p, Refines (rec_parseBinaryExpr r p) (rec_parseBinaryExpr r' p);
  refines_rec_parseFactor : Refines (rec_parseFactor r) (rec_parseFactor r');
  refines_rec_parseStrLit : Refines (rec_parseStrLit r) (rec_parseStrLit r');
  refines_rec_parseCompFor :
    forall lc, Refines (rec_parseCompFor r lc) (rec_parseCompFor r' lc);
  refines_rec_parseCompIf :
    forall lc, Refines (rec_parseCompIf r lc) (rec_parseCompIf r' lc);
  refines_rec_parseListFor :
    forall lc, Refines (rec_parseListFor r lc) (rec_parseListFor r' lc);
  refines_rec_parseListIf :
    forall lc, Refines (rec_parseListIf r lc) (rec_parseListIf r' lc)
}.

(** *** What the member functions do to the context and to the lexer *)

(** The object after [k] calls of [consumeToken()]. *)
Fixpoint consumedTimes (k : nat) (s : t) : t :=
  match k with
  | O => s
  | S k' => consumedTimes k' (consumed s)
  end.

(** [skipTo(tk)] stops in [consumedTimes k s]: [tk] or [TK_EOP] is ahead
    there, and neither was ahead after fewer calls of [consumeToken()]. *)
Definition firstStop (tk : Token) (k : nat) (s : t) : Prop :=
  (ahead_ (consumedTimes k s) = tk \/ ahead_ (consumedTimes k s) = TK_EOP)
  /\ forall j, j < k ->
       ahead_ (consumedTimes j s) <> tk
       /\ ahead_ (consumedTimes j s) <> TK_EOP.

(** The context of [s'] is that of [s] with reports added at the end: the
    file name is the same and no report is dropped or changed. *)
Definition extends (s s' : t) : Prop :=
  ParsingContext.fileName (context_ s')
  = ParsingContext.fileName (context_ s)
  /\ exists more, reportsOf s' = reportsOf s ++ more.

(** The tokens still to come in [s'] are what is left of those of [s]
    after some of them were taken from the front; and from [TK_EOP] on the
    lexer is asked for nothing. *)
Definition drained (s s' : t) : Prop :=
  (exists k, TokenSource.pending (lexer_ s')
             = skipn k (TokenSource.pending (lexer_ s)))
  /\ (ahead_ s = TK_EOP ->
      lexer_ s' = lexer_ s /\ ahead_ s' = TK_EOP
      /\ lastLoc_ s' = lastLoc_ s).

(** The tokens after which the expression list of a [for] is over when
    they follow its first item: no trailer, no [**], no binary operator
    and no comma. *)
Definition endsExprList (s : t) : bool :=
  match ahead_ s with
  | TK_LPAREN | TK_LBRACKET | TK_DOT | TK_STAR_STAR | TK_COMMA => false
  | _ => (fst (fetchPrecAhead s) =? Zero)
  end.

(** The tokens after which a test list is over when they follow its first
    item: what ends an expression list and is no comparison operator, no
    [and], [or] or [if]. *)
Definition endsTestList (s : t) : bool :=
  match ahead_ s with
  | TK_LESS | TK_GREATER | TK_EQUAL_EQUAL | TK_GREATER_EQUAL
  | TK_LESS_EQUAL | TK_LESS_GREATER | TK_EXCLAM_EQUAL
  | TK_IN | TK_IS | TK_NOT | TK_AND | TK_OR | TK_IF => false
  | _ => endsExprList s
  end.

End PyParser.

(** * Properties *)

(** ** The lexing primitives *)

Module LexerFacts.
Import Lexer.
Local Open Scope Z_scope.

Lemma char_eqb_eq (a b : char) : char_eqb a b = true <-> a = b.
Proof. unfold char_eqb. apply Ascii.eqb_eq. Qed.

Lemma char_eqb_neq (a b : char) : char_eqb a b = false <-> a <> b.
Proof. unfold char_eqb. apply Ascii.eqb_neq. Qed.

Lemma addressable_bounds (l : t) :
  addressable l = true ->
  (0 <= buff_ l <= SIZE_MAX) /\ (0 <= curr_ l <= SIZE_MAX)
  /\ (0 <= eof_ l <= SIZE_MAX).
Proof.
  unfold addressable, isAddress. intros H.
  repeat (apply andb_true_iff in H; destruct H as [H ?]).
  repeat match goal with
         | X : (_ <=? _) = true |- _ => apply Z.leb_le in X
         end.
  lia.
Qed.

Lemma ptrAdd_within (w : bool) (p : Z) (d : N) :
  (w = true -> 0 <= p /\ p + Z.of_N d <= SIZE_MAX) ->
  ptrAdd w p d = p + Z.of_N d.
Proof.
  unfold ptrAdd. destruct w; intros H; [|reflexivity].
  destruct H as [H1 H2]; [reflexivity|]. apply Z.mod_small. lia.
Qed.

Lemma within_0 (l : t) : within l 0.
Proof.
  intros A. apply addressable_bounds in A. change (Z.of_N 0) with 0. lia.
Qed.

Lemma within_small (l : t) (dist : N) :
  curr_ l + Z.of_N dist <= SIZE_MAX -> within l dist.
Proof. intros H _. exact H. Qed.

(** Where the sum does not wrap, [peekChar] and [consumeChar] are what
    they are over the integers. *)
Lemma peekChar_within (l : t) (dist : N) :
  within l dist ->
  peekChar l dist
  = if curr_ l + Z.of_N dist >=? eof_ l then NUL
    else match load l (curr_ l + Z.of_N dist) with
         | Some c => c
         | None => NUL
         end.
Proof.
  intros W. unfold peekChar. cbv zeta. rewrite ptrAdd_within; [reflexivity|].
  intros A. split; [|now apply W]. apply addressable_bounds in A. lia.
Qed.

Lemma peekChar_beyond (l : t) (dist : N) :
  within l dist ->
  eof_ l <= curr_ l + Z.of_N dist -> peekChar l dist = NUL.
Proof.
  intros W H. rewrite peekChar_within by exact W.
  destruct (curr_ l + Z.of_N dist >=? eof_ l) eqn:E; [reflexivity|].
  rewrite Z.geb_leb in E. apply Z.leb_gt in E. lia.
Qed.

Lemma peekChar_nonzero_inside (l : t) (dist : N) :
  within l dist ->
  peekChar l dist <> NUL -> curr_ l + Z.of_N dist < eof_ l.
Proof.
  intros W H.
  destruct (Z_lt_le_dec (curr_ l + Z.of_N dist) (eof_ l)) as [|Hle];
    [assumption|].
  now apply (peekChar_beyond W) in Hle.
Qed.

Lemma load_inside (l : t) (p : Z) :
  readable l -> buff_ l <= p < eof_ l -> exists c, load l p = Some c.
Proof.
  unfold readable, load. intros Hr [Hlo Hhi].
  destruct (p <? buff_ l) eqn:E; [apply Z.ltb_lt in E; lia|].
  destruct (nth_error (memory l) (Z.to_nat (p - buff_ l))) as [c|] eqn:N.
  - now exists c.
  - apply nth_error_None in N. lia.
Qed.

Lemma consumeChar_moved (l : t) (dist : N) :
  within l dist ->
  peekChar l dist <> NUL ->
  consumeChar l dist =
    mk (memory l) (buff_ l) (curr_ l + 1 + Z.of_N dist) (eof_ l) (reports l).
Proof.
  intros W H. pose proof (peekChar_nonzero_inside W H) as Hin.
  unfold consumeChar.
  destruct (char_eqb (peekChar l dist) NUL) eqn:E;
    [now apply char_eqb_eq in E|].
  rewrite (@ptrAdd_within (addressable l) (curr_ l) 1).
  - rewrite ptrAdd_within; [reflexivity|].
    intros A. apply addressable_bounds in A. change (Z.of_N 1) with 1. lia.
  - intros A. apply addressable_bounds in A. change (Z.of_N 1) with 1. lia.
Qed.

Lemma consumeChar_stuck (l : t) (dist : N) :
  peekChar l dist = NUL -> consumeChar l dist = l.
Proof.
  intros H. unfold consumeChar. rewrite H.
  replace (char_eqb NUL NUL) with true; [reflexivity|].
  symmetry. now apply char_eqb_eq.
Qed.

Lemma consumeChar_cases (l : t) (dist : N) :
  within l dist ->
  (peekChar l dist = NUL /\ consumeChar l dist = l)
  \/ (peekChar l dist <> NUL
      /\ curr_ l + Z.of_N dist < eof_ l
      /\ consumeChar l dist =
           mk (memory l) (buff_ l) (curr_ l + 1 + Z.of_N dist) (eof_ l)
              (reports l)).
Proof.
  intros W. destruct (ascii_dec (peekChar l dist) NUL) as [E|E].
  - left. split; [assumption | now apply consumeChar_stuck].
  - right. repeat split; [assumption | now apply peekChar_nonzero_inside
                         | now apply consumeChar_moved].
Qed.

Lemma consumeChar_reports (l : t) (dist : N) :
  reports (consumeChar l dist) = reports l.
Proof.
  unfold consumeChar. destruct (char_eqb (peekChar l dist) NUL); reflexivity.
Qed.

Lemma consumeChar_eof (l : t) (dist : N) :
  eof_ (consumeChar l dist) = eof_ l.
Proof.
  unfold consumeChar. destruct (char_eqb (peekChar l dist) NUL); reflexivity.
Qed.

(** One [ch = consumeCharPeekNext()]: the end of the buffer stays, the
    cursor does not go back, and a non-zero [ch] means the cursor moved by
    one and is still before the end. *)
Lemma consumeCharPeekNext_progress (l l' : t) (c : char) :
  consumeCharPeekNext l 0 = (c, l') ->
  eof_ l' = eof_ l /\ reports l' = reports l /\ curr_ l <= curr_ l'
  /\ (c <> NUL -> curr_ l' = curr_ l + 1 /\ curr_ l' < eof_ l').
Proof.
  unfold consumeCharPeekNext. intros H. injection H as Hc Hl. subst l'.
  destruct (consumeChar_cases (within_0 l)) as [[Hz Hs]|[Hnz [Hin Hm]]].
  - rewrite Hs in *. split; [reflexivity|]. split; [reflexivity|].
    split; [lia|]. intros Hc'. congruence.
  - rewrite Hm in *. simpl. split; [reflexivity|]. split; [reflexivity|].
    split; [lia|]. intros Hc'. rewrite <- Hc in Hc'.
    apply (@peekChar_nonzero_inside _ 0 (within_0 _)) in Hc'.
    simpl in Hc'. lia.
Qed.

Lemma lexStrLit_loop_done (fuel : nat) (l : t) (ch quote : char) (mb : bool) :
  ch = NUL \/ ch = quote ->
  lexStrLit_loop fuel l ch quote mb = Some (ch, l).
Proof.
  intros H.
  assert (E : negb (char_eqb ch NUL) && negb (char_eqb ch quote) = false).
  { destruct H as [->| ->].
    - replace (char_eqb NUL NUL) with true by (symmetry; now apply char_eqb_eq).
      reflexivity.
    - replace (char_eqb quote quote) with true
        by (symmetry; now apply char_eqb_eq).
      apply andb_false_r. }
  destruct fuel; cbn [lexStrLit_loop]; rewrite E; reflexivity.
Qed.

Lemma lexStrLit_loop_total (fuel : nat) :
  forall (l : t) (ch quote : char) (mb : bool),
    (remaining l < fuel)%nat ->
    exists ch' l',
      lexStrLit_loop fuel l ch quote mb = Some (ch', l')
      /\ (ch' = NUL \/ ch' = quote)
      /\ reports l' = reports l.
Proof.
  induction fuel as [|fuel IH]; intros l ch quote mb Hf; [lia|].
  destruct (negb (char_eqb ch NUL) && negb (char_eqb ch quote)) eqn:E.
  - cbn [lexStrLit_loop]. rewrite E.
    match goal with
    | |- context [let '(_, _) := ?b in _] => destruct b as [ch1 l1] eqn:B
    end.
    assert (H1 : eof_ l1 = eof_ l /\ reports l1 = reports l
                 /\ curr_ l <= curr_ l1).
    { destruct (char_eqb ch backslash).
      - destruct (consumeCharPeekNext l 0) as [c l'] eqn:C.
        apply consumeCharPeekNext_progress in C.
        destruct (negb (iscntrl c) && negb (isprint c));
          injection B as <- <-; intuition.
      - destruct (char_eqb ch newline && negb mb);
          injection B as <- <-; repeat split; lia. }
    destruct (consumeCharPeekNext l1 0) as [ch2 l2] eqn:C2.
    apply consumeCharPeekNext_progress in C2.
    destruct H1 as [He1 [Hr1 Hc1]]. destruct C2 as [He2 [Hr2 [Hc2 Hnz]]].
    destruct (ascii_dec ch2 NUL) as [Z2|NZ2].
    + exists ch2, l2. rewrite lexStrLit_loop_done by (now left).
      repeat split; [now left | congruence].
    + destruct (Hnz NZ2) as [Hs Hlt].
      destruct (IH l2 ch2 quote mb) as [ch' [l' [R [Hq Hr]]]].
      { unfold remaining in *. lia. }
      exists ch', l'. repeat split; [assumption | assumption | congruence].
  - exists ch, l. cbn [lexStrLit_loop]. rewrite E. repeat split.
    apply andb_false_iff in E. destruct E as [E|E];
      apply negb_false_iff in E; apply char_eqb_eq in E; auto.
Qed.


Lemma lexNum_prefixed_reports (fuel : nat) (p : char -> bool) (l : t)
      (c : char) (l' : t) :
  consumeCharPeekNext l 0 = (c, l') -> p c = false ->
  prefixed fuel p l = Some (TK_INVALID, c, l') /\ reports l' = reports l.
Proof.
  intros C P. unfold prefixed. rewrite C, P. simpl. split; [reflexivity|].
  now apply consumeCharPeekNext_progress in C.
Qed.

(** A [0], a hex prefix and no hex digit: [TK_INVALID], and nothing reported
    (the same for the octal form; the binary form is only reached when the
    prefix is neither an octal nor a hex prefix). *)
Lemma lexNumLit_hex_no_digit (fuel : nat) (syntax : Syntax) (l l1 l2 : t)
      (c1 c2 : char) :
  consumeCharPeekNext l 0 = (c1, l1) ->
  isHexPrefix syntax c1 = true ->
  consumeCharPeekNext l1 0 = (c2, l2) ->
  isxdigit c2 = false ->
  lexNumLit fuel l "0"%char syntax = Some (TK_INVALID, c2, l2)
  /\ reports l2 = reports l.
Proof.
  intros C1 Hx C2 Hd.
  assert (Ho : isOctDigit c2 = false).
  { unfold isOctDigit. unfold isxdigit, isdigit in Hd.
    apply orb_false_iff in Hd. destruct Hd as [Hd _].
    apply orb_false_iff in Hd. destruct Hd as [Hd _].
    apply andb_false_iff in Hd. apply andb_false_iff.
    change (code "0"%char) with 48%N. change (code "8"%char) with 56%N.
    destruct Hd as [Hd|Hd]; [now left|right].
    apply N.leb_gt in Hd. apply N.ltb_ge. lia. }
  pose proof (consumeCharPeekNext_progress C1) as [_ [R1 _]].
  unfold lexNumLit.
  change (negb (isdigit "0"%char || char_eqb "0"%char "."%char)) with false.
  change (char_eqb "0"%char "0"%char) with true. cbv iota. rewrite C1.
  destruct (isOctalPrefix syntax c1).
  - destruct (lexNum_prefixed_reports fuel isOctDigit C2 Ho) as [-> R2].
    split; [reflexivity | congruence].
  - rewrite Hx.
    destruct (lexNum_prefixed_reports fuel isxdigit C2 Hd) as [-> R2].
    split; [reflexivity | congruence].
Qed.

(** C7, as the spec words it, fails where [size_t] wraps.  With a length
    of [SIZE_MAX], [setBuffer] leaves [eof_] one byte before [buff_]; and
    with [dist = SIZE_MAX - 1], [peekChar] reads the byte two before the
    one asked for, so that [consumeChar] moves the cursor, and moves it
    back, although no character exists [dist] positions ahead. *)
Lemma cursor_invariant_wraps :
  ~ (forall (l : t) (buff : Z) (bytes : list char) (length : N),
       cursor_inv (setBuffer l buff bytes length))
  /\ ~ (forall (l : t) (dist : N),
          cursor_inv l -> curr_ l <= curr_ (consumeChar l dist))
  /\ ~ (forall (l : t) (dist : N),
          cursor_inv l -> eof_ l <= curr_ l + Z.of_N dist ->
          consumeChar l dist = l).
Proof.
  split; [|split].
  - intros H.
    specialize (H (onString 4096 "abc") 4096 (list_ascii_of_string "abc")
                  (Z.to_N SIZE_MAX)).
    unfold cursor_inv in H. vm_compute in H. destruct H as [_ H].
    now apply H.
  - intros H.
    specialize (H (consumeChar (consumeChar (onString 4096 "abc") 0) 0)
                  (Z.to_N (SIZE_MAX - 1))).
    unfold cursor_inv in H. vm_compute in H. apply H; [|reflexivity].
    split; discriminate.
  - intros H.
    specialize (H (consumeChar (consumeChar (onString 4096 "abc") 0) 0)
                  (Z.to_N (SIZE_MAX - 1))).
    unfold cursor_inv in H. vm_compute in H.
    assert (E : mk (list_ascii_of_string "abc") 4096 4097 4099 []
                = mk (list_ascii_of_string "abc") 4096 4098 4099 []).
    { apply H; [split; discriminate|discriminate]. }
    discriminate E.
Qed.

(** C7, amended: where [buff + length] and [curr_ + dist] do not exceed
    [SIZE_MAX], [setBuffer] establishes [buff_ <= curr_ <= eof_];
    [consumeChar] and [consumeCharPeekNext] keep it, never move the cursor
    back or past [eof_], and leave the lexer as it is when the character
    to consume does not exist; the peek of [consumeCharPeekNext] adds no
    movement. *)
Theorem cursor_invariant (l : t) (buff : Z) (bytes : list char)
        (length dist : N) :
  buff + Z.of_N length <= SIZE_MAX ->
  curr_ l + Z.of_N dist <= SIZE_MAX ->
  cursor_inv (setBuffer l buff bytes length)
  /\ (cursor_inv l ->
      cursor_inv (consumeChar l dist)
      /\ cursor_inv (snd (consumeCharPeekNext l dist))
      /\ curr_ l <= curr_ (consumeChar l dist) <= eof_ l
      /\ buff_ (consumeChar l dist) = buff_ l
      /\ eof_ (consumeChar l dist) = eof_ l)
  /\ (peekChar l dist = NUL -> consumeChar l dist = l)
  /\ (eof_ l <= curr_ l + Z.of_N dist -> consumeChar l dist = l)
  /\ snd (consumeCharPeekNext l dist) = consumeChar l dist.
Proof.
  intros Hb Hd. pose proof (within_small l dist Hd) as W.
  split; [|split; [|split; [|split]]].
  - unfold cursor_inv, setBuffer. cbn [buff_ curr_ eof_].
    rewrite ptrAdd_within; [lia|].
    unfold isAddress. intros A. apply andb_true_iff in A.
    destruct A as [A _]. apply Z.leb_le in A. lia.
  - unfold cursor_inv. intros [Hlo Hhi]. cbn [consumeCharPeekNext snd].
    destruct (consumeChar_cases W) as [[_ ->]|[_ [Hin ->]]]; simpl; lia.
  - apply consumeChar_stuck.
  - intros H. apply consumeChar_stuck. now apply peekChar_beyond.
  - reflexivity.
Qed.

Lemma cursor_invariant_witness :
  cursor_inv (consumeChar (onString 4096 "ab") 0)
  /\ consumeChar (consumeChar (consumeChar (onString 4096 "ab") 0) 0) 0
     = consumeChar (consumeChar (onString 4096 "ab") 0) 0.
Proof.
  split.
  - destruct (@cursor_invariant (onString 4096 "ab") 0 [] 0 0)
      as [_ [H _]]; [vm_compute; discriminate|vm_compute; discriminate|].
    apply H. unfold cursor_inv. vm_compute. split; discriminate.
  - destruct (@cursor_invariant
                (consumeChar (consumeChar (onString 4096 "ab") 0) 0) 0 [] 0 0)
      as [_ [_ [H _]]]; [vm_compute; discriminate|vm_compute; discriminate|].
    apply H. reflexivity.
Defined.

(** C8, as the spec words it, fails where [size_t] wraps: with the cursor
    on the second byte and [dist = SIZE_MAX], [curr_ + dist] is the
    address of the first byte, [peekChar] returns that byte although no
    character exists [dist] positions ahead, and [consumeChar] then leaves
    the cursor where it was. *)
Lemma peekChar_wraps :
  ~ (forall (l : t) (dist : N),
       eof_ l <= curr_ l + Z.of_N dist -> peekChar l dist = NUL)
  /\ ~ (forall (l : t) (dist : N),
          peekChar l dist <> NUL ->
          curr_ (consumeChar l dist) = curr_ l + (1 + Z.of_N dist)).
Proof.
  split.
  - intros H.
    specialize (H (consumeChar (onString 4096 "abc") 0) (Z.to_N SIZE_MAX)).
    vm_compute in H. discriminate H. discriminate.
  - intros H.
    specialize (H (consumeChar (onString 4096 "abc") 0) (Z.to_N SIZE_MAX)).
    vm_compute in H. discriminate H. discriminate.
Qed.

(** C8, amended: where [curr_ + dist] does not exceed [SIZE_MAX],
    [peekChar] before [eof_] reads inside the buffer and returns the byte
    [dist] positions ahead, from [eof_] on it returns the 0 sentinel; and
    when [peekChar(dist)] is non-zero, [consumeChar(dist)] advances the
    cursor by exactly [1 + dist]. *)
Theorem peekChar_consumeChar (l : t) (dist : N) :
  curr_ l + Z.of_N dist <= SIZE_MAX ->
  (cursor_inv l -> readable l -> curr_ l + Z.of_N dist < eof_ l ->
   load l (curr_ l + Z.of_N dist) = Some (peekChar l dist))
  /\ (eof_ l <= curr_ l + Z.of_N dist -> peekChar l dist = NUL)
  /\ (peekChar l dist <> NUL ->
      curr_ (consumeChar l dist) = curr_ l + (1 + Z.of_N dist)).
Proof.
  intros Hd. pose proof (within_small l dist Hd) as W.
  split; [|split].
  - intros [Hlo Hhi] Hr Hin.
    assert (Hp : buff_ l <= curr_ l + Z.of_N dist < eof_ l) by lia.
    destruct (load_inside Hr Hp) as [c Hc].
    rewrite peekChar_within by exact W. rewrite Hc.
    destruct (curr_ l + Z.of_N dist >=? eof_ l) eqn:E; [|reflexivity].
    rewrite Z.geb_leb in E. apply Z.leb_le in E. lia.
  - now apply peekChar_beyond.
  - intros H. rewrite consumeChar_moved by assumption. cbn [curr_]. lia.
Qed.

Lemma peekChar_consumeChar_witness :
  load (onString 4096 "abc") 4098 = Some "c"%char
  /\ peekChar (onString 4096 "abc") 3 = NUL
  /\ curr_ (consumeChar (onString 4096 "abc") 2) = 4099.
Proof.
  split; [|split].
  - destruct (@peekChar_consumeChar (onString 4096 "abc") 2) as [H _];
      [vm_compute; discriminate|].
    apply H.
    + unfold cursor_inv. vm_compute. split; discriminate.
    + unfold readable. vm_compute. discriminate.
    + vm_compute. reflexivity.
  - destruct (@peekChar_consumeChar (onString 4096 "abc") 3) as [_ [H _]];
      [vm_compute; discriminate|].
    apply H. vm_compute. discriminate.
  - destruct (@peekChar_consumeChar (onString 4096 "abc") 2) as [_ [_ H]];
      [vm_compute; discriminate|].
    apply H. vm_compute. discriminate.
Defined.

(** C9: on every lexer state and for every [ch], [quote] and [mayBreak],
    [lexStrLit] returns once the bound exceeds the bytes left in the
    buffer, and what it returns is [TK_STRING_LITERAL], with [ch] left at
    the closing quote or at the 0 sentinel of an exhausted buffer: the
    token kind does not tell the two apart. *)
Theorem lexStrLit_terminates (fuel : nat) (l : t) (ch quote : char)
        (mayBreak : bool) (syntax : Syntax) :
  (remaining l < fuel)%nat ->
  exists ch' l',
    lexStrLit fuel l ch quote mayBreak syntax
      = Some (TK_STRING_LITERAL, ch', l')
    /\ (ch' = NUL \/ ch' = quote).
Proof.
  intros Hf.
  destruct (@lexStrLit_loop_total fuel l ch quote mayBreak Hf)
    as [ch' [l' [R [Hq _]]]].
  exists ch', l'. unfold lexStrLit. rewrite R. now split.
Qed.

Lemma lexStrLit_terminates_witness :
  (exists ch' l',
     lexStrLit 4 (onString 0 "abc") "a"%char "'"%char false sampleSyntax
       = Some (TK_STRING_LITERAL, ch', l')
     /\ (ch' = NUL \/ ch' = "'"%char))
  /\ lexStrLit 4 (onString 0 "abc") "a"%char "'"%char false sampleSyntax
     = Some (TK_STRING_LITERAL, NUL, mk (list_ascii_of_string "abc") 0 3 3 []).
Proof.
  split.
  - apply lexStrLit_terminates. vm_compute. lia.
  - reflexivity.
Defined.

(** C4, on the code: the escape of a byte that is neither a control nor a
    printable character, and a bare newline with [mayBreak] false, both
    come back as [TK_STRING_LITERAL] with nothing reported: the two error
    branches of [lexStrLit] are empty. *)
Theorem lexStrLit_reports_nothing :
  iscntrl (ascii_of_N 200) = false /\ isprint (ascii_of_N 200) = false
  /\ lexStrLit 8 (onBytes 0 [backslash; ascii_of_N 200; "'"%char]) backslash
               "'"%char false sampleSyntax
     = Some (TK_STRING_LITERAL, "'"%char,
             mk [backslash; ascii_of_N 200; "'"%char] 0 2 3 [])
  /\ lexStrLit 8 (onBytes 0 ["a"%char; newline; "b"%char; "'"%char]) "a"%char
               "'"%char false sampleSyntax
     = Some (TK_STRING_LITERAL, "'"%char,
             mk ["a"%char; newline; "b"%char; "'"%char] 0 3 4 []).
Proof. repeat split. Qed.

(** C5, on the code: [0x], [0o] and [0b] with no digit of the kind after
    the prefix come back as [TK_INVALID], with nothing reported. *)
Theorem lexNumLit_prefix_without_digit :
  lexNumLit 8 (onString 0 "0xg") "0"%char sampleSyntax
  = Some (TK_INVALID, "g"%char, mk (list_ascii_of_string "0xg") 0 2 3 [])
  /\ lexNumLit 8 (onString 0 "0x") "0"%char sampleSyntax
     = Some (TK_INVALID, NUL, mk (list_ascii_of_string "0x") 0 2 2 [])
  /\ lexNumLit 8 (onString 0 "0o8") "0"%char sampleSyntax
     = Some (TK_INVALID, "8"%char, mk (list_ascii_of_string "0o8") 0 2 3 [])
  /\ lexNumLit 8 (onString 0 "0b2") "0"%char sampleSyntax
     = Some (TK_INVALID, "2"%char, mk (list_ascii_of_string "0b2") 0 2 3 []).
Proof. repeat split. Qed.

(** *** The sub-lexers on a buffer seen from the cursor *)

Lemma char_eqb_refl (c : char) : char_eqb c c = true.
Proof. now apply char_eqb_eq. Qed.

Lemma load_between (base : Z) (pre suf : list char)
      (reps : list Diagnostic.Kind) (c : char) :
  load (between base pre (c :: suf) reps)
       (curr_ (between base pre (c :: suf) reps)) = Some c.
Proof.
  unfold load, between. cbn [buff_ curr_ memory].
  destruct (base + Z.of_nat (List.length pre) <? base) eqn:E;
    [apply Z.ltb_lt in E; lia|].
  replace (Z.to_nat (base + Z.of_nat (List.length pre) - base))
    with (List.length pre) by lia.
  rewrite nth_error_app2 by lia. now rewrite Nat.sub_diag.
Qed.

Lemma peekChar_between (base : Z) (pre suf : list char)
      (reps : list Diagnostic.Kind) :
  peekChar (between base pre suf reps) 0 = headOr suf.
Proof.
  destruct suf as [|c suf].
  - apply peekChar_beyond; [apply within_0|]. unfold between.
    cbn [curr_ eof_]. rewrite app_nil_r. lia.
  - rewrite peekChar_within by apply within_0.
    change (Z.of_N 0) with 0. rewrite Z.add_0_r.
    rewrite load_between.
    destruct (curr_ (between base pre (c :: suf) reps)
              >=? eof_ (between base pre (c :: suf) reps)) eqn:E;
      [|reflexivity].
    rewrite Z.geb_leb in E. apply Z.leb_le in E.
    unfold between in E. cbn [curr_ eof_] in E.
    rewrite length_app in E. cbn [List.length] in E. lia.
Qed.

Lemma between_snoc (base : Z) (pre suf : list char)
      (reps : list Diagnostic.Kind) (c : char) :
  between base (pre ++ [c]) suf reps
  = mk (pre ++ c :: suf) base (base + Z.of_nat (List.length pre) + 1)
       (base + Z.of_nat (List.length (pre ++ c :: suf))) reps.
Proof.
  unfold between. rewrite <- app_assoc. cbn [app].
  rewrite length_app. cbn [List.length]. f_equal. lia.
Qed.

(** One [ch = consumeCharPeekNext()] with the cursor on a non-zero byte. *)
Lemma consumeCharPeekNext_between (base : Z) (pre suf : list char)
      (reps : list Diagnostic.Kind) (c : char) :
  c <> NUL ->
  consumeCharPeekNext (between base pre (c :: suf) reps) 0
  = (headOr suf, between base (pre ++ [c]) suf reps).
Proof.
  intros Hc. unfold consumeCharPeekNext. cbv zeta.
  assert (E : consumeChar (between base pre (c :: suf) reps) 0
              = between base (pre ++ [c]) suf reps).
  { rewrite (@consumeChar_moved _ 0 (within_0 _))
      by (rewrite peekChar_between; exact Hc).
    rewrite between_snoc. unfold between. cbn [memory buff_ curr_ eof_ reports].
    change (Z.of_N 0) with 0. f_equal. lia. }
  rewrite E. now rewrite peekChar_between.
Qed.

(** The same at the end of the buffer, or on a zero byte: nothing moves. *)
Lemma consumeCharPeekNext_stuck (l : t) :
  peekChar l 0 = NUL -> consumeCharPeekNext l 0 = (NUL, l).
Proof.
  intros H. unfold consumeCharPeekNext. cbv zeta.
  rewrite consumeChar_stuck by exact H. now rewrite H.
Qed.

Lemma between_app (base : Z) (pre cs suf : list char)
      (reps : list Diagnostic.Kind) (c : char) :
  between base ((pre ++ [c]) ++ cs) suf reps
  = between base (pre ++ c :: cs) suf reps.
Proof. now rewrite <- app_assoc. Qed.

(** **** Identifiers *)

Lemma lexIdent_loop_munch (syntax : Syntax) (base : Z)
      (reps : list Diagnostic.Kind) (suf : list char) :
  isIdentChar syntax NUL = false ->
  isIdentChar syntax (headOr suf) = false ->
  forall (cs pre : list char) (fuel : nat),
    forallb (isIdentChar syntax) cs = true ->
    (List.length cs <= fuel)%nat ->
    lexIdent_loop fuel syntax (between base pre (cs ++ suf) reps)
                  (headOr (cs ++ suf))
    = Some (headOr suf, between base (pre ++ cs) suf reps).
Proof.
  intros H0 Hs. induction cs as [|c cs IH]; intros pre fuel Hcs Hf.
  - cbn [app]. rewrite app_nil_r.
    destruct fuel; cbn [lexIdent_loop]; now rewrite Hs.
  - cbn [forallb] in Hcs. apply andb_true_iff in Hcs. destruct Hcs as [Hc Hcs].
    destruct fuel as [|fuel]; [cbn [List.length] in Hf; lia|].
    cbn [app headOr lexIdent_loop]. rewrite Hc.
    assert (Hn : c <> NUL) by (intros ->; congruence).
    rewrite consumeCharPeekNext_between by exact Hn.
    rewrite IH; [|exact Hcs|cbn [List.length] in Hf; lia].
    now rewrite between_app.
Qed.

Lemma slice_between (base : Z) (pre cs suf : list char)
      (reps : list Diagnostic.Kind) :
  slice (between base (pre ++ cs) suf reps)
        (base + Z.of_nat (List.length pre))
        (curr_ (between base (pre ++ cs) suf reps)) = cs.
Proof.
  unfold slice, between. cbn [memory buff_ curr_].
  replace (Z.to_nat (base + Z.of_nat (List.length pre) - base))
    with (List.length pre) by lia.
  replace (Z.to_nat (base + Z.of_nat (List.length (pre ++ cs))
                     - (base + Z.of_nat (List.length pre))))
    with (List.length cs) by (rewrite length_app; lia).
  rewrite <- app_assoc. rewrite skipn_app, skipn_all, Nat.sub_diag.
  cbn [app skipn]. rewrite firstn_app, firstn_all, Nat.sub_diag.
  cbn [firstn]. now rewrite app_nil_r.
Qed.

(** X1: when [ch] starts an identifier, the loop of [lexIdentOrKeyword]
    takes the longest run of identifier characters, the token is what
    [classifyIdent] makes of exactly those characters, and [ch] and the
    cursor are left on the first character after them. *)
Theorem lexIdentOrKeyword_munch (syntax : Syntax) (base : Z)
        (reps : list Diagnostic.Kind) (pre cs suf : list char) (c : char)
        (fuel : nat) :
  isIdentChar syntax NUL = false ->
  c <> NUL ->
  isIdentFirstChar syntax c = true ->
  forallb (isIdentChar syntax) cs = true ->
  isIdentChar syntax (headOr suf) = false ->
  (List.length cs <= fuel)%nat ->
  lexIdentOrKeyword fuel (between base pre (c :: cs ++ suf) reps) c syntax
  = Some (classifyIdent syntax (c :: cs), headOr suf,
          between base (pre ++ c :: cs) suf reps).
Proof.
  intros H0 Hn Hc Hcs Hs Hf. unfold lexIdentOrKeyword. rewrite Hc.
  cbn [negb]. cbv zeta.
  rewrite consumeCharPeekNext_between by exact Hn.
  rewrite (@lexIdent_loop_munch syntax base reps suf H0 Hs cs (pre ++ [c])
                                fuel Hcs Hf).
  rewrite between_app.
  change (curr_ (between base pre (c :: cs ++ suf) reps))
    with (base + Z.of_nat (List.length pre)).
  now rewrite slice_between.
Qed.

Lemma lexIdentOrKeyword_munch_witness :
  lexIdentOrKeyword 3 (between 4096 [" "%char] (list_ascii_of_string "if_1(x")
                               [])
                    "i"%char sampleSyntax
  = Some (TK_IDENTIFIER, "("%char,
          between 4096 (" "%char :: list_ascii_of_string "if_1")
                  (list_ascii_of_string "(x") []).
Proof.
  apply (@lexIdentOrKeyword_munch sampleSyntax 4096 [] [" "%char]
           (list_ascii_of_string "f_1") (list_ascii_of_string "(x")
           "i"%char 3);
    first [reflexivity | discriminate | simpl; lia].
Defined.

Lemma lexIdent_loop_stuck (syntax : Syntax) (base : Z)
      (reps : list Diagnostic.Kind) :
  isIdentChar syntax NUL = true ->
  forall (fuel : nat) (cs pre : list char) (ch : char),
    isIdentChar syntax ch = true ->
    forallb (isIdentChar syntax) cs = true ->
    lexIdent_loop fuel syntax (between base pre cs reps) ch = None.
Proof.
  intros H0. induction fuel as [|fuel IH]; intros cs pre ch Hch Hcs;
    cbn [lexIdent_loop]; rewrite Hch; [reflexivity|].
  destruct cs as [|c cs].
  - rewrite consumeCharPeekNext_stuck by (now rewrite peekChar_between).
    now apply IH.
  - destruct (ascii_dec c NUL) as [->|Hn].
    + rewrite consumeCharPeekNext_stuck by (now rewrite peekChar_between).
      now apply IH.
    + rewrite consumeCharPeekNext_between by exact Hn.
      cbn [forallb] in Hcs. apply andb_true_iff in Hcs.
      destruct Hcs as [_ Hcs]. apply IH; [|exact Hcs].
      destruct cs as [|c' cs]; [exact H0|].
      cbn [forallb] in Hcs. apply andb_true_iff in Hcs. now destruct Hcs.
Qed.

(** X2: with a syntax that takes the 0 sentinel for an identifier
    character, an identifier that runs to the end of the buffer is never
    lexed: the loop of [lexIdentOrKeyword] goes on without moving, whatever
    the bound. *)
Theorem lexIdentOrKeyword_never_returns (syntax : Syntax) (base : Z)
        (reps : list Diagnostic.Kind) (pre cs : list char) (c : char)
        (fuel : nat) :
  isIdentChar syntax NUL = true ->
  isIdentFirstChar syntax c = true ->
  forallb (isIdentChar syntax) cs = true ->
  lexIdentOrKeyword fuel (between base pre (c :: cs) reps) c syntax = None.
Proof.
  intros H0 Hc Hcs. unfold lexIdentOrKeyword. rewrite Hc. cbn [negb].
  cbv zeta.
  destruct (ascii_dec c NUL) as [->|Hn].
  - rewrite consumeCharPeekNext_stuck by (now rewrite peekChar_between).
    rewrite lexIdent_loop_stuck; [reflexivity|exact H0|exact H0|].
    cbn [forallb]. now rewrite H0, Hcs.
  - rewrite consumeCharPeekNext_between by exact Hn.
    rewrite lexIdent_loop_stuck; [reflexivity|exact H0| |exact Hcs].
    destruct cs as [|c' cs]; [exact H0|].
    cbn [forallb] in Hcs. apply andb_true_iff in Hcs. now destruct Hcs.
Qed.

Lemma lexIdentOrKeyword_never_returns_witness :
  lexIdentOrKeyword 1000 (between 0 [] (list_ascii_of_string "abc") [])
                    "a"%char looseSyntax = None.
Proof.
  apply (@lexIdentOrKeyword_never_returns looseSyntax 0 [] []
           (list_ascii_of_string "bc") "a"%char 1000); reflexivity.
Defined.

(** **** What the sub-lexers leave alone *)

Lemma advanced_refl (l : t) : advanced l l.
Proof. unfold advanced. repeat split; lia. Qed.

Lemma advanced_trans (l1 l2 l3 : t) :
  advanced l1 l2 -> advanced l2 l3 -> advanced l1 l3.
Proof.
  unfold advanced.
  intros [M1 [B1 [E1 [R1 [C1 F1]]]]] [M2 [B2 [E2 [R2 [C2 F2]]]]].
  repeat split; try congruence; lia.
Qed.

Lemma consumeChar_advanced (l : t) : advanced l (consumeChar l 0).
Proof.
  destruct (consumeChar_cases (within_0 l)) as [[_ ->]|[_ [Hin ->]]];
    [apply advanced_refl|].
  unfold advanced. cbn [memory buff_ curr_ eof_ reports].
  change (Z.of_N 0) with 0 in *. repeat split; lia.
Qed.

Lemma consumeCharPeekNext_advanced (l l' : t) (c : char) :
  consumeCharPeekNext l 0 = (c, l') -> advanced l l'.
Proof.
  unfold consumeCharPeekNext. intros H. injection H as _ <-.
  apply consumeChar_advanced.
Qed.

(** A non-zero [ch] from [consumeCharPeekNext] leaves fewer bytes. *)
Lemma consumeCharPeekNext_fewer (l l' : t) (c : char) :
  consumeCharPeekNext l 0 = (c, l') ->
  (remaining l' <= remaining l)%nat
  /\ (c <> NUL -> (remaining l' < remaining l)%nat /\ curr_ l' < eof_ l').
Proof.
  intros H. apply consumeCharPeekNext_progress in H.
  destruct H as [He [_ [Hc Hnz]]]. unfold remaining. split; [lia|].
  intros Hn. destruct (Hnz Hn). lia.
Qed.

Lemma lexStrLit_loop_advanced (fuel : nat) :
  forall (l l' : t) (ch ch' quote : char) (mb : bool),
    lexStrLit_loop fuel l ch quote mb = Some (ch', l') -> advanced l l'.
Proof.
  induction fuel as [|fuel IH]; intros l l' ch ch' quote mb;
    cbn [lexStrLit_loop];
    destruct (negb (char_eqb ch NUL) && negb (char_eqb ch quote));
    try discriminate;
    try (intros H; injection H as _ <-; apply advanced_refl).
  match goal with
  | |- context [let '(_, _) := ?b in _] => destruct b as [ch1 l1] eqn:B
  end.
  assert (A1 : advanced l l1).
  { destruct (char_eqb ch backslash).
    - destruct (consumeCharPeekNext l 0) as [c l0] eqn:C.
      apply consumeCharPeekNext_advanced in C.
      destruct (negb (iscntrl c) && negb (isprint c));
        injection B as _ <-; exact C.
    - destruct (char_eqb ch newline && negb mb);
        injection B as _ <-; apply advanced_refl. }
  destruct (consumeCharPeekNext l1 0) as [ch2 l2] eqn:C2.
  apply consumeCharPeekNext_advanced in C2. intros H. apply IH in H.
  eapply advanced_trans; [exact A1|].
  eapply advanced_trans; [exact C2|exact H].
Qed.

Lemma lexIdent_loop_advanced (syntax : Syntax) (fuel : nat) :
  forall (l l' : t) (ch ch' : char),
    lexIdent_loop fuel syntax l ch = Some (ch', l') ->
    advanced l l' /\ isIdentChar syntax ch' = false.
Proof.
  induction fuel as [|fuel IH]; intros l l' ch ch'; cbn [lexIdent_loop];
    destruct (isIdentChar syntax ch) eqn:E; try discriminate;
    try (intros H; injection H as <- <-; split;
         [apply advanced_refl|exact E]).
  destruct (consumeCharPeekNext l 0) as [c1 l1] eqn:C.
  apply consumeCharPeekNext_advanced in C. intros H. apply IH in H.
  destruct H as [H1 H2]. split; [|exact H2].
  eapply advanced_trans; [exact C|exact H1].
Qed.

Lemma lexDigits_loop_advanced (p : char -> bool) (fuel : nat) :
  forall (l l' : t) (ch ch' : char),
    lexDigits_loop fuel p l ch = Some (ch', l') -> advanced l l'.
Proof.
  induction fuel as [|fuel IH]; intros l l' ch ch'; cbn [lexDigits_loop];
    destruct (negb (char_eqb ch NUL) && p ch); try discriminate;
    try (intros H; injection H as _ <-; apply advanced_refl).
  destruct (consumeCharPeekNext l 0) as [c1 l1] eqn:C.
  apply consumeCharPeekNext_advanced in C. intros H. apply IH in H.
  eapply advanced_trans; [exact C|exact H].
Qed.

Lemma prefixed_advanced (p : char -> bool) (fuel : nat) (l l' : t)
      (tk : Token) (ch' : char) :
  prefixed fuel p l = Some (tk, ch', l') ->
  advanced l l' /\ (tk = TK_INVALID \/ tk = TK_INTEGER_LITERAL).
Proof.
  unfold prefixed. destruct (consumeCharPeekNext l 0) as [c1 l1] eqn:C.
  apply consumeCharPeekNext_advanced in C.
  destruct (negb (p c1)).
  - intros H. injection H as <- _ <-. split; [exact C|now left].
  - destruct (lexDigits_loop fuel p l1 c1) as [[c2 l2]|] eqn:D;
      [|discriminate].
    apply lexDigits_loop_advanced in D. intros H. injection H as <- _ <-.
    split; [|now right]. eapply advanced_trans; [exact C|exact D].
Qed.

Lemma lexNum_loop_advanced (syntax : Syntax) (fuel : nat) :
  forall (l l' : t) (ch ch' : char) (tk tk' : Token),
    lexNum_loop fuel syntax l ch tk = Some (tk', ch', l') ->
    advanced l l' /\ (tk' = tk \/ tk' = TK_FLOAT_LITERAL).
Proof.
  induction fuel as [|fuel IH]; intros l l' ch ch' tk tk';
    cbn [lexNum_loop];
    destruct (negb (char_eqb ch NUL)
              && (isdigit ch || char_eqb ch "."%char || isExponent syntax ch));
    try discriminate;
    try (intros H; injection H as <- _ <-; split;
         [apply advanced_refl|now left]).
  destruct (consumeCharPeekNext l 0) as [c1 l1] eqn:C1.
  apply consumeCharPeekNext_advanced in C1.
  match goal with
  | |- context [let '(_, _) := ?b in _] => destruct b as [c2 l2] eqn:B
  end.
  assert (A2 : advanced l1 l2).
  { destruct (isExponent syntax ch
              && (char_eqb c1 "+"%char || char_eqb c1 "-"%char)).
    - now apply consumeCharPeekNext_advanced in B.
    - injection B as _ <-. apply advanced_refl. }
  intros H. apply IH in H. destruct H as [A3 Htk]. split.
  - eapply advanced_trans; [exact C1|].
    eapply advanced_trans; [exact A2|exact A3].
  - destruct (negb (isdigit ch)); [|exact Htk].
    destruct Htk as [->| ->]; now right.
Qed.

(** X3: whenever one of the three sub-lexers returns, it has moved the
    cursor forward and not past [eof_], and has left the bytes, the bounds
    of the buffer and the reports as they were; [lexNumLit] returns no
    other token than [TK_INVALID], [TK_INTEGER_LITERAL] and
    [TK_FLOAT_LITERAL], and [lexIdentOrKeyword] stops before a character
    that is no identifier character. *)
Theorem sublexers_advance (fuel : nat) (l l' : t) (ch ch' quote : char)
        (mayBreak : bool) (syntax : Syntax) (tk : Token) :
  (lexStrLit fuel l ch quote mayBreak syntax = Some (tk, ch', l') ->
   advanced l l' /\ tk = TK_STRING_LITERAL)
  /\ (lexIdentOrKeyword fuel l ch syntax = Some (tk, ch', l') ->
      advanced l l'
      /\ (isIdentFirstChar syntax ch = true ->
          isIdentChar syntax ch' = false))
  /\ (lexNumLit fuel l ch syntax = Some (tk, ch', l') ->
      advanced l l'
      /\ (tk = TK_INVALID \/ tk = TK_INTEGER_LITERAL
          \/ tk = TK_FLOAT_LITERAL)).
Proof.
  split; [|split].
  - unfold lexStrLit.
    destruct (lexStrLit_loop fuel l ch quote mayBreak) as [[c1 l1]|] eqn:E;
      [|discriminate].
    intros H. injection H as <- _ <-. split; [|reflexivity].
    now apply lexStrLit_loop_advanced in E.
  - unfold lexIdentOrKeyword.
    destruct (isIdentFirstChar syntax ch) eqn:F; cbn [negb].
    + cbv zeta. destruct (consumeCharPeekNext l 0) as [c1 l1] eqn:C.
      apply consumeCharPeekNext_advanced in C.
      destruct (lexIdent_loop fuel syntax l1 c1) as [[c2 l2]|] eqn:E;
        [|discriminate].
      apply lexIdent_loop_advanced in E. destruct E as [E1 E2].
      intros H. injection H as _ <- <-. split; [|intros _; exact E2].
      eapply advanced_trans; [exact C|exact E1].
    + intros H. injection H as _ _ <-. split; [apply advanced_refl|].
      discriminate.
  - unfold lexNumLit.
    destruct (negb (isdigit ch || char_eqb ch "."%char)).
    { intros H. injection H as <- _ <-. split; [apply advanced_refl|].
      now left. }
    destruct (char_eqb ch "0"%char).
    + destruct (consumeCharPeekNext l 0) as [c1 l1] eqn:C.
      apply consumeCharPeekNext_advanced in C.
      assert (P : forall p,
                 prefixed fuel p l1 = Some (tk, ch', l') ->
                 advanced l l'
                 /\ (tk = TK_INVALID \/ tk = TK_INTEGER_LITERAL
                     \/ tk = TK_FLOAT_LITERAL)).
      { intros p H. apply prefixed_advanced in H. destruct H as [A K].
        split; [eapply advanced_trans; [exact C|exact A]|].
        destruct K as [->| ->]; auto. }
      destruct (isOctalPrefix syntax c1); [apply P|].
      destruct (isHexPrefix syntax c1); [apply P|].
      destruct (isBinPrefix syntax c1); [apply P|].
      intros H. apply lexNum_loop_advanced in H. destruct H as [A K].
      split; [eapply advanced_trans; [exact C|exact A]|].
      destruct K as [->| ->]; auto.
    + intros H. apply lexNum_loop_advanced in H. destruct H as [A K].
      split; [exact A|]. destruct K as [->| ->]; auto.
Qed.

Lemma sublexers_advance_witness :
  advanced (onString 0 "12.5+x")
           (mk (list_ascii_of_string "12.5+x") 0 4 6 []).
Proof.
  destruct (@sublexers_advance 8 (onString 0 "12.5+x")
              (mk (list_ascii_of_string "12.5+x") 0 4 6 [])
              "1"%char "+"%char "'"%char false sampleSyntax TK_FLOAT_LITERAL)
    as [_ [_ H]].
  destruct H as [H _]; [reflexivity|exact H].
Defined.

(** **** The sub-lexers return *)

Lemma lexIdent_loop_total (syntax : Syntax) :
  isIdentChar syntax NUL = false ->
  forall (fuel : nat) (l : t) (ch : char),
    (ch <> NUL -> curr_ l < eof_ l) ->
    (remaining l <= fuel)%nat ->
    exists ch' l', lexIdent_loop fuel syntax l ch = Some (ch', l').
Proof.
  intros H0. induction fuel as [|fuel IH]; intros l ch Hin Hf;
    cbn [lexIdent_loop]; destruct (isIdentChar syntax ch) eqn:E;
    try (now exists ch, l).
  - assert (Hn : ch <> NUL) by (intros ->; congruence).
    apply Hin in Hn. unfold remaining in Hf. lia.
  - assert (Hn : ch <> NUL) by (intros ->; congruence).
    apply Hin in Hn.
    destruct (consumeCharPeekNext l 0) as [c1 l1] eqn:C.
    apply consumeCharPeekNext_fewer in C. destruct C as [Hle Hlt].
    destruct (ascii_dec c1 NUL) as [->|Hc].
    + exists NUL, l1. destruct fuel; cbn [lexIdent_loop]; now rewrite H0.
    + apply IH; [intros _; now apply Hlt in Hc|].
      apply Hlt in Hc. lia.
Qed.

(** X4: with a syntax for which the 0 sentinel is no identifier character,
    [lexIdentOrKeyword] returns on every lexer and every [ch], within as
    many turns as there are bytes left; when [ch] cannot start an
    identifier it returns [TK_INVALID] at once and touches nothing. *)
Theorem lexIdentOrKeyword_returns (syntax : Syntax) (fuel : nat) (l : t)
        (ch : char) :
  isIdentChar syntax NUL = false ->
  (remaining l <= fuel)%nat ->
  (exists tk ch' l',
     lexIdentOrKeyword fuel l ch syntax = Some (tk, ch', l'))
  /\ (isIdentFirstChar syntax ch = false ->
      lexIdentOrKeyword fuel l ch syntax = Some (TK_INVALID, ch, l)).
Proof.
  intros H0 Hf. unfold lexIdentOrKeyword.
  destruct (isIdentFirstChar syntax ch); cbn [negb].
  - split; [|discriminate]. cbv zeta.
    destruct (consumeCharPeekNext l 0) as [c1 l1] eqn:C.
    apply consumeCharPeekNext_fewer in C. destruct C as [Hle Hlt].
    destruct (@lexIdent_loop_total syntax H0 fuel l1 c1) as [ch' [l' E]].
    + intros Hc. now apply Hlt in Hc.
    + lia.
    + rewrite E. now eexists _, _, _.
  - split; [now eexists _, _, _|reflexivity].
Qed.

Lemma lexIdentOrKeyword_returns_witness :
  (exists tk ch' l',
     lexIdentOrKeyword 3 (onString 0 "ab+") "a"%char sampleSyntax
     = Some (tk, ch', l'))
  /\ lexIdentOrKeyword 3 (onString 0 "ab+") "+"%char sampleSyntax
     = Some (TK_INVALID, "+"%char, onString 0 "ab+").
Proof.
  split.
  - apply (@lexIdentOrKeyword_returns sampleSyntax 3 (onString 0 "ab+")
             "a"%char); [reflexivity|vm_compute; lia].
  - apply (@lexIdentOrKeyword_returns sampleSyntax 3 (onString 0 "ab+")
             "+"%char); [reflexivity|vm_compute; lia|reflexivity].
Defined.

Lemma lexDigits_loop_total (p : char -> bool) :
  forall (fuel : nat) (l : t) (ch : char),
    (remaining l < fuel)%nat ->
    exists ch' l', lexDigits_loop fuel p l ch = Some (ch', l').
Proof.
  induction fuel as [|fuel IH]; intros l ch Hf; [lia|].
  cbn [lexDigits_loop]. destruct (negb (char_eqb ch NUL) && p ch);
    [|now exists ch, l].
  destruct (consumeCharPeekNext l 0) as [c1 l1] eqn:C.
  apply consumeCharPeekNext_fewer in C. destruct C as [Hle Hlt].
  destruct (ascii_dec c1 NUL) as [->|Hc].
  - exists NUL, l1. destruct fuel; cbn [lexDigits_loop];
      now rewrite char_eqb_refl.
  - apply Hlt in Hc. apply IH. lia.
Qed.

Lemma lexNum_loop_total (syntax : Syntax) :
  forall (fuel : nat) (l : t) (ch : char) (tk : Token),
    (remaining l < fuel)%nat ->
    exists tk' ch' l', lexNum_loop fuel syntax l ch tk = Some (tk', ch', l').
Proof.
  induction fuel as [|fuel IH]; intros l ch tk Hf; [lia|].
  cbn [lexNum_loop].
  destruct (negb (char_eqb ch NUL)
            && (isdigit ch || char_eqb ch "."%char || isExponent syntax ch));
    [|now exists tk, ch, l].
  destruct (consumeCharPeekNext l 0) as [c1 l1] eqn:C1.
  apply consumeCharPeekNext_fewer in C1. destruct C1 as [Hle1 Hlt1].
  match goal with
  | |- context [let '(_, _) := ?b in _] => destruct b as [c2 l2] eqn:B
  end.
  assert (H2 : (remaining l2 <= remaining l)%nat
               /\ (c2 <> NUL -> (remaining l2 < remaining l)%nat)).
  { destruct (isExponent syntax ch
              && (char_eqb c1 "+"%char || char_eqb c1 "-"%char)).
    - apply consumeCharPeekNext_fewer in B. destruct B as [Hle2 Hlt2].
      split; [lia|]. intros Hc. apply Hlt2 in Hc. lia.
    - injection B as <- <-. split; [lia|]. intros Hc. apply Hlt1 in Hc.
      lia. }
  destruct H2 as [Hle2 Hlt2].
  destruct (ascii_dec c2 NUL) as [->|Hc].
  - eexists _, NUL, l2. destruct fuel; cbn [lexNum_loop];
      now rewrite char_eqb_refl.
  - apply Hlt2 in Hc. apply IH. lia.
Qed.

Lemma prefixed_total (p : char -> bool) (fuel : nat) (l : t) :
  (remaining l < fuel)%nat ->
  exists tk ch' l', prefixed fuel p l = Some (tk, ch', l').
Proof.
  intros Hf. unfold prefixed.
  destruct (consumeCharPeekNext l 0) as [c1 l1] eqn:C.
  apply consumeCharPeekNext_fewer in C. destruct C as [Hle _].
  destruct (negb (p c1)); [now eexists _, _, _|].
  destruct (@lexDigits_loop_total p fuel l1 c1) as [ch' [l' E]]; [lia|].
  rewrite E. now eexists _, _, _.
Qed.

(** X5: [lexNumLit] returns on every lexer, every [ch] and every syntax
    once the bound exceeds the bytes left; a [ch] that is neither a digit
    nor a dot gives [TK_INVALID] at once, with nothing touched. *)
Theorem lexNumLit_returns (syntax : Syntax) (fuel : nat) (l : t) (ch : char) :
  (remaining l < fuel)%nat ->
  (exists tk ch' l', lexNumLit fuel l ch syntax = Some (tk, ch', l'))
  /\ (isDigitOrDot ch = false ->
      lexNumLit fuel l ch syntax = Some (TK_INVALID, ch, l)).
Proof.
  intros Hf. unfold lexNumLit, isDigitOrDot.
  destruct (isdigit ch || char_eqb ch "."%char); cbn [negb].
  - split; [|discriminate].
    destruct (char_eqb ch "0"%char);
      [|now apply lexNum_loop_total].
    destruct (consumeCharPeekNext l 0) as [c1 l1] eqn:C.
    apply consumeCharPeekNext_fewer in C. destruct C as [Hle _].
    destruct (isOctalPrefix syntax c1); [apply prefixed_total; lia|].
    destruct (isHexPrefix syntax c1); [apply prefixed_total; lia|].
    destruct (isBinPrefix syntax c1); [apply prefixed_total; lia|].
    apply lexNum_loop_total. lia.
  - split; [now eexists _, _, _|reflexivity].
Qed.

Lemma lexNumLit_returns_witness :
  (exists tk ch' l',
     lexNumLit 5 (onString 0 "0x1F") "0"%char sampleSyntax
     = Some (tk, ch', l'))
  /\ lexNumLit 5 (onString 0 "0x1F") "x"%char sampleSyntax
     = Some (TK_INVALID, "x"%char, onString 0 "0x1F").
Proof.
  split.
  - apply (@lexNumLit_returns sampleSyntax 5 (onString 0 "0x1F") "0"%char).
    vm_compute. lia.
  - apply (@lexNumLit_returns sampleSyntax 5 (onString 0 "0x1F") "x"%char);
      [vm_compute; lia|reflexivity].
Defined.

(** **** Numbers *)

Lemma isDigitOrDot_nonzero (c : char) : isDigitOrDot c = true -> c <> NUL.
Proof. intros H ->. discriminate H. Qed.

Lemma lexNum_loop_done (syntax : Syntax) (fuel : nat) (l : t) (ch : char)
      (tk : Token) :
  isNumChar syntax ch = false ->
  lexNum_loop fuel syntax l ch tk = Some (tk, ch, l).
Proof.
  unfold isNumChar. intros H. destruct fuel; cbn [lexNum_loop];
    now rewrite H.
Qed.

Lemma lexNum_loop_more (syntax : Syntax) (fuel : nat) :
  forall (l : t) (ch : char) (tk : Token) res,
    lexNum_loop fuel syntax l ch tk = Some res ->
    lexNum_loop (S fuel) syntax l ch tk = Some res.
Proof.
  induction fuel as [|fuel IH]; intros l ch tk res H.
  - cbn [lexNum_loop] in *.
    destruct (negb (char_eqb ch NUL)
              && (isdigit ch || char_eqb ch "."%char || isExponent syntax ch));
      [discriminate H|exact H].
  - remember (S fuel) as n eqn:En. cbn [lexNum_loop]. rewrite En in *.
    cbn [lexNum_loop] in H.
    destruct (negb (char_eqb ch NUL)
              && (isdigit ch || char_eqb ch "."%char || isExponent syntax ch));
      [|exact H].
    destruct (consumeCharPeekNext l 0) as [c1 l1].
    match goal with
    | |- context [let '(_, _) := ?b in _] => destruct b as [c2 l2]
    end.
    now apply IH.
Qed.

(** The loop over digits and dots that are no exponent characters. *)
Lemma lexNum_loop_plain (syntax : Syntax) (base : Z)
      (reps : list Diagnostic.Kind) (rest : list char) (fuel : nat) :
  forall (cs pre : list char) (tk : Token),
    forallb isDigitOrDot cs = true ->
    forallb (fun c => negb (isExponent syntax c)) cs = true ->
    lexNum_loop (List.length cs + fuel) syntax
                (between base pre (cs ++ rest) reps) (headOr (cs ++ rest)) tk
    = lexNum_loop fuel syntax (between base (pre ++ cs) rest reps)
                  (headOr rest)
                  (if forallb isdigit cs then tk else TK_FLOAT_LITERAL).
Proof.
  induction cs as [|c cs IH]; intros pre tk Hd He.
  - cbn [app List.length forallb Nat.add]. now rewrite app_nil_r.
  - cbn [forallb] in Hd, He. apply andb_true_iff in Hd, He.
    destruct Hd as [Hc Hd]. destruct He as [Hx He].
    apply negb_true_iff in Hx.
    pose proof (isDigitOrDot_nonzero Hc) as Hn.
    cbn [app List.length headOr Nat.add lexNum_loop].
    apply char_eqb_neq in Hn. rewrite Hn. cbn [negb andb].
    unfold isDigitOrDot in Hc. rewrite Hc. cbn [orb]. cbv zeta.
    apply char_eqb_neq in Hn.
    rewrite consumeCharPeekNext_between by exact Hn.
    rewrite Hx. cbn [andb].
    rewrite IH by assumption. rewrite between_app.
    cbn [forallb]. destruct (isdigit c); cbn [negb andb]; [reflexivity|].
    now destruct (forallb isdigit cs).
Qed.

Lemma digitsOfPrefix_nonzero (syntax : Syntax) (x c : char)
      (p : char -> bool) :
  digitsOfPrefix syntax x = Some p -> p c = true -> c <> NUL.
Proof.
  unfold digitsOfPrefix. intros H Hp ->.
  destruct (isOctalPrefix syntax x);
    [injection H as <-; discriminate Hp|].
  destruct (isHexPrefix syntax x);
    [injection H as <-; discriminate Hp|].
  destruct (isBinPrefix syntax x);
    [injection H as <-; discriminate Hp|discriminate H].
Qed.

Lemma lexDigits_loop_munch (p : char -> bool) (base : Z)
      (reps : list Diagnostic.Kind) (suf : list char) :
  (forall c, p c = true -> c <> NUL) ->
  p (headOr suf) = false ->
  forall (cs pre : list char) (fuel : nat),
    forallb p cs = true ->
    (List.length cs <= fuel)%nat ->
    lexDigits_loop fuel p (between base pre (cs ++ suf) reps)
                   (headOr (cs ++ suf))
    = Some (headOr suf, between base (pre ++ cs) suf reps).
Proof.
  intros Hnz Hs. induction cs as [|c cs IH]; intros pre fuel Hcs Hf.
  - cbn [app]. rewrite app_nil_r.
    destruct fuel; cbn [lexDigits_loop]; rewrite Hs;
      now rewrite andb_false_r.
  - cbn [forallb] in Hcs. apply andb_true_iff in Hcs. destruct Hcs as [Hc Hcs].
    destruct fuel as [|fuel]; [cbn [List.length] in Hf; lia|].
    cbn [app headOr lexDigits_loop]. rewrite Hc.
    pose proof (Hnz c Hc) as Hn. apply char_eqb_neq in Hn. rewrite Hn.
    cbn [negb andb]. apply char_eqb_neq in Hn.
    rewrite consumeCharPeekNext_between by exact Hn.
    rewrite IH; [|exact Hcs|cbn [List.length] in Hf; lia].
    now rewrite between_app.
Qed.

(** X6: a decimal literal.  On a run of digits and dots that ends before
    a character the last loop does not take, [lexNumLit] consumes the whole
    run, however many dots it holds, and the token is
    [TK_INTEGER_LITERAL] when the run has digits only and
    [TK_FLOAT_LITERAL] otherwise; a single dot is a float literal. *)
Theorem lexNumLit_decimal (syntax : Syntax) (base : Z)
        (reps : list Diagnostic.Kind) (pre cs suf : list char) (c : char)
        (fuel : nat) :
  forallb isDigitOrDot (c :: cs) = true ->
  forallb (fun x => negb (isExponent syntax x)) (c :: cs) = true ->
  (c = "0"%char -> digitsOfPrefix syntax (headOr (cs ++ suf)) = None) ->
  isNumChar syntax (headOr suf) = false ->
  (List.length cs < fuel)%nat ->
  lexNumLit fuel (between base pre (c :: cs ++ suf) reps) c syntax
  = Some (if forallb isdigit (c :: cs)
          then TK_INTEGER_LITERAL else TK_FLOAT_LITERAL,
          headOr suf, between base (pre ++ c :: cs) suf reps).
Proof.
  intros Hd He H0 Hs Hf.
  assert (L : forall k tk,
             lexNum_loop (List.length cs + k) syntax
                         (between base (pre ++ [c]) (cs ++ suf) reps)
                         (headOr (cs ++ suf)) tk
             = Some (if forallb isdigit cs then tk else TK_FLOAT_LITERAL,
                     headOr suf, between base (pre ++ c :: cs) suf reps)).
  { intros k tk. cbn [forallb] in Hd, He. apply andb_true_iff in Hd, He.
    rewrite lexNum_loop_plain by tauto.
    rewrite lexNum_loop_done by exact Hs. now rewrite between_app. }
  pose proof Hd as Hc. cbn [forallb] in Hc. apply andb_true_iff in Hc.
  destruct Hc as [Hc _]. pose proof (isDigitOrDot_nonzero Hc) as Hn.
  unfold lexNumLit. unfold isDigitOrDot in Hc. rewrite Hc. cbn [negb].
  destruct (char_eqb c "0"%char) eqn:E0.
  - apply char_eqb_eq in E0. specialize (H0 E0). subst c.
    rewrite consumeCharPeekNext_between by exact Hn.
    unfold digitsOfPrefix in H0.
    destruct (isOctalPrefix syntax (headOr (cs ++ suf))); [discriminate H0|].
    destruct (isHexPrefix syntax (headOr (cs ++ suf))); [discriminate H0|].
    destruct (isBinPrefix syntax (headOr (cs ++ suf))); [discriminate H0|].
    replace fuel with (List.length cs + (fuel - List.length cs))%nat by lia.
    rewrite L. reflexivity.
  - replace fuel with (List.length (c :: cs) + (fuel - S (List.length cs)))%nat
      by (cbn [List.length]; lia).
    change (c :: cs ++ suf) with ((c :: cs) ++ suf).
    rewrite lexNum_loop_plain by assumption.
    now rewrite lexNum_loop_done by exact Hs.
Qed.

Lemma lexNumLit_decimal_witness :
  lexNumLit 6 (between 0 [] (list_ascii_of_string "1.2.3;") []) "1"%char
            sampleSyntax
  = Some (TK_FLOAT_LITERAL, ";"%char,
          between 0 (list_ascii_of_string "1.2.3") [";"%char] [])
  /\ lexNumLit 1 (between 0 [] ["."%char] []) "."%char sampleSyntax
     = Some (TK_FLOAT_LITERAL, NUL, between 0 ["."%char] [] []).
Proof.
  split.
  - apply (@lexNumLit_decimal sampleSyntax 0 [] []
             (list_ascii_of_string ".2.3") [";"%char] "1"%char 6);
      first [reflexivity | discriminate | simpl; lia].
  - apply (@lexNumLit_decimal sampleSyntax 0 [] [] [] [] "."%char 1);
      first [reflexivity | discriminate | simpl; lia].
Defined.

(** X7: a prefixed literal.  After a [0] and a prefix character, the
    digits asked for are those of the first of the octal, hexadecimal and
    binary forms whose prefix test accepts the character; a non-empty run
    of them is consumed whole and gives [TK_INTEGER_LITERAL]. *)
Theorem lexNumLit_prefixed (syntax : Syntax) (base : Z)
        (reps : list Diagnostic.Kind) (pre ds suf : list char) (x d : char)
        (p : char -> bool) (fuel : nat) :
  digitsOfPrefix syntax x = Some p ->
  x <> NUL ->
  forallb p (d :: ds) = true ->
  p (headOr suf) = false ->
  (List.length ds < fuel)%nat ->
  lexNumLit fuel (between base pre ("0"%char :: x :: d :: ds ++ suf) reps)
            "0"%char syntax
  = Some (TK_INTEGER_LITERAL, headOr suf,
          between base (pre ++ "0"%char :: x :: d :: ds) suf reps).
Proof.
  intros Hp Hx Hds Hs Hf.
  assert (P : prefixed fuel p
                (between base (pre ++ ["0"%char]) (x :: d :: ds ++ suf) reps)
              = Some (TK_INTEGER_LITERAL, headOr suf,
                      between base (pre ++ "0"%char :: x :: d :: ds) suf
                              reps)).
  { unfold prefixed. rewrite consumeCharPeekNext_between by exact Hx.
    cbn [headOr]. pose proof Hds as Hd. cbn [forallb] in Hd.
    apply andb_true_iff in Hd. destruct Hd as [Hd _]. rewrite Hd.
    cbn [negb].
    assert (Hl : (List.length (d :: ds) <= fuel)%nat)
      by (cbn [List.length]; lia).
    pose proof (@lexDigits_loop_munch p base reps suf
                  (fun c => @digitsOfPrefix_nonzero syntax x c p Hp) Hs
                  (d :: ds) ((pre ++ ["0"%char]) ++ [x]) fuel Hds Hl) as D.
    cbn [app headOr] in D. rewrite D. now rewrite <- !app_assoc. }
  unfold lexNumLit.
  change (negb (isdigit "0"%char || char_eqb "0"%char "."%char)) with false.
  change (char_eqb "0"%char "0"%char) with true. cbv iota.
  rewrite consumeCharPeekNext_between by discriminate. cbn [headOr].
  unfold digitsOfPrefix in Hp.
  destruct (isOctalPrefix syntax x); [injection Hp as <-; exact P|].
  destruct (isHexPrefix syntax x); [injection Hp as <-; exact P|].
  destruct (isBinPrefix syntax x); [injection Hp as <-; exact P|].
  discriminate Hp.
Qed.

Lemma lexNumLit_prefixed_witness :
  lexNumLit 3 (between 0 [] (list_ascii_of_string "0x1F+") []) "0"%char
            sampleSyntax
  = Some (TK_INTEGER_LITERAL, "+"%char,
          between 0 (list_ascii_of_string "0x1F") ["+"%char] []).
Proof.
  apply (@lexNumLit_prefixed sampleSyntax 0 [] [] ["F"%char] ["+"%char]
           "x"%char "1"%char isxdigit 3);
    first [reflexivity | discriminate | simpl; lia].
Defined.

(** X8: an exponent.  After a mantissa of digits and dots, an exponent
    character, a sign and a run of digits are consumed with it, and the
    token is [TK_FLOAT_LITERAL]: the sign, which the loop condition does
    not accept, is taken by the second [consumeCharPeekNext] of the turn
    of the exponent character. *)
Theorem lexNumLit_exponent (syntax : Syntax) (base : Z)
        (reps : list Diagnostic.Kind) (pre ms es suf : list char)
        (m e sg : char) (fuel : nat) :
  forallb isDigitOrDot (m :: ms) = true ->
  forallb (fun x => negb (isExponent syntax x)) (m :: ms ++ es) = true ->
  (m = "0"%char ->
   digitsOfPrefix syntax (headOr (ms ++ e :: sg :: es ++ suf)) = None) ->
  e <> NUL -> isExponent syntax e = true -> isdigit e = false ->
  isSign sg = true ->
  forallb isdigit es = true ->
  isNumChar syntax (headOr suf) = false ->
  (List.length ms + List.length es + 1 < fuel)%nat ->
  lexNumLit fuel
            (between base pre (m :: ms ++ e :: sg :: es ++ suf) reps)
            m syntax
  = Some (TK_FLOAT_LITERAL, headOr suf,
          between base (pre ++ m :: ms ++ e :: sg :: es) suf reps).
Proof.
  intros Hd Hx H0 He Hee Hed Hsg Hes Hs Hf.
  assert (Hxm : forallb (fun x => negb (isExponent syntax x)) (m :: ms) = true
                /\ forallb (fun x => negb (isExponent syntax x)) es = true).
  { change (m :: ms ++ es) with ((m :: ms) ++ es) in Hx.
    rewrite forallb_app in Hx. now apply andb_true_iff in Hx. }
  destruct Hxm as [Hxm Hxe].
  pose proof Hd as Hc. cbn [forallb] in Hc. apply andb_true_iff in Hc.
  destruct Hc as [Hc Hdm].
  pose proof Hxm as Hxc. cbn [forallb] in Hxc. apply andb_true_iff in Hxc.
  destruct Hxc as [Hxc Hxms].
  assert (Hsn : sg <> NUL) by (intros ->; discriminate Hsg).
  assert (Hed' : forallb isDigitOrDot es = true).
  { apply forallb_forall. intros x Hin.
    rewrite forallb_forall in Hes. unfold isDigitOrDot.
    now rewrite (Hes x Hin). }
  assert (L : forall k tk,
             lexNum_loop (List.length ms + S (List.length es + k)) syntax
               (between base (pre ++ [m]) (ms ++ e :: sg :: es ++ suf) reps)
               (headOr (ms ++ e :: sg :: es ++ suf)) tk
             = Some (TK_FLOAT_LITERAL, headOr suf,
                     between base (pre ++ m :: ms ++ e :: sg :: es) suf
                             reps)).
  { intros k tk. rewrite lexNum_loop_plain by assumption.
    cbn [headOr lexNum_loop].
    apply char_eqb_neq in He. rewrite He. apply char_eqb_neq in He.
    rewrite Hee, Hed. rewrite !orb_true_r. cbn [negb andb]. cbv zeta.
    rewrite consumeCharPeekNext_between by exact He. cbn [headOr].
    unfold isSign in Hsg. rewrite Hsg.
    rewrite consumeCharPeekNext_between by exact Hsn.
    rewrite lexNum_loop_plain by assumption.
    rewrite lexNum_loop_done by exact Hs.
    rewrite Hes.
    replace (((((pre ++ [m]) ++ ms) ++ [e]) ++ [sg]) ++ es)
      with (pre ++ m :: ms ++ e :: sg :: es); [reflexivity|].
    rewrite <- !app_assoc. reflexivity. }
  pose proof (isDigitOrDot_nonzero Hc) as Hn.
  unfold lexNumLit. unfold isDigitOrDot in Hc. rewrite Hc. cbn [negb].
  destruct (char_eqb m "0"%char) eqn:E0.
  - apply char_eqb_eq in E0. specialize (H0 E0). subst m.
    rewrite consumeCharPeekNext_between by exact Hn.
    unfold digitsOfPrefix in H0.
    destruct (isOctalPrefix syntax (headOr (ms ++ e :: sg :: es ++ suf)));
      [discriminate H0|].
    destruct (isHexPrefix syntax (headOr (ms ++ e :: sg :: es ++ suf)));
      [discriminate H0|].
    destruct (isBinPrefix syntax (headOr (ms ++ e :: sg :: es ++ suf)));
      [discriminate H0|].
    replace fuel
      with (List.length ms
            + S (List.length es
                 + (fuel - List.length ms - List.length es - 1)))%nat
      by lia.
    apply L.
  - replace fuel
      with (List.length [m]
            + (List.length ms
               + S (List.length es
                    + (fuel - List.length ms - List.length es - 2))))%nat
      by (cbn [List.length]; lia).
    change (m :: ms ++ e :: sg :: es ++ suf)
      with ([m] ++ ms ++ e :: sg :: es ++ suf).
    rewrite lexNum_loop_plain;
      [apply L|cbn [forallb]; unfold isDigitOrDot; now rewrite Hc
      |cbn [forallb]; now rewrite Hxc].
Qed.

Lemma lexNumLit_exponent_witness :
  lexNumLit 6 (between 0 [] (list_ascii_of_string "1.5e-10)") []) "1"%char
            sampleSyntax
  = Some (TK_FLOAT_LITERAL, ")"%char,
          between 0 (list_ascii_of_string "1.5e-10") [")"%char] [])
  /\ lexNumLit 5 (between 0 [] (list_ascii_of_string "0.5e-3") []) "0"%char
               sampleSyntax
     = Some (TK_FLOAT_LITERAL, NUL,
             between 0 (list_ascii_of_string "0.5e-3") [] []).
Proof.
  split.
  - apply (@lexNumLit_exponent sampleSyntax 0 [] []
             (list_ascii_of_string ".5") (list_ascii_of_string "10")
             [")"%char] "1"%char "e"%char "-"%char 6);
      first [reflexivity | discriminate | simpl; lia].
  - apply (@lexNumLit_exponent sampleSyntax 0 [] []
             (list_ascii_of_string ".5") (list_ascii_of_string "3")
             [] "0"%char "e"%char "-"%char 5);
      first [reflexivity | discriminate | simpl; lia].
Defined.

(** **** String literals *)

Lemma lexStrLit_loop_pieces (base : Z) (reps : list Diagnostic.Kind)
      (rest : list char) (quote : char) (mb : bool) (fuel : nat) :
  quote <> backslash ->
  forall (ps : list piece) (pre : list char),
    forallb (piece_ok quote) ps = true ->
    lexStrLit_loop (List.length ps + fuel)
                   (between base pre (text ps ++ rest) reps)
                   (headOr (text ps ++ rest)) quote mb
    = lexStrLit_loop fuel (between base (pre ++ text ps) rest reps)
                     (headOr rest) quote mb.
Proof.
  intros Hq. induction ps as [|p ps IH]; intros pre Hps.
  - cbn [text flat_map app List.length Nat.add]. now rewrite app_nil_r.
  - cbn [forallb] in Hps. apply andb_true_iff in Hps.
    destruct Hps as [Hp Hps].
    change (text (p :: ps)) with (piece_chars p ++ text ps).
    rewrite <- !app_assoc. cbn [List.length Nat.add].
    destruct p as [c|c]; cbn [piece_chars app headOr piece_ok] in *.
    + apply andb_true_iff in Hp. destruct Hp as [Hp H3].
      apply andb_true_iff in Hp. destruct Hp as [H1 H2].
      cbn [lexStrLit_loop]. rewrite H1, H2. cbn [andb].
      apply negb_true_iff in H3. rewrite H3.
      destruct (char_eqb c newline && negb mb);
        (rewrite consumeCharPeekNext_between
           by (apply negb_true_iff in H1; now apply char_eqb_neq in H1));
        rewrite IH by exact Hps; now rewrite <- app_assoc.
    + cbn [lexStrLit_loop].
      change (char_eqb backslash NUL) with false.
      assert (Hbq : char_eqb backslash quote = false).
      { apply char_eqb_neq. congruence. }
      rewrite Hbq. cbn [negb andb]. rewrite char_eqb_refl.
      rewrite consumeCharPeekNext_between by discriminate.
      cbn [headOr].
      destruct (negb (iscntrl c) && negb (isprint c));
        (rewrite consumeCharPeekNext_between
           by (apply negb_true_iff in Hp; now apply char_eqb_neq in Hp));
        rewrite IH by exact Hps; now rewrite <- !app_assoc.
Qed.

(** X9: [lexStrLit] stops on the first quote that is not escaped, or where
    the bytes end.  Over a text of plain characters and escapes (a
    backslash and any non-zero character after it, the quote included), it
    leaves [ch] and the cursor on what follows the text when that is the
    quote, the end of the buffer or a zero byte. *)
Theorem lexStrLit_closing_quote (base : Z) (reps : list Diagnostic.Kind)
        (ps : list piece) (pre rest : list char) (quote : char)
        (mayBreak : bool) (syntax : Syntax) (fuel : nat) :
  quote <> backslash ->
  forallb (piece_ok quote) ps = true ->
  headOr rest = quote \/ headOr rest = NUL ->
  (List.length ps <= fuel)%nat ->
  lexStrLit fuel (between base pre (text ps ++ rest) reps)
            (headOr (text ps ++ rest)) quote mayBreak syntax
  = Some (TK_STRING_LITERAL, headOr rest,
          between base (pre ++ text ps) rest reps).
Proof.
  intros Hq Hps Hr Hf. unfold lexStrLit.
  replace fuel with (List.length ps + (fuel - List.length ps))%nat by lia.
  rewrite lexStrLit_loop_pieces by assumption.
  rewrite lexStrLit_loop_done by tauto. reflexivity.
Qed.

Lemma lexStrLit_closing_quote_witness :
  lexStrLit 3 (between 0 ["'"%char]
                       ["a"%char; backslash; "'"%char; "b"%char; "'"%char;
                        ";"%char] [])
            "a"%char "'"%char false sampleSyntax
  = Some (TK_STRING_LITERAL, "'"%char,
          between 0 ["'"%char; "a"%char; backslash; "'"%char; "b"%char]
                  ["'"%char; ";"%char] []).
Proof.
  apply (@lexStrLit_closing_quote 0 []
           [Plain "a"%char; Escaped "'"%char; Plain "b"%char] ["'"%char]
           ["'"%char; ";"%char] "'"%char false sampleSyntax 3);
    first [reflexivity | discriminate | now left | simpl; lia].
Defined.

(** X10: [mayBreak] and [syntax] play no part in [lexStrLit]: with any two
    values of each it does the same. *)
Theorem lexStrLit_ignores_mayBreak (fuel : nat) (l : t) (ch quote : char)
        (mayBreak mayBreak' : bool) (syntax syntax' : Syntax) :
  lexStrLit fuel l ch quote mayBreak syntax
  = lexStrLit fuel l ch quote mayBreak' syntax'.
Proof.
  unfold lexStrLit.
  enough (H : lexStrLit_loop fuel l ch quote mayBreak
              = lexStrLit_loop fuel l ch quote mayBreak') by now rewrite H.
  revert l ch. induction fuel as [|fuel IH]; intros l ch; [reflexivity|].
  cbn [lexStrLit_loop].
  destruct (negb (char_eqb ch NUL) && negb (char_eqb ch quote));
    [|reflexivity].
  destruct (char_eqb ch backslash).
  - destruct (consumeCharPeekNext l 0) as [c l0].
    destruct (negb (iscntrl c) && negb (isprint c));
      destruct (consumeCharPeekNext l0 0); apply IH.
  - destruct (char_eqb ch newline && negb mayBreak);
      destruct (char_eqb ch newline && negb mayBreak');
      destruct (consumeCharPeekNext l 0); apply IH.
Qed.

End LexerFacts.

(** ** The parser *)

Module PyParserFacts.
Import Ast PyParser.
Local Open Scope string_scope.
Local Open Scope list_scope.
Local Open Scope nat_scope.
Local Open Scope parser_scope.

(** *** Running the monad *)

Lemma bind_Ok {A B} (m : M A) (k : A -> M B) (s s' : t) (a : A) :
  m s = Ok a s' -> bind m k s = k a s'.
Proof. intros H. unfold bind. now rewrite H. Qed.

Arguments bind_Ok {A B m} k {s s' a} _.

Lemma bind_gets {A B} (f : t -> A) (k : A -> M B) (s : t) :
  bind (gets f) k s = k (f s) s.
Proof. reflexivity. Qed.

Lemma bind_ret {A B} (a : A) (k : A -> M B) (s : t) :
  bind (ret a) k s = k a s.
Proof. reflexivity. Qed.

Lemma consumeToken_Ok (s : t) : consumeToken s = Ok tt (consumed s).
Proof.
  unfold consumed, consumeToken.
  destruct (tok_eqb (ahead_ s) TK_EOP); [reflexivity|].
  destruct (TokenSource.lex (lexer_ s)); reflexivity.
Qed.

Lemma bind_consumeToken {B} (k : unit -> M B) (s : t) :
  bind consumeToken k s = k tt (consumed s).
Proof. apply bind_Ok, consumeToken_Ok. Qed.

Lemma lastLoc_consumed_reported (kind : Diagnostic.Kind) (s : t) :
  lastLoc_ (reported kind s) = lastLoc_ s.
Proof. reflexivity. Qed.

Lemma failMatch_true_Ok (s : t) :
  failMatch true s = Ok tt (reported Diagnostic.UnexpectedToken (consumed s)).
Proof.
  unfold failMatch. rewrite bind_consumeToken. reflexivity.
Qed.

Lemma tok_eqb_refl (a : Token) : tok_eqb a a = true.
Proof. destruct a; reflexivity. Qed.

Lemma tok_eqb_eq (a b : Token) : tok_eqb a b = true <-> a = b.
Proof.
  split.
  - apply internal_Token_dec_bl.
  - intros ->. apply tok_eqb_refl.
Qed.

Lemma tok_eqb_neq (a b : Token) : a <> b -> tok_eqb a b = false.
Proof.
  intros H. destruct (tok_eqb a b) eqn:E; [|reflexivity].
  now apply tok_eqb_eq in E.
Qed.


Lemma fuel_knot (keep : bool) (n : nat) : fuel (knot keep n) = n.
Proof. destruct n; reflexivity. Qed.

Lemma keepNull_knot (keep : bool) (n : nat) : keepNull (knot keep n) = keep.
Proof. destruct n; reflexivity. Qed.

(** The equation of a closed run with its computed outcome. *)
Ltac run_as H run :=
  let v := eval vm_compute in run in
  assert (H : run = v) by (vm_compute; reflexivity).

(** A relation between the parser object before and after a member
    function that [consumeToken] and [trackReport] respect is respected by
    every function of the parser: they change the object in no other way. *)
Section Keeps.

Variable R : t -> t -> Prop.
Hypothesis R_refl : forall s, R s s.
Hypothesis R_trans : forall s1 s2 s3, R s1 s2 -> R s2 s3 -> R s1 s3.
Hypothesis R_consumed : forall s, R s (consumed s).
Hypothesis R_reported :
  forall kind loc s,
    R s (mk (lexer_ s) (ParsingContext.trackReport kind loc (context_ s))
            (ahead_ s) (lastLoc_ s)).

#[local] Abbreviation Keeps := (Keeps R).
#[local] Abbreviation KeepsEnv := (KeepsEnv R).

Lemma keeps_ret {A} (a : A) : Keeps (ret a).
Proof. intros s a' s' H. injection H as _ <-. apply R_refl. Qed.

Lemma keeps_gets {A} (f : t -> A) : Keeps (gets f).
Proof. intros s a' s' H. injection H as _ <-. apply R_refl. Qed.

Lemma keeps_nullDeref {A} : Keeps (@nullDeref A).
Proof. intros s a s' H. discriminate H. Qed.

Lemma keeps_outOfFuel {A} : Keeps (@outOfFuel A).
Proof. intros s a s' H. discriminate H. Qed.

Lemma keeps_bind {A B} (m : M A) (k : A -> M B) :
  Keeps m -> (forall a, Keeps (k a)) -> Keeps (bind m k).
Proof.
  intros Hm Hk s b s' H. unfold bind in H.
  destruct (m s) as [a s1| |] eqn:E; try discriminate H.
  eapply R_trans; [eapply Hm, E | eapply Hk, H].
Qed.

Lemma keeps_consumeToken : Keeps consumeToken.
Proof.
  intros s a s' H. rewrite consumeToken_Ok in H. injection H as _ <-.
  apply R_consumed.
Qed.

Lemma keeps_trackReport kind loc : Keeps (trackReport kind loc).
Proof. intros s a s' H. injection H as _ <-. apply R_reported. Qed.

Create HintDb keeps discriminated.
#[local] Hint Constants Opaque : keeps.
#[local] Hint Transparent Name Expr Stmt Decl Spec ListCompre Precedence
  : keeps.

#[local] Hint Resolve keeps_ret keeps_gets keeps_nullDeref keeps_outOfFuel
     keeps_consumeToken keeps_trackReport
     keeps_rec_parseStmt keeps_rec_parseIfElseIfStmt keeps_rec_parseTest
     keeps_rec_parseOldTest keeps_rec_parseOrTest keeps_rec_parseNotTest
     keeps_rec_parseExpr keeps_rec_parseBinaryExpr keeps_rec_parseFactor
     keeps_rec_parseStrLit keeps_rec_parseCompFor keeps_rec_parseCompIf
     keeps_rec_parseListFor keeps_rec_parseListIf : keeps.

(** [Keeps] of a monadic term, by its structure. *)
Ltac keeps_with higher :=
  repeat first
    [ assumption
    | match goal with
      | |- Keeps (bind _ _) => apply keeps_bind; [| intros ? ]
      | |- Keeps (if ?b then _ else _) => destruct b
      | |- Keeps (match ?x with _ => _ end) => destruct x
      end
    | higher
    | solve [eauto with keeps] ].

Ltac keeps := keeps_with fail.

Lemma keeps_maybeConsume tk : Keeps (maybeConsume tk).
Proof. unfold maybeConsume. keeps. Qed.
#[local] Hint Resolve keeps_maybeConsume : keeps.

Lemma keeps_skipTo_loop n tk : Keeps (skipTo_loop n tk).
Proof. induction n; cbn [skipTo_loop]; keeps. Qed.
#[local] Hint Resolve keeps_skipTo_loop : keeps.

Lemma keeps_failMatch c : Keeps (failMatch c).
Proof. unfold failMatch. keeps. Qed.
#[local] Hint Resolve keeps_failMatch : keeps.

Lemma keeps_match_ tk : Keeps (match_ tk).
Proof. unfold match_. keeps. Qed.
#[local] Hint Resolve keeps_match_ : keeps.

Lemma keeps_skipTo r tk : Keeps (skipTo r tk).
Proof. unfold skipTo. keeps. Qed.
#[local] Hint Resolve keeps_skipTo : keeps.

Lemma keeps_matchOrSkipTo r tk : Keeps (matchOrSkipTo r tk).
Proof. unfold matchOrSkipTo. keeps. Qed.
#[local] Hint Resolve keeps_matchOrSkipTo : keeps.

Lemma keeps_parseName : Keeps parseName.
Proof. unfold parseName. keeps. Qed.
#[local] Hint Resolve keeps_parseName : keeps.

Lemma keeps_parseList_loop {A} r n tk check (parseFunc : M (option A)) ok :
  Keeps parseFunc ->
  forall lst, Keeps (parseList_loop r n tk check parseFunc ok lst).
Proof. intros Hp. induction n; intros lst; cbn [parseList_loop]; keeps. Qed.
#[local] Hint Resolve keeps_parseList_loop : keeps.

Lemma keeps_parseList {A} r tk check (parseFunc : M (option A)) ok :
  Keeps parseFunc -> Keeps (parseList r tk check parseFunc ok).
Proof. intros Hp. unfold parseList. keeps. Qed.
#[local] Hint Resolve keeps_parseList : keeps.

Lemma keeps_onCompre {A} lc (k : ListCompreExprAst -> M A) :
  (forall x, Keeps (k x)) -> Keeps (onCompre lc k).
Proof. intros Hk. unfold onCompre. keeps. Qed.

Lemma keeps_completeWrapped r exprFunc :
  Keeps exprFunc -> Keeps (completeWrapped r exprFunc).
Proof. intros Hk. unfold completeWrapped. keeps. Qed.

Lemma keeps_completeUnaryExpr k parseFunc :
  Keeps parseFunc -> Keeps (completeUnaryExpr k parseFunc).
Proof. intros Hk. unfold completeUnaryExpr. keeps. Qed.

Lemma keeps_completeBinaryExpr k e parseFunc :
  Keeps parseFunc -> Keeps (completeBinaryExpr k e parseFunc).
Proof. intros Hk. unfold completeBinaryExpr. keeps. Qed.

Lemma keeps_completeAssignExpr e parseFunc :
  Keeps parseFunc -> Keeps (completeAssignExpr e parseFunc).
Proof. intros Hk. unfold completeAssignExpr. keeps. Qed.

Lemma keeps_completeListCompre lc genFunc filterFunc :
  (forall x, Keeps (genFunc x)) -> (forall x, Keeps (filterFunc x)) ->
  Keeps (completeListCompre lc genFunc filterFunc).
Proof. intros Hg Hf. unfold completeListCompre. keeps. Qed.

(** The functions that take a parser as argument ask for [Keeps] of it. *)
Ltac keeps_higher :=
  idtac;
  match goal with
  | |- Keeps (onCompre _ _) => apply keeps_onCompre; intros ?
  | |- Keeps (completeWrapped _ _) => apply keeps_completeWrapped
  | |- Keeps (completeUnaryExpr _ _) => apply keeps_completeUnaryExpr
  | |- Keeps (completeBinaryExpr _ _ _) => apply keeps_completeBinaryExpr
  | |- Keeps (completeAssignExpr _ _) => apply keeps_completeAssignExpr
  | |- Keeps (completeListCompre _ _ _) =>
      apply keeps_completeListCompre; intros ?
  | |- Keeps (parseList _ _ _ _ _) => apply keeps_parseList
  end.

Ltac keeps' := keeps_with keeps_higher.


Lemma keeps_parseDottedName r : KeepsEnv r -> Keeps (parseDottedName r).
Proof. intros E. unfold parseDottedName. keeps'. Qed.
#[local] Hint Resolve keeps_parseDottedName : keeps.

Lemma keeps_parseStrLit r : KeepsEnv r -> Keeps (parseStrLit r).
Proof. intros E. unfold parseStrLit. keeps'. Qed.
#[local] Hint Resolve keeps_parseStrLit : keeps.

Lemma keeps_parseExprList r : KeepsEnv r -> Keeps (parseExprList r).
Proof. intros E. unfold parseExprList. keeps'. Qed.
#[local] Hint Resolve keeps_parseExprList : keeps.

Lemma keeps_parseTestList r : KeepsEnv r -> Keeps (parseTestList r).
Proof. intros E. unfold parseTestList. keeps'. Qed.
#[local] Hint Resolve keeps_parseTestList : keeps.

Lemma keeps_parseTestList1 r : KeepsEnv r -> Keeps (parseTestList1 r).
Proof. intros E. unfold parseTestList1. keeps'. Qed.
#[local] Hint Resolve keeps_parseTestList1 : keeps.

Lemma keeps_parseTestListSafe r : KeepsEnv r -> Keeps (parseTestListSafe r).
Proof. intros E. unfold parseTestListSafe. keeps'. Qed.
#[local] Hint Resolve keeps_parseTestListSafe : keeps.

Lemma keeps_parseYieldExpr r : KeepsEnv r -> Keeps (parseYieldExpr r).
Proof. intros E. unfold parseYieldExpr. keeps'. Qed.
#[local] Hint Resolve keeps_parseYieldExpr : keeps.

Lemma keeps_completeParam r g : Keeps (completeParam r g).
Proof. unfold completeParam. keeps'. Qed.
#[local] Hint Resolve keeps_completeParam : keeps.

Lemma keeps_parseVarArgsList_loop r n :
  KeepsEnv r -> forall seenStar decls,
    Keeps (parseVarArgsList_loop r n seenStar decls).
Proof.
  intros E. induction n; intros seenStar decls;
    cbn [parseVarArgsList_loop]; keeps'.
Qed.
#[local] Hint Resolve keeps_parseVarArgsList_loop : keeps.

Lemma keeps_parseVarArgsList r b : KeepsEnv r -> Keeps (parseVarArgsList r b).
Proof. intros E. unfold parseVarArgsList. keeps'. Qed.
#[local] Hint Resolve keeps_parseVarArgsList : keeps.

Lemma keeps_parseLambdaCore r parseFunc :
  KeepsEnv r -> Keeps parseFunc -> Keeps (parseLambdaCore r parseFunc).
Proof. intros E Hk. unfold parseLambdaCore. keeps'. Qed.
#[local] Hint Resolve keeps_parseLambdaCore : keeps.

Lemma keeps_parseLambdaDef r : KeepsEnv r -> Keeps (parseLambdaDef r).
Proof. intros E. unfold parseLambdaDef. keeps'. Qed.
#[local] Hint Resolve keeps_parseLambdaDef : keeps.

Lemma keeps_parseOldLambdaDef r : KeepsEnv r -> Keeps (parseOldLambdaDef r).
Proof. intros E. unfold parseOldLambdaDef. keeps'. Qed.
#[local] Hint Resolve keeps_parseOldLambdaDef : keeps.

Lemma keeps_parseCompFor r lc : KeepsEnv r -> Keeps (parseCompFor r lc).
Proof. intros E. unfold parseCompFor. keeps'. Qed.
#[local] Hint Resolve keeps_parseCompFor : keeps.

Lemma keeps_parseListFor r lc : KeepsEnv r -> Keeps (parseListFor r lc).
Proof. intros E. unfold parseListFor. keeps'. Qed.
#[local] Hint Resolve keeps_parseListFor : keeps.

Lemma keeps_parseListOrCompIf r lc genFunc filterFunc :
  KeepsEnv r ->
  (forall x, Keeps (genFunc x)) -> (forall x, Keeps (filterFunc x)) ->
  Keeps (parseListOrCompIf r lc genFunc filterFunc).
Proof. intros E Hg Hf. unfold parseListOrCompIf. keeps'. Qed.
#[local] Hint Resolve keeps_parseListOrCompIf : keeps.

Lemma keeps_parseCompIf r lc : KeepsEnv r -> Keeps (parseCompIf r lc).
Proof. intros E. unfold parseCompIf. keeps'. Qed.
#[local] Hint Resolve keeps_parseCompIf : keeps.

Lemma keeps_parseListIf r lc : KeepsEnv r -> Keeps (parseListIf r lc).
Proof. intros E. unfold parseListIf. keeps'. Qed.
#[local] Hint Resolve keeps_parseListIf : keeps.

Lemma keeps_parseWrappedOrTuple r : KeepsEnv r -> Keeps (parseWrappedOrTuple r).
Proof. intros E. unfold parseWrappedOrTuple. keeps'. Qed.
#[local] Hint Resolve keeps_parseWrappedOrTuple : keeps.

Lemma keeps_parseListMaker r : KeepsEnv r -> Keeps (parseListMaker r).
Proof. intros E. unfold parseListMaker. keeps'. Qed.
#[local] Hint Resolve keeps_parseListMaker : keeps.

Lemma keeps_parseDictItems_loop r n :
  KeepsEnv r -> forall inits,
    Keeps (parseDictItems_loop r n inits).
Proof.
  intros E. induction n; intros inits;
    cbn [parseDictItems_loop]; keeps'.
Qed.
#[local] Hint Resolve keeps_parseDictItems_loop : keeps.

Lemma keeps_parseDictOrSetMaker r : KeepsEnv r -> Keeps (parseDictOrSetMaker r).
Proof. intros E. unfold parseDictOrSetMaker. keeps'. Qed.
#[local] Hint Resolve keeps_parseDictOrSetMaker : keeps.

Lemma keeps_parseAtom r : KeepsEnv r -> Keeps (parseAtom r).
Proof. intros E. unfold parseAtom. keeps'. Qed.
#[local] Hint Resolve keeps_parseAtom : keeps.

Lemma keeps_completeSubrangeExpr r e :
  KeepsEnv r -> Keeps (completeSubrangeExpr r e).
Proof. intros E. unfold completeSubrangeExpr. keeps'. Qed.
#[local] Hint Resolve keeps_completeSubrangeExpr : keeps.

Lemma keeps_parseSubscript r : KeepsEnv r -> Keeps (parseSubscript r).
Proof. intros E. unfold parseSubscript. keeps'. Qed.
#[local] Hint Resolve keeps_parseSubscript : keeps.

Lemma keeps_parseSubscriptList r : KeepsEnv r -> Keeps (parseSubscriptList r).
Proof. intros E. unfold parseSubscriptList. keeps'. Qed.
#[local] Hint Resolve keeps_parseSubscriptList : keeps.

Lemma keeps_parseArg r : KeepsEnv r -> Keeps (parseArg r).
Proof. intros E. unfold parseArg. keeps'. Qed.
#[local] Hint Resolve keeps_parseArg : keeps.

Lemma keeps_parseUnpack r : KeepsEnv r -> Keeps (parseUnpack r).
Proof. intros E. unfold parseUnpack. keeps'. Qed.
#[local] Hint Resolve keeps_parseUnpack : keeps.

Lemma keeps_parseArgList r : KeepsEnv r -> Keeps (parseArgList r).
Proof. intros E. unfold parseArgList. keeps'. Qed.
#[local] Hint Resolve keeps_parseArgList : keeps.

Lemma keeps_parsePower_loop r n :
  KeepsEnv r -> forall atom,
    Keeps (parsePower_loop r n atom).
Proof. intros E. induction n; intros atom; cbn [parsePower_loop]; keeps'. Qed.
#[local] Hint Resolve keeps_parsePower_loop : keeps.

Lemma keeps_parsePower r : KeepsEnv r -> Keeps (parsePower r).
Proof. intros E. unfold parsePower. keeps'. Qed.
#[local] Hint Resolve keeps_parsePower : keeps.

Lemma keeps_parseFactor r : KeepsEnv r -> Keeps (parseFactor r).
Proof. intros E. unfold parseFactor. keeps'. Qed.
#[local] Hint Resolve keeps_parseFactor : keeps.

Lemma keeps_parseBinaryExpr_loop r n :
  KeepsEnv r -> forall curPrec factor,
    Keeps (parseBinaryExpr_loop r n curPrec factor).
Proof.
  intros E. induction n; intros curPrec factor;
    cbn [parseBinaryExpr_loop]; keeps'.
Qed.
#[local] Hint Resolve keeps_parseBinaryExpr_loop : keeps.

Lemma keeps_parseBinaryExpr r p : KeepsEnv r -> Keeps (parseBinaryExpr r p).
Proof. intros E. unfold parseBinaryExpr. keeps'. Qed.
#[local] Hint Resolve keeps_parseBinaryExpr : keeps.

Lemma keeps_parseExpr r : KeepsEnv r -> Keeps (parseExpr r).
Proof. intros E. unfold parseExpr. keeps'. Qed.
#[local] Hint Resolve keeps_parseExpr : keeps.

Lemma keeps_parseComparison_loop r n :
  KeepsEnv r -> forall expr,
    Keeps (parseComparison_loop r n expr).
Proof.
  intros E. induction n; intros expr;
    cbn [parseComparison_loop]; keeps'.
Qed.
#[local] Hint Resolve keeps_parseComparison_loop : keeps.

Lemma keeps_parseComparison r : KeepsEnv r -> Keeps (parseComparison r).
Proof. intros E. unfold parseComparison. keeps'. Qed.
#[local] Hint Resolve keeps_parseComparison : keeps.

Lemma keeps_parseNotTest r : KeepsEnv r -> Keeps (parseNotTest r).
Proof. intros E. unfold parseNotTest. keeps'. Qed.
#[local] Hint Resolve keeps_parseNotTest : keeps.

Lemma keeps_parseAndTest_loop r n :
  KeepsEnv r -> forall e,
    Keeps (parseAndTest_loop r n e).
Proof. intros E. induction n; intros e; cbn [parseAndTest_loop]; keeps'. Qed.
#[local] Hint Resolve keeps_parseAndTest_loop : keeps.

Lemma keeps_parseAndTest r : KeepsEnv r -> Keeps (parseAndTest r).
Proof. intros E. unfold parseAndTest. keeps'. Qed.
#[local] Hint Resolve keeps_parseAndTest : keeps.

Lemma keeps_parseOrTest_loop r n :
  KeepsEnv r -> forall e,
    Keeps (parseOrTest_loop r n e).
Proof. intros E. induction n; intros e; cbn [parseOrTest_loop]; keeps'. Qed.
#[local] Hint Resolve keeps_parseOrTest_loop : keeps.

Lemma keeps_parseOrTest r : KeepsEnv r -> Keeps (parseOrTest r).
Proof. intros E. unfold parseOrTest. keeps'. Qed.
#[local] Hint Resolve keeps_parseOrTest : keeps.

Lemma keeps_parseTest r : KeepsEnv r -> Keeps (parseTest r).
Proof. intros E. unfold parseTest. keeps'. Qed.
#[local] Hint Resolve keeps_parseTest : keeps.

Lemma keeps_parseOldTest r : KeepsEnv r -> Keeps (parseOldTest r).
Proof. intros E. unfold parseOldTest. keeps'. Qed.
#[local] Hint Resolve keeps_parseOldTest : keeps.

Lemma keeps_assignedExprs r : KeepsEnv r -> Keeps (assignedExprs r).
Proof. intros E. unfold assignedExprs. keeps'. Qed.
#[local] Hint Resolve keeps_assignedExprs : keeps.

Lemma keeps_parseExprStmt_loop r n :
  KeepsEnv r -> forall exprs augmented,
    Keeps (parseExprStmt_loop r n exprs augmented).
Proof.
  intros E. induction n; intros exprs augmented;
    cbn [parseExprStmt_loop]; keeps'.
Qed.
#[local] Hint Resolve keeps_parseExprStmt_loop : keeps.

Lemma keeps_parseExprStmt r : KeepsEnv r -> Keeps (parseExprStmt r).
Proof. intros E. unfold parseExprStmt. keeps'. Qed.
#[local] Hint Resolve keeps_parseExprStmt : keeps.

Lemma keeps_parsePrintStmt r : KeepsEnv r -> Keeps (parsePrintStmt r).
Proof. intros E. unfold parsePrintStmt. keeps'. Qed.
#[local] Hint Resolve keeps_parsePrintStmt : keeps.

Lemma keeps_parseDelStmt r : KeepsEnv r -> Keeps (parseDelStmt r).
Proof. intros E. unfold parseDelStmt. keeps'. Qed.
#[local] Hint Resolve keeps_parseDelStmt : keeps.

Lemma keeps_parsePassStmt : Keeps parsePassStmt.
Proof. unfold parsePassStmt. keeps'. Qed.
#[local] Hint Resolve keeps_parsePassStmt : keeps.

Lemma keeps_parseContinueStmt : Keeps parseContinueStmt.
Proof. unfold parseContinueStmt. keeps'. Qed.
#[local] Hint Resolve keeps_parseContinueStmt : keeps.

Lemma keeps_parseBreakStmt : Keeps parseBreakStmt.
Proof. unfold parseBreakStmt. keeps'. Qed.
#[local] Hint Resolve keeps_parseBreakStmt : keeps.

Lemma keeps_parseYieldStmt r : KeepsEnv r -> Keeps (parseYieldStmt r).
Proof. intros E. unfold parseYieldStmt. keeps'. Qed.
#[local] Hint Resolve keeps_parseYieldStmt : keeps.

Lemma keeps_parseRaiseStmt r : KeepsEnv r -> Keeps (parseRaiseStmt r).
Proof. intros E. unfold parseRaiseStmt. keeps'. Qed.
#[local] Hint Resolve keeps_parseRaiseStmt : keeps.

Lemma keeps_parseReturnStmt r : KeepsEnv r -> Keeps (parseReturnStmt r).
Proof. intros E. unfold parseReturnStmt. keeps'. Qed.
#[local] Hint Resolve keeps_parseReturnStmt : keeps.

Lemma keeps_parseFlowStmt r : KeepsEnv r -> Keeps (parseFlowStmt r).
Proof. intros E. unfold parseFlowStmt. keeps'. Qed.
#[local] Hint Resolve keeps_parseFlowStmt : keeps.

Lemma keeps_parseSubImports_loop r n :
  KeepsEnv r -> forall selective decls,
    Keeps (parseSubImports_loop r n selective decls).
Proof.
  intros E. induction n; intros selective decls;
    cbn [parseSubImports_loop]; keeps'.
Qed.
#[local] Hint Resolve keeps_parseSubImports_loop : keeps.

Lemma keeps_parseSubImports r b : KeepsEnv r -> Keeps (parseSubImports r b).
Proof. intros E. unfold parseSubImports. keeps'. Qed.
#[local] Hint Resolve keeps_parseSubImports : keeps.

Lemma keeps_parseImportNames_loop r n :
  KeepsEnv r -> forall modules,
    Keeps (parseImportNames_loop r n modules).
Proof.
  intros E. induction n; intros modules;
    cbn [parseImportNames_loop]; keeps'.
Qed.
#[local] Hint Resolve keeps_parseImportNames_loop : keeps.

Lemma keeps_parseImportDots_loop n :
  forall wantName,
    Keeps (parseImportDots_loop n wantName).
Proof. induction n; intros wantName; cbn [parseImportDots_loop]; keeps'. Qed.
#[local] Hint Resolve keeps_parseImportDots_loop : keeps.

Lemma keeps_parseImportStmt r : KeepsEnv r -> Keeps (parseImportStmt r).
Proof. intros E. unfold parseImportStmt. keeps'. Qed.
#[local] Hint Resolve keeps_parseImportStmt : keeps.

Lemma keeps_parseGlobalNames_loop r n :
  KeepsEnv r -> forall decls,
    Keeps (parseGlobalNames_loop r n decls).
Proof.
  intros E. induction n; intros decls;
    cbn [parseGlobalNames_loop]; keeps'.
Qed.
#[local] Hint Resolve keeps_parseGlobalNames_loop : keeps.

Lemma keeps_parseGlobalStmt r : KeepsEnv r -> Keeps (parseGlobalStmt r).
Proof. intros E. unfold parseGlobalStmt. keeps'. Qed.
#[local] Hint Resolve keeps_parseGlobalStmt : keeps.

Lemma keeps_parseExecStmt r : KeepsEnv r -> Keeps (parseExecStmt r).
Proof. intros E. unfold parseExecStmt. keeps'. Qed.
#[local] Hint Resolve keeps_parseExecStmt : keeps.

Lemma keeps_parseAssertStmt r : KeepsEnv r -> Keeps (parseAssertStmt r).
Proof. intros E. unfold parseAssertStmt. keeps'. Qed.
#[local] Hint Resolve keeps_parseAssertStmt : keeps.

Lemma keeps_parseSmallStmt r : KeepsEnv r -> Keeps (parseSmallStmt r).
Proof. intros E. unfold parseSmallStmt. keeps'. Qed.
#[local] Hint Resolve keeps_parseSmallStmt : keeps.

Lemma keeps_parseSimpleStmt_loop r n :
  KeepsEnv r -> forall stmts,
    Keeps (parseSimpleStmt_loop r n stmts).
Proof.
  intros E. induction n; intros stmts;
    cbn [parseSimpleStmt_loop]; keeps'.
Qed.
#[local] Hint Resolve keeps_parseSimpleStmt_loop : keeps.

Lemma keeps_parseSimpleStmt r : KeepsEnv r -> Keeps (parseSimpleStmt r).
Proof. intros E. unfold parseSimpleStmt. keeps'. Qed.
#[local] Hint Resolve keeps_parseSimpleStmt : keeps.

Lemma keeps_parseSuite_loop r n :
  KeepsEnv r -> forall stmts,
    Keeps (parseSuite_loop r n stmts).
Proof. intros E. induction n; intros stmts; cbn [parseSuite_loop]; keeps'. Qed.
#[local] Hint Resolve keeps_parseSuite_loop : keeps.

Lemma keeps_parseSuite r : KeepsEnv r -> Keeps (parseSuite r).
Proof. intros E. unfold parseSuite. keeps'. Qed.
#[local] Hint Resolve keeps_parseSuite : keeps.

Lemma keeps_parseIfElseIfStmt r : KeepsEnv r -> Keeps (parseIfElseIfStmt r).
Proof. intros E. unfold parseIfElseIfStmt. keeps'. Qed.
#[local] Hint Resolve keeps_parseIfElseIfStmt : keeps.

Lemma keeps_parseIfStmt r : KeepsEnv r -> Keeps (parseIfStmt r).
Proof. intros E. unfold parseIfStmt. keeps'. Qed.
#[local] Hint Resolve keeps_parseIfStmt : keeps.

Lemma keeps_parseLoopElse r : KeepsEnv r -> Keeps (parseLoopElse r).
Proof. intros E. unfold parseLoopElse. keeps'. Qed.
#[local] Hint Resolve keeps_parseLoopElse : keeps.

Lemma keeps_parseWhileStmt r : KeepsEnv r -> Keeps (parseWhileStmt r).
Proof. intros E. unfold parseWhileStmt. keeps'. Qed.
#[local] Hint Resolve keeps_parseWhileStmt : keeps.

Lemma keeps_identDecls_loop r wrap exprs :
  forall decls, Keeps (identDecls_loop r wrap exprs decls).
Proof.
  induction exprs as [|[e|] rest IH]; intros decls; cbn [identDecls_loop];
    keeps'.
Qed.
#[local] Hint Resolve keeps_identDecls_loop : keeps.

Lemma keeps_identDecls r wrap exprs : Keeps (identDecls r wrap exprs).
Proof. unfold identDecls. keeps'. Qed.
#[local] Hint Resolve keeps_identDecls : keeps.

Lemma keeps_parseForStmt r : KeepsEnv r -> Keeps (parseForStmt r).
Proof. intros E. unfold parseForStmt. keeps'. Qed.
#[local] Hint Resolve keeps_parseForStmt : keeps.

Lemma keeps_parseCatchDecl r e : KeepsEnv r -> Keeps (parseCatchDecl r e).
Proof. intros E. unfold parseCatchDecl. keeps'. Qed.
#[local] Hint Resolve keeps_parseCatchDecl : keeps.

Lemma keeps_parseCatchClause r : KeepsEnv r -> Keeps (parseCatchClause r).
Proof. intros E. unfold parseCatchClause. keeps'. Qed.
#[local] Hint Resolve keeps_parseCatchClause : keeps.

Lemma keeps_parseTryStmt_loop r n :
  KeepsEnv r -> forall keyLoc stmt catchs seenElse,
    Keeps (parseTryStmt_loop r n keyLoc stmt catchs seenElse).
Proof.
  intros E. induction n; intros keyLoc stmt catchs seenElse;
    cbn [parseTryStmt_loop]; keeps'.
Qed.
#[local] Hint Resolve keeps_parseTryStmt_loop : keeps.

Lemma keeps_parseTryStmt r : KeepsEnv r -> Keeps (parseTryStmt r).
Proof. intros E. unfold parseTryStmt. keeps'. Qed.
#[local] Hint Resolve keeps_parseTryStmt : keeps.

Lemma keeps_parseWithItem r : KeepsEnv r -> Keeps (parseWithItem r).
Proof. intros E. unfold parseWithItem. keeps'. Qed.
#[local] Hint Resolve keeps_parseWithItem : keeps.

Lemma keeps_parseWithStmt r : KeepsEnv r -> Keeps (parseWithStmt r).
Proof. intros E. unfold parseWithStmt. keeps'. Qed.
#[local] Hint Resolve keeps_parseWithStmt : keeps.

Lemma keeps_parseFuncDef r : KeepsEnv r -> Keeps (parseFuncDef r).
Proof. intros E. unfold parseFuncDef. keeps'. Qed.
#[local] Hint Resolve keeps_parseFuncDef : keeps.

Lemma keeps_parseClassDef r : KeepsEnv r -> Keeps (parseClassDef r).
Proof. intros E. unfold parseClassDef. keeps'. Qed.
#[local] Hint Resolve keeps_parseClassDef : keeps.

Lemma keeps_parseDecorators_loop r n :
  KeepsEnv r -> Keeps (parseDecorators_loop r n).
Proof. intros E. induction n; cbn [parseDecorators_loop]; keeps'. Qed.
#[local] Hint Resolve keeps_parseDecorators_loop : keeps.

Lemma keeps_parseDecorated r : KeepsEnv r -> Keeps (parseDecorated r).
Proof. intros E. unfold parseDecorated. keeps'. Qed.
#[local] Hint Resolve keeps_parseDecorated : keeps.

Lemma keeps_parseStmt r : KeepsEnv r -> Keeps (parseStmt r).
Proof. intros E. unfold parseStmt. keeps'. Qed.
#[local] Hint Resolve keeps_parseStmt : keeps.

Lemma keeps_knot keep n : KeepsEnv (knot keep n).
Proof.
  induction n as [|n IH]; cbn [knot]; constructor; cbn;
    intros; eauto with keeps.
Qed.

Lemma keeps_parse_loop r n :
  KeepsEnv r -> forall stmts, Keeps (parse_loop r n stmts).
Proof.
  intros E. induction n; intros stmts; cbn [parse_loop]; keeps'.
Qed.


End Keeps.

(** *** The bound does not matter

    A member function that returns within a bound returns the same with any
    larger one. *)

Lemma refines_refl {A} (m : M A) : Refines m m.
Proof. intros s _. reflexivity. Qed.

Lemma refines_outOfFuel {A} (m : M A) : Refines outOfFuel m.
Proof. intros s H. now contradiction H. Qed.

Lemma refines_bind {A B} (m m' : M A) (k k' : A -> M B) :
  Refines m m' -> (forall a, Refines (k a) (k' a)) ->
  Refines (bind m k) (bind m' k').
Proof.
  intros Hm Hk s H. unfold bind in *.
  destruct (m s) as [a s1| |] eqn:E.
  - rewrite (Hm s) by (rewrite E; discriminate). rewrite E.
    apply Hk. exact H.
  - rewrite (Hm s) by (rewrite E; discriminate). now rewrite E.
  - now contradiction H.
Qed.

Create HintDb refines discriminated.
#[local] Hint Constants Opaque : refines.
#[local] Hint Transparent Name Expr Stmt Decl Spec ListCompre Precedence
  : refines.
#[local] Hint Resolve refines_refl refines_outOfFuel refines_fuel
  refines_rec_parseStmt refines_rec_parseIfElseIfStmt refines_rec_parseTest
  refines_rec_parseOldTest refines_rec_parseOrTest refines_rec_parseNotTest
  refines_rec_parseExpr refines_rec_parseBinaryExpr refines_rec_parseFactor
  refines_rec_parseStrLit refines_rec_parseCompFor refines_rec_parseCompIf
  refines_rec_parseListFor refines_rec_parseListIf : refines.

(** [Refines] of two terms of the same shape, by their structure. *)
Ltac refines_with higher :=
  repeat first
    [ assumption
    | match goal with
      | |- Refines (bind _ _) (bind _ _) =>
          apply refines_bind; [| intros ? ]
      | |- Refines (if ?b then _ else _) (if ?b then _ else _) => destruct b
      | |- Refines (match ?x with _ => _ end) (match ?x with _ => _ end) =>
          destruct x
      end
    | higher
    | solve [eauto with refines] ].

(** The two environments add to lists in the same way. *)
Ltac same_lists E :=
  unfold addGen, addFilterToBack, addToList;
  rewrite ?(refines_keepNull E); cbv zeta.

Ltac refines0 := refines_with fail.

Lemma refines_skipTo_loop n : forall n' tk,
  n <= n' -> Refines (skipTo_loop n tk) (skipTo_loop n' tk).
Proof.
  induction n; intros n' tk L; (destruct n'; [try lia|]);
    cbn [skipTo_loop]; refines0.
  all: try (apply IHn; lia).
Qed.
#[local] Hint Resolve refines_skipTo_loop : refines.

Lemma refines_skipTo r r' tk :
  RefinesEnv r r' -> Refines (skipTo r tk) (skipTo r' tk).
Proof. intros E. unfold skipTo. refines0. Qed.
#[local] Hint Resolve refines_skipTo : refines.

Lemma refines_matchOrSkipTo r r' tk :
  RefinesEnv r r' -> Refines (matchOrSkipTo r tk) (matchOrSkipTo r' tk).
Proof. intros E. unfold matchOrSkipTo. refines0. Qed.
#[local] Hint Resolve refines_matchOrSkipTo : refines.

Lemma refines_parseList_loop {A} r r' n tk check (pf pf' : M (option A)) ok :
  RefinesEnv r r' -> Refines pf pf' ->
  forall n' lst, n <= n' ->
    Refines (parseList_loop r n tk check pf ok lst)
            (parseList_loop r' n' tk check pf' ok lst).
Proof.
  intros E Hp. induction n; intros n' lst L; (destruct n'; [try lia|]);
    cbn [parseList_loop]; same_lists E; refines0.
  all: try (apply IHn; lia).
Qed.
#[local] Hint Resolve refines_parseList_loop : refines.

Lemma refines_parseList {A} r r' tk check (pf pf' : M (option A)) ok :
  RefinesEnv r r' -> Refines pf pf' ->
  Refines (parseList r tk check pf ok) (parseList r' tk check pf' ok).
Proof. intros E Hp. unfold parseList. same_lists E. refines0. Qed.
#[local] Hint Resolve refines_parseList : refines.

Lemma refines_onCompre {A} lc (k k' : ListCompreExprAst -> M A) :
  (forall x, Refines (k x) (k' x)) -> Refines (onCompre lc k) (onCompre lc k').
Proof. intros Hk. unfold onCompre. refines0. Qed.

Lemma refines_completeWrapped r r' f f' :
  RefinesEnv r r' -> Refines f f' ->
  Refines (completeWrapped r f) (completeWrapped r' f').
Proof. intros E Hk. unfold completeWrapped. refines0. Qed.

Lemma refines_completeUnaryExpr k f f' :
  Refines f f' -> Refines (completeUnaryExpr k f) (completeUnaryExpr k f').
Proof. intros Hk. unfold completeUnaryExpr. refines0. Qed.

Lemma refines_completeBinaryExpr k e f f' :
  Refines f f' ->
  Refines (completeBinaryExpr k e f) (completeBinaryExpr k e f').
Proof. intros Hk. unfold completeBinaryExpr. refines0. Qed.

Lemma refines_completeAssignExpr e f f' :
  Refines f f' -> Refines (completeAssignExpr e f) (completeAssignExpr e f').
Proof. intros Hk. unfold completeAssignExpr. refines0. Qed.

Lemma refines_completeListCompre lc g g' f f' :
  (forall x, Refines (g x) (g' x)) -> (forall x, Refines (f x) (f' x)) ->
  Refines (completeListCompre lc g f) (completeListCompre lc g' f').
Proof. intros Hg Hf. unfold completeListCompre. refines0. Qed.

(** The functions that take a parser as argument ask for [Refines] of it. *)
Ltac refines_higher :=
  idtac;
  match goal with
  | |- Refines (onCompre _ _) (onCompre _ _) =>
      apply refines_onCompre; intros ?
  | |- Refines (completeWrapped _ _) (completeWrapped _ _) =>
      apply refines_completeWrapped; [assumption|]
  | |- Refines (completeUnaryExpr _ _) (completeUnaryExpr _ _) =>
      apply refines_completeUnaryExpr
  | |- Refines (completeBinaryExpr _ _ _) (completeBinaryExpr _ _ _) =>
      apply refines_completeBinaryExpr
  | |- Refines (completeAssignExpr _ _) (completeAssignExpr _ _) =>
      apply refines_completeAssignExpr
  | |- Refines (completeListCompre _ _ _) (completeListCompre _ _ _) =>
      apply refines_completeListCompre; intros ?
  | |- Refines (parseList _ _ _ _ _) (parseList _ _ _ _ _) =>
      apply refines_parseList; [assumption|]
  end.

Ltac refines := refines_with refines_higher.


Lemma refines_parseDottedName r r' :
  RefinesEnv r r' -> Refines (parseDottedName r) (parseDottedName r').
Proof. intros E. unfold parseDottedName. same_lists E. refines. Qed.
#[local] Hint Resolve refines_parseDottedName : refines.

Lemma refines_parseStrLit r r' :
  RefinesEnv r r' -> Refines (parseStrLit r) (parseStrLit r').
Proof. intros E. unfold parseStrLit. same_lists E. refines. Qed.
#[local] Hint Resolve refines_parseStrLit : refines.

Lemma refines_parseExprList r r' :
  RefinesEnv r r' -> Refines (parseExprList r) (parseExprList r').
Proof. intros E. unfold parseExprList. same_lists E. refines. Qed.
#[local] Hint Resolve refines_parseExprList : refines.

Lemma refines_parseTestList r r' :
  RefinesEnv r r' -> Refines (parseTestList r) (parseTestList r').
Proof. intros E. unfold parseTestList. same_lists E. refines. Qed.
#[local] Hint Resolve refines_parseTestList : refines.

Lemma refines_parseTestList1 r r' :
  RefinesEnv r r' -> Refines (parseTestList1 r) (parseTestList1 r').
Proof. intros E. unfold parseTestList1. same_lists E. refines. Qed.
#[local] Hint Resolve refines_parseTestList1 : refines.

Lemma refines_parseTestListSafe r r' :
  RefinesEnv r r' -> Refines (parseTestListSafe r) (parseTestListSafe r').
Proof. intros E. unfold parseTestListSafe. same_lists E. refines. Qed.
#[local] Hint Resolve refines_parseTestListSafe : refines.

Lemma refines_parseYieldExpr r r' :
  RefinesEnv r r' -> Refines (parseYieldExpr r) (parseYieldExpr r').
Proof. intros E. unfold parseYieldExpr. same_lists E. refines. Qed.
#[local] Hint Resolve refines_parseYieldExpr : refines.

Lemma refines_completeParam r r' g :
  RefinesEnv r r' -> Refines (completeParam r g) (completeParam r' g).
Proof. intros E. unfold completeParam. same_lists E. refines. Qed.
#[local] Hint Resolve refines_completeParam : refines.

Lemma refines_parseVarArgsList_loop r r' n :
  RefinesEnv r r' ->
  forall n' seenStar decls, n <= n' ->
    Refines (parseVarArgsList_loop r n seenStar decls)
            (parseVarArgsList_loop r' n' seenStar decls).
Proof.
  intros E. induction n; intros n' seenStar decls L; (destruct n'; [try lia|]);
    cbn [parseVarArgsList_loop]; same_lists E; refines.
  all: try (apply IHn; lia).
Qed.
#[local] Hint Resolve refines_parseVarArgsList_loop : refines.

Lemma refines_parseVarArgsList r r' b :
  RefinesEnv r r' -> Refines (parseVarArgsList r b) (parseVarArgsList r' b).
Proof. intros E. unfold parseVarArgsList. same_lists E. refines. Qed.
#[local] Hint Resolve refines_parseVarArgsList : refines.

Lemma refines_parseLambdaCore r r' f f' :
  RefinesEnv r r' -> Refines f f' ->
  Refines (parseLambdaCore r f) (parseLambdaCore r' f').
Proof. intros E Hf. unfold parseLambdaCore. same_lists E. refines. Qed.
#[local] Hint Resolve refines_parseLambdaCore : refines.

Lemma refines_parseLambdaDef r r' :
  RefinesEnv r r' -> Refines (parseLambdaDef r) (parseLambdaDef r').
Proof. intros E. unfold parseLambdaDef. same_lists E. refines. Qed.
#[local] Hint Resolve refines_parseLambdaDef : refines.

Lemma refines_parseOldLambdaDef r r' :
  RefinesEnv r r' -> Refines (parseOldLambdaDef r) (parseOldLambdaDef r').
Proof. intros E. unfold parseOldLambdaDef. same_lists E. refines. Qed.
#[local] Hint Resolve refines_parseOldLambdaDef : refines.

Lemma refines_parseCompFor r r' lc :
  RefinesEnv r r' -> Refines (parseCompFor r lc) (parseCompFor r' lc).
Proof. intros E. unfold parseCompFor. same_lists E. refines. Qed.
#[local] Hint Resolve refines_parseCompFor : refines.

Lemma refines_parseListFor r r' lc :
  RefinesEnv r r' -> Refines (parseListFor r lc) (parseListFor r' lc).
Proof. intros E. unfold parseListFor. same_lists E. refines. Qed.
#[local] Hint Resolve refines_parseListFor : refines.

Lemma refines_parseListOrCompIf r r' lc g g' f f' :
  RefinesEnv r r' ->
  (forall x, Refines (g x) (g' x)) -> (forall x, Refines (f x) (f' x)) ->
  Refines (parseListOrCompIf r lc g f) (parseListOrCompIf r' lc g' f').
Proof. intros E Hg Hf. unfold parseListOrCompIf. same_lists E. refines. Qed.
#[local] Hint Resolve refines_parseListOrCompIf : refines.

Lemma refines_parseCompIf r r' lc :
  RefinesEnv r r' -> Refines (parseCompIf r lc) (parseCompIf r' lc).
Proof. intros E. unfold parseCompIf. same_lists E. refines. Qed.
#[local] Hint Resolve refines_parseCompIf : refines.

Lemma refines_parseListIf r r' lc :
  RefinesEnv r r' -> Refines (parseListIf r lc) (parseListIf r' lc).
Proof. intros E. unfold parseListIf. same_lists E. refines. Qed.
#[local] Hint Resolve refines_parseListIf : refines.

Lemma refines_parseWrappedOrTuple r r' :
  RefinesEnv r r' -> Refines (parseWrappedOrTuple r) (parseWrappedOrTuple r').
Proof. intros E. unfold parseWrappedOrTuple. same_lists E. refines. Qed.
#[local] Hint Resolve refines_parseWrappedOrTuple : refines.

Lemma refines_parseListMaker r r' :
  RefinesEnv r r' -> Refines (parseListMaker r) (parseListMaker r').
Proof. intros E. unfold parseListMaker. same_lists E. refines. Qed.
#[local] Hint Resolve refines_parseListMaker : refines.

Lemma refines_parseDictItems_loop r r' n :
  RefinesEnv r r' ->
  forall n' inits, n <= n' ->
    Refines (parseDictItems_loop r n inits) (parseDictItems_loop r' n' inits).
Proof.
  intros E. induction n; intros n' inits L; (destruct n'; [try lia|]);
    cbn [parseDictItems_loop]; same_lists E; refines.
  all: try (apply IHn; lia).
Qed.
#[local] Hint Resolve refines_parseDictItems_loop : refines.

Lemma refines_parseDictOrSetMaker r r' :
  RefinesEnv r r' -> Refines (parseDictOrSetMaker r) (parseDictOrSetMaker r').
Proof. intros E. unfold parseDictOrSetMaker. same_lists E. refines. Qed.
#[local] Hint Resolve refines_parseDictOrSetMaker : refines.

Lemma refines_parseAtom r r' :
  RefinesEnv r r' -> Refines (parseAtom r) (parseAtom r').
Proof. intros E. unfold parseAtom. same_lists E. refines. Qed.
#[local] Hint Resolve refines_parseAtom : refines.

Lemma refines_completeSubrangeExpr r r' e :
  RefinesEnv r r' ->
  Refines (completeSubrangeExpr r e) (completeSubrangeExpr r' e).
Proof. intros E. unfold completeSubrangeExpr. same_lists E. refines. Qed.
#[local] Hint Resolve refines_completeSubrangeExpr : refines.

Lemma refines_parseSubscript r r' :
  RefinesEnv r r' -> Refines (parseSubscript r) (parseSubscript r').
Proof. intros E. unfold parseSubscript. same_lists E. refines. Qed.
#[local] Hint Resolve refines_parseSubscript : refines.

Lemma refines_parseSubscriptList r r' :
  RefinesEnv r r' -> Refines (parseSubscriptList r) (parseSubscriptList r').
Proof. intros E. unfold parseSubscriptList. same_lists E. refines. Qed.
#[local] Hint Resolve refines_parseSubscriptList : refines.

Lemma refines_parseArg r r' :
  RefinesEnv r r' -> Refines (parseArg r) (parseArg r').
Proof. intros E. unfold parseArg. same_lists E. refines. Qed.
#[local] Hint Resolve refines_parseArg : refines.

Lemma refines_parseUnpack r r' :
  RefinesEnv r r' -> Refines (parseUnpack r) (parseUnpack r').
Proof. intros E. unfold parseUnpack. same_lists E. refines. Qed.
#[local] Hint Resolve refines_parseUnpack : refines.

Lemma refines_parseArgList r r' :
  RefinesEnv r r' -> Refines (parseArgList r) (parseArgList r').
Proof. intros E. unfold parseArgList. same_lists E. refines. Qed.
#[local] Hint Resolve refines_parseArgList : refines.

Lemma refines_parsePower_loop r r' n :
  RefinesEnv r r' ->
  forall n' atom, n <= n' ->
    Refines (parsePower_loop r n atom) (parsePower_loop r' n' atom).
Proof.
  intros E. induction n; intros n' atom L; (destruct n'; [try lia|]);
    cbn [parsePower_loop]; same_lists E; refines.
  all: try (apply IHn; lia).
Qed.
#[local] Hint Resolve refines_parsePower_loop : refines.

Lemma refines_parsePower r r' :
  RefinesEnv r r' -> Refines (parsePower r) (parsePower r').
Proof. intros E. unfold parsePower. same_lists E. refines. Qed.
#[local] Hint Resolve refines_parsePower : refines.

Lemma refines_parseFactor r r' :
  RefinesEnv r r' -> Refines (parseFactor r) (parseFactor r').
Proof. intros E. unfold parseFactor. same_lists E. refines. Qed.
#[local] Hint Resolve refines_parseFactor : refines.

Lemma refines_parseBinaryExpr_loop r r' n :
  RefinesEnv r r' ->
  forall n' curPrec factor, n <= n' ->
    Refines (parseBinaryExpr_loop r n curPrec factor)
            (parseBinaryExpr_loop r' n' curPrec factor).
Proof.
  intros E. induction n; intros n' curPrec factor L; (destruct n'; [try lia|]);
    cbn [parseBinaryExpr_loop]; same_lists E; refines.
  all: try (apply IHn; lia).
Qed.
#[local] Hint Resolve refines_parseBinaryExpr_loop : refines.

Lemma refines_parseBinaryExpr r r' p :
  RefinesEnv r r' -> Refines (parseBinaryExpr r p) (parseBinaryExpr r' p).
Proof. intros E. unfold parseBinaryExpr. same_lists E. refines. Qed.
#[local] Hint Resolve refines_parseBinaryExpr : refines.

Lemma refines_parseExpr r r' :
  RefinesEnv r r' -> Refines (parseExpr r) (parseExpr r').
Proof. intros E. unfold parseExpr. same_lists E. refines. Qed.
#[local] Hint Resolve refines_parseExpr : refines.

Lemma refines_parseComparison_loop r r' n :
  RefinesEnv r r' ->
  forall n' expr, n <= n' ->
    Refines (parseComparison_loop r n expr) (parseComparison_loop r' n' expr).
Proof.
  intros E. induction n; intros n' expr L; (destruct n'; [try lia|]);
    cbn [parseComparison_loop]; same_lists E; refines.
  all: try (apply IHn; lia).
Qed.
#[local] Hint Resolve refines_parseComparison_loop : refines.

Lemma refines_parseComparison r r' :
  RefinesEnv r r' -> Refines (parseComparison r) (parseComparison r').
Proof. intros E. unfold parseComparison. same_lists E. refines. Qed.
#[local] Hint Resolve refines_parseComparison : refines.

Lemma refines_parseNotTest r r' :
  RefinesEnv r r' -> Refines (parseNotTest r) (parseNotTest r').
Proof. intros E. unfold parseNotTest. same_lists E. refines. Qed.
#[local] Hint Resolve refines_parseNotTest : refines.

Lemma refines_parseAndTest_loop r r' n :
  RefinesEnv r r' ->
  forall n' e, n <= n' ->
    Refines (parseAndTest_loop r n e) (parseAndTest_loop r' n' e).
Proof.
  intros E. induction n; intros n' e L; (destruct n'; [try lia|]);
    cbn [parseAndTest_loop]; same_lists E; refines.
  all: try (apply IHn; lia).
Qed.
#[local] Hint Resolve refines_parseAndTest_loop : refines.

Lemma refines_parseAndTest r r' :
  RefinesEnv r r' -> Refines (parseAndTest r) (parseAndTest r').
Proof. intros E. unfold parseAndTest. same_lists E. refines. Qed.
#[local] Hint Resolve refines_parseAndTest : refines.

Lemma refines_parseOrTest_loop r r' n :
  RefinesEnv r r' ->
  forall n' e, n <= n' ->
    Refines (parseOrTest_loop r n e) (parseOrTest_loop r' n' e).
Proof.
  intros E. induction n; intros n' e L; (destruct n'; [try lia|]);
    cbn [parseOrTest_loop]; same_lists E; refines.
  all: try (apply IHn; lia).
Qed.
#[local] Hint Resolve refines_parseOrTest_loop : refines.

Lemma refines_parseOrTest r r' :
  RefinesEnv r r' -> Refines (parseOrTest r) (parseOrTest r').
Proof. intros E. unfold parseOrTest. same_lists E. refines. Qed.
#[local] Hint Resolve refines_parseOrTest : refines.

Lemma refines_parseTest r r' :
  RefinesEnv r r' -> Refines (parseTest r) (parseTest r').
Proof. intros E. unfold parseTest. same_lists E. refines. Qed.
#[local] Hint Resolve refines_parseTest : refines.

Lemma refines_parseOldTest r r' :
  RefinesEnv r r' -> Refines (parseOldTest r) (parseOldTest r').
Proof. intros E. unfold parseOldTest. same_lists E. refines. Qed.
#[local] Hint Resolve refines_parseOldTest : refines.

Lemma refines_assignedExprs r r' :
  RefinesEnv r r' -> Refines (assignedExprs r) (assignedExprs r').
Proof. intros E. unfold assignedExprs. same_lists E. refines. Qed.
#[local] Hint Resolve refines_assignedExprs : refines.

Lemma refines_parseExprStmt_loop r r' n :
  RefinesEnv r r' ->
  forall n' exprs augmented, n <= n' ->
    Refines (parseExprStmt_loop r n exprs augmented)
            (parseExprStmt_loop r' n' exprs augmented).
Proof.
  intros E. induction n; intros n' exprs augmented L; (destruct n'; [try lia|]);
    cbn [parseExprStmt_loop]; same_lists E; refines.
  all: try (apply IHn; lia).
Qed.
#[local] Hint Resolve refines_parseExprStmt_loop : refines.

Lemma refines_parseExprStmt r r' :
  RefinesEnv r r' -> Refines (parseExprStmt r) (parseExprStmt r').
Proof. intros E. unfold parseExprStmt. same_lists E. refines. Qed.
#[local] Hint Resolve refines_parseExprStmt : refines.

Lemma refines_parsePrintStmt r r' :
  RefinesEnv r r' -> Refines (parsePrintStmt r) (parsePrintStmt r').
Proof. intros E. unfold parsePrintStmt. same_lists E. refines. Qed.
#[local] Hint Resolve refines_parsePrintStmt : refines.

Lemma refines_parseDelStmt r r' :
  RefinesEnv r r' -> Refines (parseDelStmt r) (parseDelStmt r').
Proof. intros E. unfold parseDelStmt. same_lists E. refines. Qed.
#[local] Hint Resolve refines_parseDelStmt : refines.

Lemma refines_parseYieldStmt r r' :
  RefinesEnv r r' -> Refines (parseYieldStmt r) (parseYieldStmt r').
Proof. intros E. unfold parseYieldStmt. same_lists E. refines. Qed.
#[local] Hint Resolve refines_parseYieldStmt : refines.

Lemma refines_parseRaiseStmt r r' :
  RefinesEnv r r' -> Refines (parseRaiseStmt r) (parseRaiseStmt r').
Proof. intros E. unfold parseRaiseStmt. same_lists E. refines. Qed.
#[local] Hint Resolve refines_parseRaiseStmt : refines.

Lemma refines_parseReturnStmt r r' :
  RefinesEnv r r' -> Refines (parseReturnStmt r) (parseReturnStmt r').
Proof. intros E. unfold parseReturnStmt. same_lists E. refines. Qed.
#[local] Hint Resolve refines_parseReturnStmt : refines.

Lemma refines_parseFlowStmt r r' :
  RefinesEnv r r' -> Refines (parseFlowStmt r) (parseFlowStmt r').
Proof. intros E. unfold parseFlowStmt. same_lists E. refines. Qed.
#[local] Hint Resolve refines_parseFlowStmt : refines.

Lemma refines_parseSubImports_loop r r' n :
  RefinesEnv r r' ->
  forall n' selective decls, n <= n' ->
    Refines (parseSubImports_loop r n selective decls)
            (parseSubImports_loop r' n' selective decls).
Proof.
  intros E. induction n; intros n' selective decls L; (destruct n'; [try lia|]);
    cbn [parseSubImports_loop]; same_lists E; refines.
  all: try (apply IHn; lia).
Qed.
#[local] Hint Resolve refines_parseSubImports_loop : refines.

Lemma refines_parseSubImports r r' b :
  RefinesEnv r r' -> Refines (parseSubImports r b) (parseSubImports r' b).
Proof. intros E. unfold parseSubImports. same_lists E. refines. Qed.
#[local] Hint Resolve refines_parseSubImports : refines.

Lemma refines_parseImportNames_loop r r' n :
  RefinesEnv r r' ->
  forall n' modules, n <= n' ->
    Refines (parseImportNames_loop r n modules)
            (parseImportNames_loop r' n' modules).
Proof.
  intros E. induction n; intros n' modules L; (destruct n'; [try lia|]);
    cbn [parseImportNames_loop]; same_lists E; refines.
  all: try (apply IHn; lia).
Qed.
#[local] Hint Resolve refines_parseImportNames_loop : refines.

Lemma refines_parseImportDots_loop n :
  forall n' wantName, n <= n' ->
    Refines (parseImportDots_loop n wantName)
            (parseImportDots_loop n' wantName).
Proof.
  induction n; intros n' wantName L; (destruct n'; [try lia|]);
    cbn [parseImportDots_loop]; refines.
  all: try (apply IHn; lia).
Qed.
#[local] Hint Resolve refines_parseImportDots_loop : refines.

Lemma refines_parseImportStmt r r' :
  RefinesEnv r r' -> Refines (parseImportStmt r) (parseImportStmt r').
Proof. intros E. unfold parseImportStmt. same_lists E. refines. Qed.
#[local] Hint Resolve refines_parseImportStmt : refines.

Lemma refines_parseGlobalNames_loop r r' n :
  RefinesEnv r r' ->
  forall n' decls, n <= n' ->
    Refines (parseGlobalNames_loop r n decls)
            (parseGlobalNames_loop r' n' decls).
Proof.
  intros E. induction n; intros n' decls L; (destruct n'; [try lia|]);
    cbn [parseGlobalNames_loop]; same_lists E; refines.
  all: try (apply IHn; lia).
Qed.
#[local] Hint Resolve refines_parseGlobalNames_loop : refines.

Lemma refines_parseGlobalStmt r r' :
  RefinesEnv r r' -> Refines (parseGlobalStmt r) (parseGlobalStmt r').
Proof. intros E. unfold parseGlobalStmt. same_lists E. refines. Qed.
#[local] Hint Resolve refines_parseGlobalStmt : refines.

Lemma refines_parseExecStmt r r' :
  RefinesEnv r r' -> Refines (parseExecStmt r) (parseExecStmt r').
Proof. intros E. unfold parseExecStmt. same_lists E. refines. Qed.
#[local] Hint Resolve refines_parseExecStmt : refines.

Lemma refines_parseAssertStmt r r' :
  RefinesEnv r r' -> Refines (parseAssertStmt r) (parseAssertStmt r').
Proof. intros E. unfold parseAssertStmt. same_lists E. refines. Qed.
#[local] Hint Resolve refines_parseAssertStmt : refines.

Lemma refines_parseSmallStmt r r' :
  RefinesEnv r r' -> Refines (parseSmallStmt r) (parseSmallStmt r').
Proof. intros E. unfold parseSmallStmt. same_lists E. refines. Qed.
#[local] Hint Resolve refines_parseSmallStmt : refines.

Lemma refines_parseSimpleStmt_loop r r' n :
  RefinesEnv r r' ->
  forall n' stmts, n <= n' ->
    Refines (parseSimpleStmt_loop r n stmts) (parseSimpleStmt_loop r' n' stmts).
Proof.
  intros E. induction n; intros n' stmts L; (destruct n'; [try lia|]);
    cbn [parseSimpleStmt_loop]; same_lists E; refines.
  all: try (apply IHn; lia).
Qed.
#[local] Hint Resolve refines_parseSimpleStmt_loop : refines.

Lemma refines_parseSimpleStmt r r' :
  RefinesEnv r r' -> Refines (parseSimpleStmt r) (parseSimpleStmt r').
Proof. intros E. unfold parseSimpleStmt. same_lists E. refines. Qed.
#[local] Hint Resolve refines_parseSimpleStmt : refines.

Lemma refines_parseSuite_loop r r' n :
  RefinesEnv r r' ->
  forall n' stmts, n <= n' ->
    Refines (parseSuite_loop r n stmts) (parseSuite_loop r' n' stmts).
Proof.
  intros E. induction n; intros n' stmts L; (destruct n'; [try lia|]);
    cbn [parseSuite_loop]; same_lists E; refines.
  all: try (apply IHn; lia).
Qed.
#[local] Hint Resolve refines_parseSuite_loop : refines.

Lemma refines_parseSuite r r' :
  RefinesEnv r r' -> Refines (parseSuite r) (parseSuite r').
Proof. intros E. unfold parseSuite. same_lists E. refines. Qed.
#[local] Hint Resolve refines_parseSuite : refines.

Lemma refines_parseIfElseIfStmt r r' :
  RefinesEnv r r' -> Refines (parseIfElseIfStmt r) (parseIfElseIfStmt r').
Proof. intros E. unfold parseIfElseIfStmt. same_lists E. refines. Qed.
#[local] Hint Resolve refines_parseIfElseIfStmt : refines.

Lemma refines_parseIfStmt r r' :
  RefinesEnv r r' -> Refines (parseIfStmt r) (parseIfStmt r').
Proof. intros E. unfold parseIfStmt. same_lists E. refines. Qed.
#[local] Hint Resolve refines_parseIfStmt : refines.

Lemma refines_parseLoopElse r r' :
  RefinesEnv r r' -> Refines (parseLoopElse r) (parseLoopElse r').
Proof. intros E. unfold parseLoopElse. same_lists E. refines. Qed.
#[local] Hint Resolve refines_parseLoopElse : refines.

Lemma refines_parseWhileStmt r r' :
  RefinesEnv r r' -> Refines (parseWhileStmt r) (parseWhileStmt r').
Proof. intros E. unfold parseWhileStmt. same_lists E. refines. Qed.
#[local] Hint Resolve refines_parseWhileStmt : refines.

Lemma refines_identDecls_loop r r' wrap exprs :
  RefinesEnv r r' ->
  forall decls, Refines (identDecls_loop r wrap exprs decls)
                        (identDecls_loop r' wrap exprs decls).
Proof.
  intros E. induction exprs as [|[e|] rest IH]; intros decls;
    cbn [identDecls_loop]; same_lists E; refines.
Qed.
#[local] Hint Resolve refines_identDecls_loop : refines.

Lemma refines_identDecls r r' wrap exprs :
  RefinesEnv r r' ->
  Refines (identDecls r wrap exprs) (identDecls r' wrap exprs).
Proof. intros E. unfold identDecls. refines. Qed.
#[local] Hint Resolve refines_identDecls : refines.

Lemma refines_parseForStmt r r' :
  RefinesEnv r r' -> Refines (parseForStmt r) (parseForStmt r').
Proof. intros E. unfold parseForStmt. same_lists E. refines. Qed.
#[local] Hint Resolve refines_parseForStmt : refines.

Lemma refines_parseCatchDecl r r' e :
  RefinesEnv r r' -> Refines (parseCatchDecl r e) (parseCatchDecl r' e).
Proof. intros E. unfold parseCatchDecl. same_lists E. refines. Qed.
#[local] Hint Resolve refines_parseCatchDecl : refines.

Lemma refines_parseCatchClause r r' :
  RefinesEnv r r' -> Refines (parseCatchClause r) (parseCatchClause r').
Proof. intros E. unfold parseCatchClause. same_lists E. refines. Qed.
#[local] Hint Resolve refines_parseCatchClause : refines.

Lemma refines_parseTryStmt_loop r r' n :
  RefinesEnv r r' ->
  forall n' keyLoc stmt catchs seenElse, n <= n' ->
    Refines (parseTryStmt_loop r n keyLoc stmt catchs seenElse)
            (parseTryStmt_loop r' n' keyLoc stmt catchs seenElse).
Proof.
  intros E. induction n; intros n' keyLoc stmt catchs seenElse L;
    (destruct n'; [try lia|]);
    cbn [parseTryStmt_loop]; same_lists E; refines.
  all: try (apply IHn; lia).
Qed.
#[local] Hint Resolve refines_parseTryStmt_loop : refines.

Lemma refines_parseTryStmt r r' :
  RefinesEnv r r' -> Refines (parseTryStmt r) (parseTryStmt r').
Proof. intros E. unfold parseTryStmt. same_lists E. refines. Qed.
#[local] Hint Resolve refines_parseTryStmt : refines.

Lemma refines_parseWithItem r r' :
  RefinesEnv r r' -> Refines (parseWithItem r) (parseWithItem r').
Proof. intros E. unfold parseWithItem. same_lists E. refines. Qed.
#[local] Hint Resolve refines_parseWithItem : refines.

Lemma refines_parseWithStmt r r' :
  RefinesEnv r r' -> Refines (parseWithStmt r) (parseWithStmt r').
Proof. intros E. unfold parseWithStmt. same_lists E. refines. Qed.
#[local] Hint Resolve refines_parseWithStmt : refines.

Lemma refines_parseFuncDef r r' :
  RefinesEnv r r' -> Refines (parseFuncDef r) (parseFuncDef r').
Proof. intros E. unfold parseFuncDef. same_lists E. refines. Qed.
#[local] Hint Resolve refines_parseFuncDef : refines.

Lemma refines_parseClassDef r r' :
  RefinesEnv r r' -> Refines (parseClassDef r) (parseClassDef r').
Proof. intros E. unfold parseClassDef. same_lists E. refines. Qed.
#[local] Hint Resolve refines_parseClassDef : refines.

Lemma refines_parseDecorators_loop r r' n :
  RefinesEnv r r' ->
  forall n', n <= n' ->
    Refines (parseDecorators_loop r n) (parseDecorators_loop r' n').
Proof.
  intros E. induction n; intros n' L; (destruct n'; [try lia|]);
    cbn [parseDecorators_loop]; same_lists E; refines.
  all: try (apply IHn; lia).
Qed.
#[local] Hint Resolve refines_parseDecorators_loop : refines.

Lemma refines_parseDecorated r r' :
  RefinesEnv r r' -> Refines (parseDecorated r) (parseDecorated r').
Proof. intros E. unfold parseDecorated. same_lists E. refines. Qed.
#[local] Hint Resolve refines_parseDecorated : refines.

Lemma refines_parseStmt r r' :
  RefinesEnv r r' -> Refines (parseStmt r) (parseStmt r').
Proof. intros E. unfold parseStmt. same_lists E. refines. Qed.
#[local] Hint Resolve refines_parseStmt : refines.

Lemma refines_knot keep n : forall n', n <= n' ->
  RefinesEnv (knot keep n) (knot keep n').
Proof.
  induction n as [|n IH]; intros n' L.
  - destruct n'; constructor; cbn; intros; auto using refines_outOfFuel;
      try lia; apply refines_refl.
  - destruct n' as [|n']; [lia|].
    assert (E : RefinesEnv (knot keep n) (knot keep n')) by (apply IH; lia).
    cbn [knot]. constructor; cbn; intros; eauto with refines; lia.
Qed.

Lemma refines_parse_loop r r' n :
  RefinesEnv r r' ->
  forall n' stmts, n <= n' ->
    Refines (parse_loop r n stmts) (parse_loop r' n' stmts).
Proof.
  intros E. induction n; intros n' stmts L; destruct n';
    cbn [parse_loop]; same_lists E; refines; try lia.
  all: try (apply IHn; lia).
Qed.

Lemma knot_more (keep : bool) (n k : nat) :
  RefinesEnv (knot keep n) (knot keep (n + k)).
Proof. apply refines_knot. lia. Qed.

(** What a member function returns within the bound [n], it returns
    within [n + k]. *)
Lemma more_fuel {A} (f : Env -> M A) (keep : bool) (n k : nat) (s s' : t)
      (a : A) :
  (forall r r', RefinesEnv r r' -> Refines (f r) (f r')) ->
  f (knot keep n) s = Ok a s' ->
  f (knot keep (n + k)) s = Ok a s'.
Proof.
  intros Hf H. rewrite <- H. apply (Hf _ _ (knot_more keep n k)).
  rewrite H. discriminate.
Qed.

Lemma valueOf_Some {A} (x : Res A) (a : A) :
  valueOf x = Some a -> exists s, x = Ok a s.
Proof.
  destruct x as [a' s| |]; try discriminate. intros H. injection H as ->.
  now exists s.
Qed.

Lemma valueOf_more {A} (f : Env -> M A) (keep : bool) (n k : nat) (s : t)
      (a : A) :
  (forall r r', RefinesEnv r r' -> Refines (f r) (f r')) ->
  valueOf (f (knot keep n) s) = Some a ->
  valueOf (f (knot keep (n + k)) s) = Some a.
Proof.
  intros Hf H. apply valueOf_Some in H. destruct H as [s' H].
  now rewrite (more_fuel f keep n k s Hf H).
Qed.

Lemma parse_more_fuel (keep : bool) (n k : nat) (self : t)
      (lexer : option TokenSource.t) (context : option ParsingContext.t)
      (b : bool) (s' : t) :
  parse (knot keep n) self lexer context = Ok b s' ->
  parse (knot keep (n + k)) self lexer context = Ok b s'.
Proof.
  unfold parse. destruct lexer as [lexer|]; [|easy].
  destruct context as [context|]; [|easy].
  destruct (ParsingContext.fileName context); [|easy].
  cbv zeta. intros H. rewrite <- H.
  assert (R : Refines
                (consumeToken ;;;
                 stmts <- parse_loop (knot keep n) (fuel (knot keep n)) [] ;;
                 match stmts with
                 | [] => ret false
                 | _ => takeAst (mkProgram stmts) ;;; ret true
                 end)
                (consumeToken ;;;
                 stmts <- parse_loop (knot keep (n + k))
                                     (fuel (knot keep (n + k))) [] ;;
                 match stmts with
                 | [] => ret false
                 | _ => takeAst (mkProgram stmts) ;;; ret true
                 end)).
  { apply refines_bind; [apply refines_refl|]. intros _.
    apply refines_bind; [|intros stmts; apply refines_refl].
    apply refines_parse_loop; [apply knot_more|].
    rewrite !fuel_knot. lia. }
  apply R. rewrite H. discriminate.
Qed.

(** *** Binary operators *)

(** The shape of every chain [NAME op1 NAME op2 NAME]: the recursive call
    of [parseBinaryExpr] is made at [curPrec + 1], not at the precedence of
    the operator just consumed, so the right operand takes every operator
    above [Or], and the tree nests to the left only when [op2] is [|]. *)
Lemma binary_chain_shape (keep : bool) (n : nat) (op1 op2 : Token)
      (k1 k2 : BinaryKind) (p1 p2 : Precedence) :
  precOf op1 = (p1, Some k1) ->
  precOf op2 = (p2, Some k2) ->
  valueOf (parseExpr (knot keep (8 + n)) (onChain "t.py" op1 op2))
  = Some ((if (p2 <? Xor)%nat then leftTree else rightTree)
            k1 k2 (tokAt "t.py" 2) (tokAt "t.py" 4)
            (identAt "t.py" 1) (identAt "t.py" 3) (identAt "t.py" 5)).
Proof.
  intros H1 H2. apply (valueOf_more parseExpr); [apply refines_parseExpr|].
  destruct op1; try discriminate H1; injection H1 as <- <-;
    destruct op2; try discriminate H2; injection H2 as <- <-;
    destruct keep; vm_compute; reflexivity.
Qed.

(** C2, on the code: whatever the bound, [a - b - c] comes back as
    [a - (b - c)], not left-associative, and [a * b + c] as [a * (b + c)],
    the lower-precedence [+] nested below the [*]. *)
Theorem parseBinaryExpr_nests_right (keep : bool) (n : nat) :
  let a := identAt "t.py" 1 in
  let b := identAt "t.py" 3 in
  let c := identAt "t.py" 5 in
  valueOf (parseExpr (knot keep (8 + n)) (onChain "t.py" TK_MINUS TK_MINUS))
  = Some (rightTree SubExprAst SubExprAst (tokAt "t.py" 2) (tokAt "t.py" 4)
                    a b c)
  /\ valueOf (parseExpr (knot keep (8 + n)) (onChain "t.py" TK_STAR TK_PLUS))
     = Some (rightTree MulExprAst AddExprAst (tokAt "t.py" 2) (tokAt "t.py" 4)
                       a b c)
  /\ rightTree SubExprAst SubExprAst (tokAt "t.py" 2) (tokAt "t.py" 4) a b c
     <> leftTree SubExprAst SubExprAst (tokAt "t.py" 2) (tokAt "t.py" 4) a b c
  /\ rightTree MulExprAst AddExprAst (tokAt "t.py" 2) (tokAt "t.py" 4) a b c
     <> leftTree MulExprAst AddExprAst (tokAt "t.py" 2) (tokAt "t.py" 4) a b c.
Proof.
  cbv zeta. split; [|split; [|split]].
  - now apply binary_chain_shape with (p1 := Term) (p2 := Term).
  - now apply binary_chain_shape with (p1 := Factor) (p2 := Term).
  - discriminate.
  - discriminate.
Qed.

(** C3, as the spec words it, fails on [a = b = c]: within no bound is the
    statement the parser builds the chain in which [b] is the left side of
    the second assignment, whatever the operator locations. *)
Lemma assign_chain_not_right_nested :
  ~ exists (n : nat) (loc1 loc2 : SourceLoc),
      valueOf (parseExprStmt (knot false n)
                 (primed "t.py" [TK_IDENTIFIER; TK_EQUAL; TK_IDENTIFIER;
                                 TK_EQUAL; TK_IDENTIFIER; TK_NEWLINE]))
      = Some (Some (ExprStmtAst
                      (rightChain [identAt "t.py" 1]
                                  [(loc1, [identAt "t.py" 3]);
                                   (loc2, [identAt "t.py" 5])]))).
Proof.
  intros [n [loc1 [loc2 H]]].
  do 8 (destruct n as [|n]; [vm_compute in H; discriminate H|]).
  change (S (S (S (S (S (S (S (S n)))))))) with (8 + n) in H.
  run_as R (valueOf (parseExprStmt (knot false 8)
                       (primed "t.py" [TK_IDENTIFIER; TK_EQUAL; TK_IDENTIFIER;
                                       TK_EQUAL; TK_IDENTIFIER; TK_NEWLINE]))).
  apply (valueOf_more parseExprStmt false 8 n) in R;
    [|apply refines_parseExprStmt].
  rewrite R in H. discriminate H.
Qed.

(** C3, amended: after the first testlist, two plain [=] give an
    assignment whose left side is the assignment built for the first [=]
    (the chain nests to the left); an augmented operator gives exactly one
    assignment and the statement is returned, whatever follows. *)
Theorem parseExprStmt_assign (r : Env) (s s1 : t) (l1 : list Expr) :
  parseTestList r s = Ok l1 s1 ->
  (forall (n : nat) (s2 s3 : t) (l2 l3 : list Expr),
      fuel r = S (S n) ->
      ahead_ s1 = TK_EQUAL ->
      assignedExprs r (consumed s1) = Ok l2 s2 ->
      ahead_ s2 = TK_EQUAL ->
      assignedExprs r (consumed s2) = Ok l3 s3 ->
      ahead_ s3 <> TK_EQUAL ->
      parseExprStmt r s
      = Ok (Some (ExprStmtAst
                    (leftChain l1 [(lastLoc_ (consumed s1), l2);
                                   (lastLoc_ (consumed s2), l3)])))
           s3)
  /\ (forall (n : nat) (s2 : t) (l2 : list Expr),
      fuel r = S n ->
      isAugAssign (ahead_ s1) = true ->
      assignedExprs r (consumed s1) = Ok l2 s2 ->
      parseExprStmt r s
      = Ok (Some (ExprStmtAst
                    [Some (AssignExprAst (lastLoc_ (consumed s1)) l1 l2)]))
           s2).
Proof.
  intros H1. split.
  - intros n s2 s3 l2 l3 Hf A1 H2 A2 H3 A3.
    unfold parseExprStmt. rewrite (bind_Ok _ H1), Hf.
    cbn [parseExprStmt_loop]. rewrite bind_gets, A1.
    cbn [isAugAssign orb tok_eqb Token_beq]. rewrite bind_consumeToken, bind_gets.
    rewrite (bind_Ok _ H2), bind_gets, A2.
    cbn [orb negb tok_eqb Token_beq].
    rewrite bind_gets, A2.
    cbn [isAugAssign orb tok_eqb Token_beq]. rewrite bind_consumeToken, bind_gets.
    rewrite (bind_Ok _ H3), bind_gets.
    rewrite (tok_eqb_neq A3). reflexivity.
  - intros n s2 l2 Hf A1 H2.
    unfold parseExprStmt. rewrite (bind_Ok _ H1), Hf.
    cbn [parseExprStmt_loop]. rewrite bind_gets, A1.
    cbn [orb]. rewrite bind_consumeToken, bind_gets.
    rewrite (bind_Ok _ H2), bind_gets. reflexivity.
Qed.

Lemma parseExprStmt_assign_witness :
  (exists s3,
      parseExprStmt (knot false 8)
        (primed "t.py" [TK_IDENTIFIER; TK_EQUAL; TK_IDENTIFIER; TK_EQUAL;
                        TK_IDENTIFIER; TK_NEWLINE])
      = Ok (Some (ExprStmtAst
                    [Some (AssignExprAst (tokAt "t.py" 4)
                             [Some (AssignExprAst (tokAt "t.py" 2)
                                      [identAt "t.py" 1] [identAt "t.py" 3])]
                             [identAt "t.py" 5])]))
           s3)
  /\ (exists s2,
      parseExprStmt (knot false 8)
        (primed "t.py" [TK_IDENTIFIER; TK_PLUS_EQUAL; TK_IDENTIFIER; TK_EQUAL;
                        TK_IDENTIFIER; TK_NEWLINE])
      = Ok (Some (ExprStmtAst
                    [Some (AssignExprAst (tokAt "t.py" 2)
                             [identAt "t.py" 1] [identAt "t.py" 3])]))
           s2
      /\ ahead_ s2 = TK_EQUAL).
Proof.
  split.
  - run_as H1 (parseTestList (knot false 8)
                 (primed "t.py" [TK_IDENTIFIER; TK_EQUAL; TK_IDENTIFIER;
                                 TK_EQUAL; TK_IDENTIFIER; TK_NEWLINE])).
    destruct (parseExprStmt_assign _ _ H1) as [Hc _].
    match type of H1 with
    | _ = Ok _ ?s1 => run_as H2 (assignedExprs (knot false 8) (consumed s1))
    end.
    match type of H2 with
    | _ = Ok _ ?s2 => run_as H3 (assignedExprs (knot false 8) (consumed s2))
    end.
    eexists. etransitivity.
    + apply (Hc 6 _ _ _ _ eq_refl eq_refl H2 eq_refl H3). discriminate.
    + reflexivity.
  - run_as H1 (parseTestList (knot false 8)
                 (primed "t.py" [TK_IDENTIFIER; TK_PLUS_EQUAL; TK_IDENTIFIER;
                                 TK_EQUAL; TK_IDENTIFIER; TK_NEWLINE])).
    destruct (parseExprStmt_assign _ _ H1) as [_ Ha].
    match type of H1 with
    | _ = Ok _ ?s1 => run_as H2 (assignedExprs (knot false 8) (consumed s1))
    end.
    eexists. split.
    + etransitivity.
      * apply (Ha 7 _ _ eq_refl eq_refl H2).
      * reflexivity.
    + reflexivity.
Defined.

(** *** The try statement *)

Lemma match_Ok_same (tk : Token) (s : t) :
  ahead_ s = tk -> match_ tk s = Ok true (consumed s).
Proof.
  intros H. unfold match_. rewrite bind_gets, bind_consumeToken, H.
  rewrite tok_eqb_refl. reflexivity.
Qed.

(** C6: in the loop of [parseTryStmt], [catchs] are the except clauses
    parsed so far: the loop starts with none and each [except] adds one.
    An [else] met while there is none, or after an [else] was taken, is
    consumed with an [UnexpectedToken] report and no suite is parsed for
    it; an [else] after at least one [except] is taken, once; and a
    [finally] ends the loop: the statement returned carries the clauses so
    far and this one [finally], whatever follows. *)
Theorem parseTryStmt_else_finally (r : Env) (n : nat) (keyLoc : SourceLoc)
        (stmt : Stmt) (catchs : list Stmt) (seenElse : bool) (s : t) :
  (ahead_ s = TK_TRY ->
   parseTryStmt r s
   = (match_ TK_COLON ;;;
      body <- parseSuite r ;;
      parseTryStmt_loop r (fuel r) (lastLoc_ (consumed s)) body [] false)
       (consumed s))
  /\ (ahead_ s = TK_CATCH ->
      parseTryStmt_loop r (S n) keyLoc stmt catchs seenElse s
      = (catche <- parseCatchClause r ;;
         parseTryStmt_loop r n keyLoc stmt (catchs ++ [Some catche]) seenElse)
          s)
  /\ (ahead_ s = TK_ELSE -> catchs = [] \/ seenElse = true ->
      parseTryStmt_loop r (S n) keyLoc stmt catchs seenElse s
      = parseTryStmt_loop r n keyLoc stmt catchs seenElse
          (reported Diagnostic.UnexpectedToken (consumed s)))
  /\ (ahead_ s = TK_ELSE -> catchs <> [] -> seenElse = false ->
      parseTryStmt_loop r (S n) keyLoc stmt catchs seenElse s
      = (match_ TK_COLON ;;; parseSuite r ;;;
         parseTryStmt_loop r n keyLoc stmt catchs true) (consumed s))
  /\ (ahead_ s = TK_FINALLY ->
      parseTryStmt_loop r (S n) keyLoc stmt catchs seenElse s
      = (match_ TK_COLON ;;;
         body <- parseSuite r ;;
         ret (Some (TryStmtAst keyLoc stmt catchs
                      (Some (FinallyClauseStmtAst (lastLoc_ (consumed s))
                                                  body)))))
          (consumed s)).
Proof.
  split; [|split; [|split; [|split]]].
  - intros A. unfold parseTryStmt. rewrite bind_gets, A.
    cbn [tok_eqb Token_beq negb].
    rewrite (bind_Ok _ (@match_Ok_same _ _ A)), bind_gets. reflexivity.
  - intros A. cbn [parseTryStmt_loop]. rewrite bind_gets, A. reflexivity.
  - intros A H. cbn [parseTryStmt_loop]. rewrite bind_gets, A.
    assert (E : isNil catchs || seenElse = true).
    { destruct H as [-> | ->]; [reflexivity | apply orb_true_r]. }
    rewrite E. unfold bind at 1. unfold bind at 1.
    rewrite failMatch_true_Ok. reflexivity.
  - intros A Hc ->. cbn [parseTryStmt_loop]. rewrite bind_gets, A.
    assert (E : isNil catchs || false = false).
    { destruct catchs; [contradiction | reflexivity]. }
    rewrite E. unfold bind at 1. unfold bind at 1.
    rewrite consumeToken_Ok. unfold bind.
    destruct (match_ TK_COLON (consumed s)); try reflexivity.
    destruct (parseSuite r s0); reflexivity.
  - intros A. cbn [parseTryStmt_loop]. rewrite bind_gets, A.
    rewrite bind_consumeToken, bind_gets. reflexivity.
Qed.

Lemma parseTryStmt_else_finally_witness :
  (* else with no except: reported, nothing taken *)
  parseTryStmt_loop (knot false 8) 3 emptyLoc None [] false
    (primed "t.py" [TK_ELSE; TK_COLON; TK_PASS; TK_NEWLINE])
  = parseTryStmt_loop (knot false 8) 2 emptyLoc None [] false
      (reported Diagnostic.UnexpectedToken
         (consumed (primed "t.py" [TK_ELSE; TK_COLON; TK_PASS; TK_NEWLINE])))
  (* else after an except: taken *)
  /\ parseTryStmt_loop (knot false 8) 3 emptyLoc None
       [Some (CatchClauseStmtAst emptyLoc None None)] false
       (primed "t.py" [TK_ELSE; TK_COLON; TK_PASS; TK_NEWLINE])
     = Ok (Some (TryStmtAst emptyLoc None
                   [Some (CatchClauseStmtAst emptyLoc None None)] None))
          (mk (TokenSource.mk (TokenSource.locAt 4) [])
              (ParsingContext.fresh "t.py") TK_EOP (tokAt "t.py" 4))
  (* finally, then another finally: one is attached, the loop is left *)
  /\ parseTryStmt_loop (knot false 8) 3 emptyLoc None [] false
       (primed "t.py" [TK_FINALLY; TK_COLON; TK_PASS; TK_NEWLINE;
                       TK_FINALLY; TK_COLON; TK_PASS; TK_NEWLINE])
     = Ok (Some (TryStmtAst emptyLoc None []
                   (Some (FinallyClauseStmtAst
                            (tokAt "t.py" 1)
                            (Some (EmptyStmtAst (tokAt "t.py" 3)))))))
          (mk (TokenSource.mk (TokenSource.locAt 5)
                              (TokenSource.place 6 [TK_COLON; TK_PASS;
                                                    TK_NEWLINE]))
              (ParsingContext.fresh "t.py") TK_FINALLY (tokAt "t.py" 4)).
Proof.
  split; [|split].
  - destruct (parseTryStmt_else_finally
                (knot false 8) 2 emptyLoc None [] false
                (primed "t.py" [TK_ELSE; TK_COLON; TK_PASS; TK_NEWLINE]))
      as [_ [_ [H _]]].
    apply H; [reflexivity | now left].
  - destruct (parseTryStmt_else_finally
                (knot false 8) 2 emptyLoc None
                [Some (CatchClauseStmtAst emptyLoc None None)] false
                (primed "t.py" [TK_ELSE; TK_COLON; TK_PASS; TK_NEWLINE]))
      as [_ [_ [_ [H _]]]].
    etransitivity.
    + apply H; [reflexivity | discriminate | reflexivity].
    + vm_compute. reflexivity.
  - destruct (parseTryStmt_else_finally
                (knot false 8) 2 emptyLoc None [] false
                (primed "t.py" [TK_FINALLY; TK_COLON; TK_PASS; TK_NEWLINE;
                                TK_FINALLY; TK_COLON; TK_PASS; TK_NEWLINE]))
      as [_ [_ [_ [_ H]]]].
    etransitivity.
    + apply H. reflexivity.
    + vm_compute. reflexivity.
Defined.

(** [try: pass / else: pass] on the whole parser: the [else] and the colon
    after it are each reported as unexpected. *)
Example try_else_without_except (keep : bool) :
  option_map reportsOf
    (stateOf (parseTryStmt (knot keep 8)
                (primed "t.py" [TK_TRY; TK_COLON; TK_PASS; TK_NEWLINE;
                                TK_ELSE; TK_COLON; TK_PASS; TK_NEWLINE])))
  = Some [(Diagnostic.UnexpectedToken, tokAt "t.py" 5);
          (Diagnostic.UnexpectedToken, tokAt "t.py" 6)].
Proof. destruct keep; vm_compute; reflexivity. Qed.

(** *** The for statement *)

Lemma bind_inv {A B} (m : M A) (k : A -> M B) (s s' : t) (b : B) :
  bind m k s = Ok b s' ->
  exists a s1, m s = Ok a s1 /\ k a s1 = Ok b s'.
Proof.
  unfold bind. destruct (m s) as [a s1| |]; try discriminate.
  intros H. now exists a, s1.
Qed.

Lemma addToList_Some {A} (r : Env) (lst : list (option A)) (x : A) :
  addToList r lst (Some x) = lst ++ [Some x].
Proof. reflexivity. Qed.

Lemma identDecls_loop_idents (r : Env) (wrap : Name -> DeclAst)
      (es : list ExprAst) :
  forall (decls : list Decl) (s : t),
    identDecls_loop r wrap (map Some es) decls s
    = Ok (decls ++ identsOnly wrap es) s.
Proof.
  unfold identsOnly.
  induction es as [|e es IH]; intros decls s; cbn [map identDecls_loop filter].
  - now rewrite app_nil_r.
  - destruct (isIdentExpr e); cbn [negb map].
    + rewrite IH, addToList_Some, <- app_assoc. reflexivity.
    + apply IH.
Qed.

Lemma identDecls_loop_inv (r : Env) (wrap : Name -> DeclAst)
      (exprs : list Expr) :
  forall (decls decls' : list Decl) (s s' : t),
    identDecls_loop r wrap exprs decls s = Ok decls' s' ->
    exists es, exprs = map Some es
               /\ decls' = decls ++ identsOnly wrap es /\ s' = s.
Proof.
  induction exprs as [|[e|] rest IH]; intros decls decls' s s' H;
    cbn [identDecls_loop] in H.
  - exists []. injection H as <- <-. now rewrite app_nil_r.
  - destruct (isIdentExpr e) eqn:I; cbn [negb] in H;
      apply IH in H; destruct H as [es [-> [-> ->]]];
      exists (e :: es); unfold identsOnly; cbn [map filter]; rewrite I.
    + rewrite addToList_Some, <- app_assoc. now cbn [map].
    + easy.
  - discriminate H.
Qed.

(** C10: once the expression list of the targets is parsed and the rest
    of the statement returns, [parseForStmt] returns the [for] statement
    whose group has one declaration for each target that is an identifier
    expression, in their order, and none for the others; the conversion
    leaves the parser object as [parseExprList] left it (nothing is
    reported, no token is taken).  And it returns a statement in no other
    way. *)
Theorem parseForStmt_targets (r : Env) (s : t) :
  ahead_ s = TK_FOR ->
  (forall (es : list ExprAst) (s1 : t) (test : list Expr) (s2 : t)
          (body : Stmt) (s3 s' : t),
      parseExprList r (consumed s) = Ok (map Some es) s1 ->
      es <> [] ->
      (match_ TK_IN ;;; parseTestList r) s1 = Ok test s2 ->
      (match_ TK_COLON ;;; parseSuite r) s2 = Ok body s3 ->
      parseLoopElse r s3 = Ok tt s' ->
      identDecls r VarDeclAst (map Some es) s1
      = Ok (identsOnly VarDeclAst es) s1
      /\ parseForStmt r s
         = Ok (Some (ForeachStmtAst
                       (Some (VarGroupDeclAst emptyLoc
                                              (identsOnly VarDeclAst es)))
                       (releaseHead test) body)) s')
  /\ (forall (st : Stmt) (s' : t),
      parseForStmt r s = Ok st s' ->
      exists (es : list ExprAst) (s1 : t) (test : list Expr) (s2 : t)
             (body : Stmt) (s3 : t),
        parseExprList r (consumed s) = Ok (map Some es) s1
        /\ es <> []
        /\ (match_ TK_IN ;;; parseTestList r) s1 = Ok test s2
        /\ (match_ TK_COLON ;;; parseSuite r) s2 = Ok body s3
        /\ parseLoopElse r s3 = Ok tt s'
        /\ st = Some (ForeachStmtAst
                        (Some (VarGroupDeclAst emptyLoc
                                               (identsOnly VarDeclAst es)))
                        (releaseHead test) body)).
Proof.
  intros A.
  assert (I : forall (es : list ExprAst) (s1 : t),
             es <> [] ->
             identDecls r VarDeclAst (map Some es) s1
             = Ok (identsOnly VarDeclAst es) s1).
  { intros es s1 Hne. unfold identDecls.
    destruct es as [|e es]; [contradiction|].
    change (map Some (e :: es)) with (Some e :: map Some es) at 1.
    cbv iota. change (Some e :: map Some es) with (map Some (e :: es)).
    apply (identDecls_loop_idents r VarDeclAst (e :: es) [] s1). }
  split.
  - intros es s1 test s2 body s3 s' He Hne Hin Hcol Hel.
    split; [now apply I|].
    unfold parseForStmt.
    rewrite bind_gets, A. cbn [tok_eqb Token_beq negb].
    rewrite (bind_Ok _ (@match_Ok_same _ _ A)).
    rewrite (bind_Ok _ He). rewrite (bind_Ok _ (I es s1 Hne)). cbv zeta.
    apply bind_inv in Hin. destruct Hin as [ok [sa [Hm Ht]]].
    rewrite (bind_Ok _ Hm), (bind_Ok _ Ht).
    apply bind_inv in Hcol. destruct Hcol as [ok' [sb [Hm' Hb]]].
    rewrite (bind_Ok _ Hm'), (bind_Ok _ Hb), (bind_Ok _ Hel).
    destruct test; reflexivity.
  - intros st s' H. unfold parseForStmt in H.
    rewrite bind_gets, A in H. cbn [tok_eqb Token_beq negb] in H.
    rewrite (bind_Ok _ (@match_Ok_same _ _ A)) in H.
    apply bind_inv in H. destruct H as [exprs [s1 [He H]]].
    apply bind_inv in H. destruct H as [decls [s1' [Hd H]]].
    assert (Hes : exists es, exprs = map Some es /\ es <> []
                             /\ decls = identsOnly VarDeclAst es /\ s1' = s1).
    { unfold identDecls in Hd. destruct exprs as [|x rest]; [discriminate Hd|].
      apply identDecls_loop_inv in Hd. destruct Hd as [es [E [D S']]].
      exists es. repeat split; try assumption.
      intros ->. discriminate E. }
    destruct Hes as [es [-> [Hne [-> ->]]]].
    cbv zeta in H.
    apply bind_inv in H. destruct H as [ok [sa [Hin H]]].
    apply bind_inv in H. destruct H as [test [s2 [Ht H]]].
    apply bind_inv in H. destruct H as [ok' [sb [Hcol H]]].
    apply bind_inv in H. destruct H as [body [s3 [Hb H]]].
    apply bind_inv in H. destruct H as [[] [s4 [Hel H]]].
    injection H as <- <-.
    exists es, s1, test, s2, body, s3. repeat split; try assumption.
    + now rewrite (bind_Ok _ Hin).
    + now rewrite (bind_Ok _ Hcol).
    + destruct test; reflexivity.
Qed.

Lemma parseForStmt_targets_witness :
  parseForStmt (knot false 8)
               (primed "t.py" [TK_FOR; TK_IDENTIFIER; TK_COMMA;
                               TK_INTEGER_LITERAL; TK_COMMA; TK_IDENTIFIER;
                               TK_IN; TK_IDENTIFIER; TK_COLON; TK_PASS;
                               TK_NEWLINE])
  = Ok (Some (ForeachStmtAst
                (Some (VarGroupDeclAst emptyLoc
                         [Some (VarDeclAst
                                  (Some (SimpleNameAst (tokAt "t.py" 2))));
                          Some (VarDeclAst
                                  (Some (SimpleNameAst (tokAt "t.py" 6))))]))
                (identAt "t.py" 8)
                (Some (EmptyStmtAst (tokAt "t.py" 10)))))
       (mk (TokenSource.mk (TokenSource.locAt 11) [])
           (ParsingContext.fresh "t.py") TK_EOP (tokAt "t.py" 11)).
Proof.
  destruct (parseForStmt_targets
              (knot false 8)
              (primed "t.py" [TK_FOR; TK_IDENTIFIER; TK_COMMA;
                              TK_INTEGER_LITERAL; TK_COMMA; TK_IDENTIFIER;
                              TK_IN; TK_IDENTIFIER; TK_COLON; TK_PASS;
                              TK_NEWLINE]) eq_refl) as [H _].
  run_as E1 (parseExprList (knot false 8)
               (consumed (primed "t.py" [TK_FOR; TK_IDENTIFIER; TK_COMMA;
                                         TK_INTEGER_LITERAL; TK_COMMA;
                                         TK_IDENTIFIER; TK_IN; TK_IDENTIFIER;
                                         TK_COLON; TK_PASS; TK_NEWLINE]))).
  match type of E1 with
  | _ = Ok _ ?s1 =>
      run_as E2 ((match_ TK_IN ;;; parseTestList (knot false 8)) s1);
      match type of E2 with
      | _ = Ok ?test ?s2 =>
          run_as E3 ((match_ TK_COLON ;;; parseSuite (knot false 8)) s2);
          match type of E3 with
          | _ = Ok ?body ?s3 =>
              run_as E4 (parseLoopElse (knot false 8) s3);
              destruct (H [IdentExprAst
                             (Some (SimpleNameAst (tokAt "t.py" 2)));
                           LitExprAst NumLitExprAst (tokAt "t.py" 4);
                           IdentExprAst
                             (Some (SimpleNameAst (tokAt "t.py" 6)))]
                          s1 test s2 body s3 _ E1 ltac:(discriminate)
                          E2 E3 E4) as [_ R]
          end
      end
  end.
  exact R.
Defined.

(** [for x, 1, y in z: pass] on the whole parser: two declarations, no
    report. *)
Example for_targets_no_report (keep : bool) :
  option_map reportsOf
    (stateOf (parseForStmt (knot keep 8)
                (primed "t.py" [TK_FOR; TK_IDENTIFIER; TK_COMMA;
                                TK_INTEGER_LITERAL; TK_COMMA; TK_IDENTIFIER;
                                TK_IN; TK_IDENTIFIER; TK_COLON; TK_PASS;
                                TK_NEWLINE])))
  = Some [].
Proof. destruct keep; vm_compute; reflexivity. Qed.

(** *** parse *)

Lemma sameRoot_keeps_knot (keep : bool) (n : nat) :
  KeepsEnv sameRoot (knot keep n).
Proof.
  apply keeps_knot; unfold sameRoot.
  - reflexivity.
  - intros s1 s2 s3 H1 H2. congruence.
  - intros s. unfold consumed, consumeToken.
    destruct (tok_eqb (ahead_ s) TK_EOP); [reflexivity|].
    destruct (TokenSource.lex (lexer_ s)); reflexivity.
  - reflexivity.
Qed.

(** No member function below [parse] touches the root of the context. *)
Lemma parse_loop_sameRoot (keep : bool) (n m : nat) (stmts stmts' : list Stmt)
      (s s' : t) :
  parse_loop (knot keep n) m stmts s = Ok stmts' s' ->
  astRootOf s' = astRootOf s.
Proof.
  apply (@keeps_parse_loop sameRoot); unfold sameRoot.
  - reflexivity.
  - intros s1 s2 s3 H1 H2. congruence.
  - intros s0. unfold consumed, consumeToken.
    destruct (tok_eqb (ahead_ s0) TK_EOP); [reflexivity|].
    destruct (TokenSource.lex (lexer_ s0)); reflexivity.
  - reflexivity.
  - apply sameRoot_keeps_knot.
Qed.

Lemma consumed_context (s : t) : context_ (consumed s) = context_ s.
Proof.
  unfold consumed, consumeToken.
  destruct (tok_eqb (ahead_ s) TK_EOP); [reflexivity|].
  destruct (TokenSource.lex (lexer_ s)); reflexivity.
Qed.

(** After [consumeToken], with tokens all [TK_NEWLINE] to come: the next
    token is a newline or the end, and one token less is pending. *)
Lemma consumed_newlines (s : t) :
  ahead_ s <> TK_EOP ->
  onlyNewlines (lexer_ s) ->
  (ahead_ (consumed s) = TK_EOP
   \/ (ahead_ (consumed s) = TK_NEWLINE
       /\ onlyNewlines (lexer_ (consumed s))
       /\ S (List.length (TokenSource.pending (lexer_ (consumed s))))
          = List.length (TokenSource.pending (lexer_ s)))).
Proof.
  intros Hne Hall. unfold consumed, consumeToken.
  rewrite (tok_eqb_neq Hne). unfold TokenSource.lex, onlyNewlines in *.
  destruct (TokenSource.pending (lexer_ s)) as [|[tk loc] rest] eqn:P.
  - left. reflexivity.
  - right. cbn. inversion Hall as [|x l Hx Hrest]; subst.
    cbn in Hx. subst tk. repeat split. assumption.
Qed.

Lemma maybeConsume_same (tk : Token) (s : t) :
  ahead_ s = tk -> maybeConsume tk s = Ok true (consumed s).
Proof.
  intros H. unfold maybeConsume. rewrite bind_gets, H, tok_eqb_refl.
  rewrite bind_consumeToken. reflexivity.
Qed.

Lemma parse_loop_newlines (r : Env) (n : nat) :
  forall (stmts : list Stmt) (s : t),
    (ahead_ s = TK_EOP
     \/ (ahead_ s = TK_NEWLINE
         /\ onlyNewlines (lexer_ s)
         /\ List.length (TokenSource.pending (lexer_ s)) < n)) ->
    exists s', parse_loop r n stmts s = Ok stmts s'
               /\ context_ s' = context_ s.
Proof.
  induction n as [|n IH]; intros stmts s H.
  - destruct H as [E|[_ [_ L]]]; [|lia].
    exists s. cbn [parse_loop]. rewrite bind_gets, E. now split.
  - destruct H as [E|[E [Hall L]]].
    + exists s. cbn [parse_loop]. rewrite bind_gets, E. now split.
    + cbn [parse_loop]. rewrite bind_gets, E. cbn [tok_eqb Token_beq negb].
      rewrite (bind_Ok _ (@maybeConsume_same _ _ E)).
      assert (Hne : ahead_ s <> TK_EOP) by (rewrite E; discriminate).
      destruct (@consumed_newlines s Hne Hall) as [E'|[E' [Hall' L']]].
      * destruct (IH stmts (consumed s)) as [s' [R C]]; [now left|].
        exists s'. split; [exact R|]. now rewrite C, consumed_context.
      * destruct (IH stmts (consumed s)) as [s' [R C]].
        { right. repeat split; [assumption | assumption | lia]. }
        exists s'. split; [exact R|]. now rewrite C, consumed_context.
Qed.

(** The loop of [parse] goes as a run says, within a bound that covers
    its turns; and what it returns, it returns after a run. *)
Lemma parse_loop_runs (r : Env) (s s1 : t) (turns : nat)
      (results : list Stmt) :
  runs r s turns results s1 ->
  forall (n : nat) (stmts : list Stmt),
    turns <= n ->
    parse_loop r n stmts s = Ok (fold_left (addToList r) results stmts) s1.
Proof.
  induction 1 as [s E|s s' turns results E R IH
                 |s s1 s' turns stmt results E1 E2 P R IH];
    intros n stmts Hn.
  - destruct n; cbn [parse_loop]; rewrite bind_gets, E; reflexivity.
  - destruct n as [|n]; [lia|]. cbn [parse_loop].
    rewrite bind_gets, E. cbn [tok_eqb Token_beq negb].
    rewrite (bind_Ok _ (@maybeConsume_same _ _ E)). apply IH. lia.
  - destruct n as [|n]; [lia|]. cbn [parse_loop].
    rewrite bind_gets, (tok_eqb_neq E1). cbn [negb].
    unfold bind at 1. unfold maybeConsume. rewrite bind_gets.
    rewrite (tok_eqb_neq E2). cbn [ret]. rewrite (bind_Ok _ P).
    cbn [fold_left]. apply IH. lia.
Qed.

Lemma parse_loop_inv (r : Env) :
  forall (n : nat) (stmts stmts' : list Stmt) (s s' : t),
    parse_loop r n stmts s = Ok stmts' s' ->
    exists turns results,
      runs r s turns results s' /\ turns <= n
      /\ stmts' = fold_left (addToList r) results stmts.
Proof.
  induction n as [|n IH]; intros stmts stmts' s s'; cbn [parse_loop];
    rewrite bind_gets; destruct (tok_eqb (ahead_ s) TK_EOP) eqn:E;
    cbn [negb]; try discriminate;
    try (intros H; injection H as <- <-; exists 0, [];
         split; [constructor; now apply tok_eqb_eq in E|];
         split; [lia|reflexivity]).
  assert (E1 : ahead_ s <> TK_EOP).
  { intros X. rewrite X in E. discriminate E. }
  unfold bind at 1. unfold maybeConsume. rewrite bind_gets.
  destruct (tok_eqb (ahead_ s) TK_NEWLINE) eqn:N.
  - rewrite bind_consumeToken. cbn [ret]. intros H. apply IH in H.
    destruct H as [turns [results [R [L F]]]].
    exists (S turns), results. split; [|split; [lia|exact F]].
    apply runs_newline; [now apply tok_eqb_eq in N|exact R].
  - cbn [ret]. intros H. apply bind_inv in H.
    destruct H as [stmt [s1 [P H]]]. apply IH in H.
    destruct H as [turns [results [R [L F]]]].
    exists (S turns), (stmt :: results). split; [|split; [lia|exact F]].
    apply runs_stmt with (s1 := s1); try assumption.
    intros X. rewrite X in N. discriminate N.
Qed.

Lemma fold_addToList {A} (r : Env) (results : list (option A)) :
  forall acc,
    fold_left (addToList r) results acc
    = acc ++ (if keepNull r then results else nonNull results).
Proof.
  unfold nonNull.
  induction results as [|x results IH]; intros acc; cbn [fold_left filter].
  - destruct (keepNull r); now rewrite app_nil_r.
  - rewrite IH. unfold addToList.
    destruct x as [x|]; destruct (keepNull r); cbn [app];
      rewrite <- ?app_assoc; reflexivity.
Qed.

Lemma nonNull_nonempty {A} (results : list (option A)) :
  nonNull results <> [] <-> exists x, In (Some x) results.
Proof.
  unfold nonNull. induction results as [|[x|] results IH]; cbn [filter In].
  - split; [contradiction|]. intros [x []].
  - split; [|discriminate]. intros _. exists x. now left.
  - rewrite IH. split; intros [x H]; exists x; [now right|].
    destruct H as [H|H]; [discriminate H|exact H].
Qed.

(** C1: with a lexer and a context that has a file name, [parse] goes
    through the tokens as a run of its loop says: each turn skips a
    [TK_NEWLINE] or calls [parseStmt()], and the results are given to
    [addToList] in their order.  Within a bound that covers the turns, it
    returns false and hands nothing over when the list holds no statement
    at the end, and otherwise returns true after [takeAst] has made the
    program of the statements in the list the root of the context; it
    returns in no other way, and when it returns false the root of the
    context is the one it had before.  With an [addToList] that leaves
    null results out, the statements in the list are the results that are
    statements, so [parse] returns true exactly when some call of
    [parseStmt()] gave one.  On an input of newline tokens only (the empty
    input is one) it returns false and leaves the context as it was. *)
Theorem parse_contract (keep : bool) (n : nat) (self : t)
        (lexer : TokenSource.t) (context : ParsingContext.t) (file : string) :
  ParsingContext.fileName context = Some file ->
  (forall (turns : nat) (results : list Stmt) (s1 : t),
      runs (knot keep n) (consumed (attached self lexer context))
           turns results s1 ->
      turns <= n ->
      parse (knot keep n) self (Some lexer) (Some context)
      = if isNil (accepted (knot keep n) results) then Ok false s1
        else Ok true (handedOver (accepted (knot keep n) results) s1))
  /\ (forall (b : bool) (s' : t),
      parse (knot keep n) self (Some lexer) (Some context) = Ok b s' ->
      exists (turns : nat) (results : list Stmt) (s1 : t),
        runs (knot keep n) (consumed (attached self lexer context))
             turns results s1
        /\ turns <= n
        /\ (b = true <-> accepted (knot keep n) results <> [])
        /\ (b = true ->
            s' = handedOver (accepted (knot keep n) results) s1
            /\ astRootOf s'
               = Some (mkProgram (accepted (knot keep n) results)))
        /\ (b = false ->
            s' = s1 /\ astRootOf s' = ParsingContext.astRoot context))
  /\ (forall results : list Stmt,
      accepted (knot keep n) results
      = if keep then results else nonNull results)
  /\ (keep = false ->
      forall results : list Stmt,
        accepted (knot keep n) results <> []
        <-> exists stmt, In (Some stmt) results)
  /\ (onlyNewlines lexer ->
      List.length (TokenSource.pending lexer) <= n ->
      exists s',
        parse (knot keep n) self (Some lexer) (Some context) = Ok false s'
        /\ context_ s' = context).
Proof.
  assert (Acc : forall results : list Stmt,
             accepted (knot keep n) results
             = if keep then results else nonNull results).
  { intros results. unfold accepted. rewrite fold_addToList, keepNull_knot.
    reflexivity. }
  intros Hfile. split; [|split; [|split; [|split]]].
  - intros turns results s1 R L. unfold parse. rewrite Hfile. cbv zeta.
    rewrite bind_consumeToken, fuel_knot.
    assert (P : parse_loop (knot keep n) n []
                           (consumed (attached self lexer context))
                = Ok (accepted (knot keep n) results) s1)
      by exact (parse_loop_runs R [] L).
    rewrite (bind_Ok _ P).
    generalize (accepted (knot keep n) results).
    intros [|st rest]; reflexivity.
  - intros b s' H. unfold parse in H. rewrite Hfile in H. cbv zeta in H.
    rewrite bind_consumeToken in H.
    apply bind_inv in H. destruct H as [stmts [s1 [Hloop H]]].
    rewrite fuel_knot in Hloop.
    assert (R1 : astRootOf s1 = ParsingContext.astRoot context).
    { rewrite (@parse_loop_sameRoot _ _ _ _ _ _ _ Hloop). unfold astRootOf.
      rewrite consumed_context. reflexivity. }
    apply parse_loop_inv in Hloop.
    destruct Hloop as [turns [results [R [L F]]]].
    assert (F' : accepted (knot keep n) results = stmts)
      by (symmetry; exact F).
    exists turns, results, s1. split; [exact R|]. split; [exact L|].
    rewrite F'. clear F F'. destruct stmts as [|st rest].
    + injection H as <- <-. rewrite R1.
      repeat split; try discriminate; try congruence.
    + unfold takeAst in H. cbn [bind ret] in H. injection H as <- <-.
      repeat split; try discriminate; try congruence.
  - exact Acc.
  - intros -> results. rewrite Acc. apply nonNull_nonempty.
  - intros Hall Hlen. unfold parse. rewrite Hfile. cbv zeta.
    rewrite bind_consumeToken, fuel_knot.
    assert (Hs : exists s', parse_loop (knot keep n) n []
                              (consumed (attached self lexer context))
                            = Ok [] s'
                            /\ context_ s' = context).
    { destruct (Token_eq_dec (ahead_ self) TK_EOP) as [E|Hne].
      - assert (C : consumed (attached self lexer context)
                    = attached self lexer context).
        { unfold consumed, consumeToken. cbn [attached ahead_]. rewrite E.
          reflexivity. }
        rewrite C.
        destruct (@parse_loop_newlines (knot keep n) n []
                    (attached self lexer context)) as [s' [R Cx]];
          [now left|].
        exists s'. split; [exact R|]. now rewrite Cx.
      - destruct (@consumed_newlines (attached self lexer context) Hne Hall)
          as [E'|[E' [Hall' L']]].
        + destruct (@parse_loop_newlines (knot keep n) n []
                      (consumed (attached self lexer context)))
            as [s' [R Cx]]; [now left|].
          exists s'. split; [exact R|]. now rewrite Cx, consumed_context.
        + destruct (@parse_loop_newlines (knot keep n) n []
                      (consumed (attached self lexer context)))
            as [s' [R Cx]].
          { right. repeat split; [assumption | assumption |].
            cbn [attached lexer_] in L'. lia. }
          exists s'. split; [exact R|]. now rewrite Cx, consumed_context. }
    destruct Hs as [s' [R Cx]].
    exists s'. rewrite (bind_Ok _ R). now split.
Qed.

Lemma parse_contract_witness :
  parse (knot false 8) newParser
        (Some (TokenSource.ofTokens [TK_NEWLINE; TK_PASS; TK_NEWLINE]))
        (Some (ParsingContext.fresh "t.py"))
  = Ok true
       (handedOver [Some (EmptyStmtAst (tokAt "t.py" 2))]
          (consumed (consumed (consumed
             (primed "t.py" [TK_NEWLINE; TK_PASS; TK_NEWLINE])))))
  /\ (exists s',
      parse (knot false 8) newParser
            (Some (TokenSource.ofTokens [TK_NEWLINE; TK_NEWLINE]))
            (Some (ParsingContext.fresh "t.py"))
      = Ok false s'
      /\ context_ s' = ParsingContext.fresh "t.py")
  /\ (exists s',
      parse (knot false 8) newParser (Some (TokenSource.ofTokens []))
            (Some (ParsingContext.fresh "t.py"))
      = Ok false s'
      /\ context_ s' = ParsingContext.fresh "t.py").
Proof.
  split; [|split].
  - destruct (@parse_contract
                false 8 newParser
                (TokenSource.ofTokens [TK_NEWLINE; TK_PASS; TK_NEWLINE])
                (ParsingContext.fresh "t.py") "t.py" eq_refl)
      as [H _].
    apply (H 2 [Some (EmptyStmtAst (tokAt "t.py" 2))]
             (consumed (consumed (consumed
                (primed "t.py" [TK_NEWLINE; TK_PASS; TK_NEWLINE]))))).
    + apply runs_newline; [reflexivity|].
      apply runs_stmt
        with (s1 := consumed (consumed (consumed
                      (primed "t.py" [TK_NEWLINE; TK_PASS; TK_NEWLINE]))));
        [discriminate|discriminate|vm_compute; reflexivity|].
      apply runs_end. reflexivity.
    + lia.
  - destruct (@parse_contract
                false 8 newParser
                (TokenSource.ofTokens [TK_NEWLINE; TK_NEWLINE])
                (ParsingContext.fresh "t.py") "t.py" eq_refl)
      as [_ [_ [_ [_ H]]]].
    apply H.
    + repeat constructor.
    + cbn. lia.
  - destruct (@parse_contract
                false 8 newParser (TokenSource.ofTokens [])
                (ParsingContext.fresh "t.py") "t.py" eq_refl)
      as [_ [_ [_ [_ H]]]].
    apply H.
    + constructor.
    + cbn. lia.
Defined.

(** [x = 1] on the whole parser: the root the context is left with. *)
Example parse_assignment (keep : bool) :
  option_map astRootOf (stateOf (parseTokens keep 8 "t.py"
                                   [TK_IDENTIFIER; TK_EQUAL;
                                    TK_INTEGER_LITERAL; TK_NEWLINE]))
  = Some (Some (mkProgram
                  [Some (ExprStmtAst
                           [Some (AssignExprAst
                                    (tokAt "t.py" 2) [identAt "t.py" 1]
                                    [Some (LitExprAst NumLitExprAst
                                                      (tokAt "t.py" 3))])])])).
Proof. destruct keep; vm_compute; reflexivity. Qed.

(** *** Tokens, reports and recovery *)

Lemma consumed_at_end (s : t) : ahead_ s = TK_EOP -> consumed s = s.
Proof. intros H. unfold consumed, consumeToken. now rewrite H. Qed.

Lemma consumed_pending (s : t) :
  ahead_ s <> TK_EOP ->
  TokenSource.pending (lexer_ (consumed s))
  = tl (TokenSource.pending (lexer_ s))
  /\ (TokenSource.pending (lexer_ s) = [] -> ahead_ (consumed s) = TK_EOP).
Proof.
  intros H. unfold consumed, consumeToken.
  rewrite (tok_eqb_neq H). unfold TokenSource.lex.
  destruct (TokenSource.pending (lexer_ s)) as [|[tk loc] rest] eqn:E.
  - cbn. rewrite E. split; [reflexivity|reflexivity].
  - cbn. split; [reflexivity|discriminate].
Qed.

Lemma skipTo_loop_done (n : nat) (tk : Token) (s : t) :
  ahead_ s = tk \/ ahead_ s = TK_EOP -> skipTo_loop n tk s = Ok tt s.
Proof.
  intros H.
  assert (E : tok_eqb (ahead_ s) tk || tok_eqb (ahead_ s) TK_EOP = true).
  { destruct H as [H|H]; rewrite H, tok_eqb_refl;
      [reflexivity|apply orb_true_r]. }
  destruct n; cbn [skipTo_loop]; rewrite bind_gets, E; reflexivity.
Qed.

Lemma skipTo_loop_post (tk : Token) :
  forall (n : nat) (s s' : t),
    skipTo_loop n tk s = Ok tt s' ->
    exists k, s' = consumedTimes k s /\ firstStop tk k s.
Proof.
  induction n as [|n IH]; intros s s'; cbn [skipTo_loop]; rewrite bind_gets;
    destruct (tok_eqb (ahead_ s) tk || tok_eqb (ahead_ s) TK_EOP) eqn:E;
    cbn [negb]; try discriminate;
    try (intros H; injection H as <-; exists 0; split; [reflexivity|];
         split; [|intros j Hj; lia];
         apply orb_true_iff in E; destruct E as [E|E];
         apply tok_eqb_eq in E; cbn [consumedTimes]; auto).
  rewrite bind_consumeToken. intros H. apply IH in H.
  destruct H as [k [-> [Hs Hm]]].
  exists (S k). split; [reflexivity|]. split; [exact Hs|].
  intros [|j] Hj.
  - cbn [consumedTimes]. apply orb_false_iff in E. destruct E as [E1 E2].
    split; intros X; rewrite X, tok_eqb_refl in *; discriminate.
  - cbn [consumedTimes]. apply Hm. lia.
Qed.

Lemma skipTo_loop_total (tk : Token) :
  forall (n : nat) (s : t),
    List.length (TokenSource.pending (lexer_ s)) < n ->
    exists s', skipTo_loop n tk s = Ok tt s'.
Proof.
  induction n as [|n IH]; intros s Hn; [lia|].
  destruct (tok_eqb (ahead_ s) tk || tok_eqb (ahead_ s) TK_EOP) eqn:E.
  - exists s. apply skipTo_loop_done.
    apply orb_true_iff in E. destruct E as [E|E]; apply tok_eqb_eq in E;
      auto.
  - cbn [skipTo_loop]. rewrite bind_gets, E. cbn [negb].
    rewrite bind_consumeToken.
    apply orb_false_iff in E. destruct E as [_ E].
    assert (Hne : ahead_ s <> TK_EOP).
    { intros H. rewrite H in E. discriminate E. }
    destruct (@consumed_pending s Hne) as [Hp Hz].
    destruct (TokenSource.pending (lexer_ s)) as [|p rest] eqn:P.
    + exists (consumed s). apply skipTo_loop_done. right. now apply Hz.
    + apply IH. rewrite Hp. cbn [tl]. cbn [List.length] in Hn. lia.
Qed.

Lemma consumedTimes_context (k : nat) :
  forall s, context_ (consumedTimes k s) = context_ s.
Proof.
  induction k as [|k IH]; intros s; [reflexivity|].
  cbn [consumedTimes]. now rewrite IH, consumed_context.
Qed.

(** X11: [skipTo(tk)] returns once the bound exceeds the tokens left in
    the lexer.  It calls [consumeToken()] until [tk] or [TK_EOP] is ahead
    for the first time and no further, so [tk] itself is not consumed and
    no [tk] is among the tokens taken; the context is left alone; with
    [tk] or [TK_EOP] ahead it does nothing. *)
Theorem skipTo_stops (r : Env) (tk : Token) (s : t) :
  List.length (TokenSource.pending (lexer_ s)) < fuel r ->
  (exists k,
     skipTo r tk s = Ok tt (consumedTimes k s)
     /\ firstStop tk k s
     /\ context_ (consumedTimes k s) = context_ s)
  /\ (ahead_ s = tk \/ ahead_ s = TK_EOP -> skipTo r tk s = Ok tt s).
Proof.
  intros H. split; [|apply skipTo_loop_done].
  destruct (@skipTo_loop_total tk (fuel r) s H) as [s' R].
  destruct (skipTo_loop_post _ _ _ R) as [k [-> F]].
  exists k. split; [exact R|]. split; [exact F|].
  apply consumedTimes_context.
Qed.

Lemma skipTo_stops_witness :
  exists k,
    skipTo (knot false 4) TK_RPAREN
           (primed "t.py" [TK_IDENTIFIER; TK_COMMA; TK_RPAREN; TK_NEWLINE])
    = Ok tt (consumedTimes k
               (primed "t.py" [TK_IDENTIFIER; TK_COMMA; TK_RPAREN;
                               TK_NEWLINE]))
    /\ firstStop TK_RPAREN k
                 (primed "t.py" [TK_IDENTIFIER; TK_COMMA; TK_RPAREN;
                                 TK_NEWLINE])
    /\ context_ (consumedTimes k
                   (primed "t.py" [TK_IDENTIFIER; TK_COMMA; TK_RPAREN;
                                   TK_NEWLINE]))
       = context_ (primed "t.py" [TK_IDENTIFIER; TK_COMMA; TK_RPAREN;
                                  TK_NEWLINE]).
Proof.
  destruct (@skipTo_stops (knot false 4) TK_RPAREN
              (primed "t.py" [TK_IDENTIFIER; TK_COMMA; TK_RPAREN;
                              TK_NEWLINE])) as [H _].
  - vm_compute. lia.
  - exact H.
Defined.

Lemma match_Ok (tk : Token) (s : t) :
  match_ tk s
  = if tok_eqb (ahead_ s) tk then Ok true (consumed s)
    else Ok false (reported Diagnostic.UnexpectedToken (consumed s)).
Proof.
  unfold match_. rewrite bind_gets, bind_consumeToken.
  destruct (tok_eqb (ahead_ s) tk); reflexivity.
Qed.

(** X12: the recovery [if (!match(tk)) skipTo(tk)], within a bound that
    covers the tokens left.  When [tk] is ahead it is consumed and nothing
    else happens.  Otherwise the token ahead is consumed all the same, one
    [UnexpectedToken] is reported at its location, and [consumeToken()] is
    called until [tk] or [TK_EOP] is ahead for the first time: after a
    failed match the delimiter looked for is still to be consumed. *)
Theorem matchOrSkipTo_recovery (r : Env) (tk : Token) (s : t) :
  List.length (TokenSource.pending (lexer_ s)) <= fuel r ->
  (ahead_ s = tk -> matchOrSkipTo r tk s = Ok tt (consumed s))
  /\ (ahead_ s <> tk ->
      exists k,
        matchOrSkipTo r tk s
        = Ok tt (consumedTimes k
                   (reported Diagnostic.UnexpectedToken (consumed s)))
        /\ firstStop tk k (reported Diagnostic.UnexpectedToken (consumed s))
        /\ reportsOf (consumedTimes k
                        (reported Diagnostic.UnexpectedToken (consumed s)))
           = reportsOf s
             ++ [(Diagnostic.UnexpectedToken, lastLoc_ (consumed s))]).
Proof.
  intros Hf. unfold matchOrSkipTo, bind. rewrite match_Ok. split.
  - intros E. rewrite E, tok_eqb_refl. reflexivity.
  - intros E. rewrite (tok_eqb_neq E). cbn [negb]. unfold skipTo.
    assert (T : exists s',
               skipTo_loop (fuel r) tk
                 (reported Diagnostic.UnexpectedToken (consumed s))
               = Ok tt s').
    { destruct (Token_eq_dec (ahead_ s) TK_EOP) as [Z|NZ].
      - exists (reported Diagnostic.UnexpectedToken (consumed s)).
        apply skipTo_loop_done. right. cbn [reported ahead_].
        now rewrite consumed_at_end.
      - destruct (@consumed_pending s NZ) as [Hp Hz].
        destruct (TokenSource.pending (lexer_ s)) as [|p rest] eqn:P.
        + exists (reported Diagnostic.UnexpectedToken (consumed s)).
          apply skipTo_loop_done. right. cbn [reported ahead_].
          now apply Hz.
        + apply skipTo_loop_total. cbn [reported lexer_]. rewrite Hp.
          cbn [tl]. cbn [List.length] in Hf. lia. }
    destruct T as [s' R].
    destruct (skipTo_loop_post _ _ _ R) as [k [-> F]].
    exists k. split; [exact R|]. split; [exact F|].
    unfold reportsOf. rewrite consumedTimes_context. cbn.
    now rewrite consumed_context.
Qed.

Lemma matchOrSkipTo_recovery_witness :
  matchOrSkipTo (knot false 4) TK_RPAREN
                (primed "t.py" [TK_RPAREN; TK_NEWLINE])
  = Ok tt (consumed (primed "t.py" [TK_RPAREN; TK_NEWLINE]))
  /\ exists k,
      matchOrSkipTo (knot false 4) TK_RPAREN
                    (primed "t.py" [TK_IDENTIFIER; TK_COMMA; TK_RPAREN;
                                    TK_NEWLINE])
      = Ok tt (consumedTimes k
                 (reported Diagnostic.UnexpectedToken
                    (consumed (primed "t.py" [TK_IDENTIFIER; TK_COMMA;
                                              TK_RPAREN; TK_NEWLINE]))))
      /\ firstStop TK_RPAREN k
           (reported Diagnostic.UnexpectedToken
              (consumed (primed "t.py" [TK_IDENTIFIER; TK_COMMA; TK_RPAREN;
                                        TK_NEWLINE])))
      /\ reportsOf (consumedTimes k
                      (reported Diagnostic.UnexpectedToken
                         (consumed (primed "t.py" [TK_IDENTIFIER; TK_COMMA;
                                                   TK_RPAREN; TK_NEWLINE]))))
         = reportsOf (primed "t.py" [TK_IDENTIFIER; TK_COMMA; TK_RPAREN;
                                     TK_NEWLINE])
           ++ [(Diagnostic.UnexpectedToken,
                lastLoc_ (consumed (primed "t.py" [TK_IDENTIFIER; TK_COMMA;
                                                   TK_RPAREN; TK_NEWLINE])))].
Proof.
  split.
  - destruct (@matchOrSkipTo_recovery (knot false 4) TK_RPAREN
                (primed "t.py" [TK_RPAREN; TK_NEWLINE])) as [H _].
    + vm_compute. lia.
    + apply H. reflexivity.
  - destruct (@matchOrSkipTo_recovery (knot false 4) TK_RPAREN
                (primed "t.py" [TK_IDENTIFIER; TK_COMMA; TK_RPAREN;
                                TK_NEWLINE])) as [_ H].
    + vm_compute. lia.
    + apply H. discriminate.
Defined.

(** X13: [isAtomAhead] tells the tokens [parseAtom] has a case for.  On
    any other token [parseAtom] consumes the token, reports one
    [UnexpectedToken] at its location and returns a null expression; a
    number, [None], [True] or [False] becomes a literal located at the
    token, with nothing reported. *)
Theorem parseAtom_unexpected (r : Env) (s : t) :
  (isAtomAhead s = false ->
   parseAtom r s
   = Ok None (reported Diagnostic.UnexpectedToken (consumed s)))
  /\ (forall kind,
        In (ahead_ s, kind)
           [(TK_INTEGER_LITERAL, NumLitExprAst);
            (TK_FLOAT_LITERAL, NumLitExprAst);
            (TK_NULL_LITERAL, NullLitExprAst);
            (TK_TRUE_LITERAL, BoolLitExprAst);
            (TK_FALSE_LITERAL, BoolLitExprAst)] ->
        isAtomAhead s = true
        /\ parseAtom r s
           = Ok (Some (LitExprAst kind (lastLoc_ (consumed s))))
                (consumed s)).
Proof.
  split.
  - unfold isAtomAhead, parseAtom. rewrite bind_gets.
    destruct (ahead_ s); intros H; try discriminate H;
      unfold bind; rewrite failMatch_true_Ok; reflexivity.
  - intros kind H. unfold isAtomAhead, parseAtom. rewrite bind_gets.
    cbn [In] in H.
    repeat (destruct H as [H|H];
            [injection H as Ha <-; rewrite <- Ha; split; [reflexivity|];
             rewrite bind_consumeToken; reflexivity|]).
    contradiction.
Qed.

Lemma parseAtom_unexpected_witness :
  parseAtom (knot false 2) (primed "t.py" [TK_RPAREN; TK_NEWLINE])
  = Ok None (reported Diagnostic.UnexpectedToken
                      (consumed (primed "t.py" [TK_RPAREN; TK_NEWLINE])))
  /\ parseAtom (knot false 2) (primed "t.py" [TK_TRUE_LITERAL; TK_NEWLINE])
     = Ok (Some (LitExprAst BoolLitExprAst (tokAt "t.py" 1)))
          (consumed (primed "t.py" [TK_TRUE_LITERAL; TK_NEWLINE])).
Proof.
  split.
  - destruct (@parseAtom_unexpected (knot false 2)
                (primed "t.py" [TK_RPAREN; TK_NEWLINE])) as [H _].
    apply H. reflexivity.
  - destruct (@parseAtom_unexpected (knot false 2)
                (primed "t.py" [TK_TRUE_LITERAL; TK_NEWLINE])) as [_ H].
    destruct (H BoolLitExprAst) as [_ H']; [|exact H'].
    cbn. tauto.
Defined.

Lemma maybeConsume_Ok (tk : Token) (s : t) :
  maybeConsume tk s
  = if tok_eqb (ahead_ s) tk then Ok true (consumed s) else Ok false s.
Proof.
  unfold maybeConsume. rewrite bind_gets.
  destruct (tok_eqb (ahead_ s) tk); [|reflexivity].
  now rewrite bind_consumeToken.
Qed.

(** X14: the end of a simple statement.  When the small statement is
    followed by [TK_NEWLINE], [parseSimpleStmt] consumes the newline and
    returns the statement as it is.  When it is followed by the end of the
    input (a last line without a newline), the statement comes back
    wrapped in a block and one [UnexpectedToken] is reported. *)
Theorem parseSimpleStmt_line_end (r : Env) (s s1 : t) (stmt : Stmt) :
  parseSmallStmt r s = Ok stmt s1 ->
  (ahead_ s1 = TK_NEWLINE -> parseSimpleStmt r s = Ok stmt (consumed s1))
  /\ (ahead_ s1 = TK_EOP -> 1 <= fuel r ->
      parseSimpleStmt r s
      = Ok (Some (BlockStmtAst (addToList r [] stmt)))
           (reported Diagnostic.UnexpectedToken s1)).
Proof.
  intros H. unfold parseSimpleStmt. rewrite (bind_Ok _ H). split.
  - intros E. unfold bind. rewrite maybeConsume_Ok, E. reflexivity.
  - intros E Hf. unfold bind at 1. rewrite maybeConsume_Ok, E.
    cbn [tok_eqb Token_beq].
    destruct (fuel r) as [|n]; [lia|]. cbn [parseSimpleStmt_loop].
    unfold bind at 1. unfold bind at 1. rewrite maybeConsume_Ok, E.
    cbn [tok_eqb Token_beq ret]. unfold bind at 1.
    unfold matchOrSkipTo. unfold bind at 1. rewrite match_Ok, E.
    cbn [tok_eqb Token_beq negb]. rewrite consumed_at_end by exact E.
    unfold skipTo. rewrite skipTo_loop_done by (right; exact E).
    reflexivity.
Qed.

Lemma parseSimpleStmt_line_end_witness :
  parseSimpleStmt (knot false 3) (primed "t.py" [TK_PASS; TK_NEWLINE])
  = Ok (Some (EmptyStmtAst (tokAt "t.py" 1)))
       (consumed (consumed (primed "t.py" [TK_PASS; TK_NEWLINE])))
  /\ parseSimpleStmt (knot false 3) (primed "t.py" [TK_PASS])
     = Ok (Some (BlockStmtAst [Some (EmptyStmtAst (tokAt "t.py" 1))]))
          (reported Diagnostic.UnexpectedToken
                    (consumed (primed "t.py" [TK_PASS]))).
Proof.
  split.
  - destruct (@parseSimpleStmt_line_end (knot false 3)
                (primed "t.py" [TK_PASS; TK_NEWLINE])
                (consumed (primed "t.py" [TK_PASS; TK_NEWLINE]))
                (Some (EmptyStmtAst (tokAt "t.py" 1)))) as [H _];
      [reflexivity|].
    apply H. reflexivity.
  - destruct (@parseSimpleStmt_line_end (knot false 3)
                (primed "t.py" [TK_PASS])
                (consumed (primed "t.py" [TK_PASS]))
                (Some (EmptyStmtAst (tokAt "t.py" 1)))) as [_ H];
      [reflexivity|].
    apply H; [reflexivity|cbn; lia].
Defined.

(** *** Null operator nodes *)

Lemma fetchPrecAhead_null (s : t) (prec : Precedence) :
  fetchPrecAhead s = (prec, None) -> prec = Zero.
Proof.
  unfold fetchPrecAhead. destruct (ahead_ s); intros H;
    try discriminate H; now injection H as <-.
Qed.

(** X15: [fetchPrecAhead] gives a null node with [Precedence::Zero] only,
    so the loop of [parseBinaryExpr] entered with a precedence from [Or]
    up never dereferences a null operator node: if it ends in a null
    dereference, that happened in the recursive call for the right
    operand.  Entered with [Zero], it does dereference the null node as
    soon as the token ahead is no binary operator. *)
Theorem parseBinaryExpr_loop_null (r : Env) (n : nat) (curPrec : Precedence)
        (factor : Expr) (s : t) :
  (Or <= curPrec ->
   parseBinaryExpr_loop r n curPrec factor s = NullDeref ->
   exists p s1, rec_parseBinaryExpr r p s1 = NullDeref)
  /\ (fetchPrecAhead s = (Zero, None) ->
      parseBinaryExpr_loop r (S n) Zero factor s = NullDeref).
Proof.
  split.
  - intros Hp. revert factor s.
    induction n as [|n IH]; intros factor s; cbn [parseBinaryExpr_loop];
      [discriminate|].
    rewrite bind_gets. destruct (fetchPrecAhead s) as [prec bin] eqn:F.
    destruct (prec <? curPrec) eqn:L; [discriminate|].
    rewrite bind_consumeToken. destruct bin as [k|].
    + rewrite bind_gets. unfold bind.
      destruct (rec_parseBinaryExpr r (curPrec + 1) (consumed s))
        as [e2 s2| |] eqn:R; [apply IH| |discriminate].
      intros _. now exists (curPrec + 1), (consumed s).
    + apply fetchPrecAhead_null in F. subst prec.
      apply Nat.ltb_ge in L. unfold Or, Zero in *. lia.
  - intros F. cbn [parseBinaryExpr_loop]. rewrite bind_gets, F.
    cbn [Nat.ltb Nat.leb Zero]. now rewrite bind_consumeToken.
Qed.

Lemma parseBinaryExpr_loop_null_witness :
  parseBinaryExpr_loop (knot false 2) 1 Zero (identAt "t.py" 1)
                       (consumed (primed "t.py" [TK_IDENTIFIER; TK_NEWLINE]))
  = NullDeref.
Proof.
  destruct (@parseBinaryExpr_loop_null (knot false 2) 0 Zero
              (identAt "t.py" 1)
              (consumed (primed "t.py" [TK_IDENTIFIER; TK_NEWLINE])))
    as [_ H].
  apply H. reflexivity.
Defined.

(** *** The context and the lexer over a whole run *)

Lemma extends_refl (s : t) : extends s s.
Proof.
  split; [reflexivity|]. exists []. now rewrite app_nil_r.
Qed.

Lemma extends_trans (s1 s2 s3 : t) :
  extends s1 s2 -> extends s2 s3 -> extends s1 s3.
Proof.
  intros [F1 [m1 H1]] [F2 [m2 H2]]. split; [congruence|].
  exists (m1 ++ m2). rewrite H2, H1. now rewrite app_assoc.
Qed.

Lemma extends_consumed (s : t) : extends s (consumed s).
Proof.
  unfold extends, reportsOf. rewrite consumed_context.
  split; [reflexivity|]. exists []. now rewrite app_nil_r.
Qed.

Lemma extends_reported (kind : Diagnostic.Kind) (loc : SourceLoc) (s : t) :
  extends s (mk (lexer_ s)
                (ParsingContext.trackReport kind loc (context_ s))
                (ahead_ s) (lastLoc_ s)).
Proof.
  split; [reflexivity|]. now exists [(kind, loc)].
Qed.

Lemma drained_refl (s : t) : drained s s.
Proof. split; [now exists 0|tauto]. Qed.

Lemma skipn_skipn_add {A} (k1 k2 : nat) (l : list A) :
  skipn k2 (skipn k1 l) = skipn (k1 + k2) l.
Proof.
  revert l. induction k1 as [|k1 IH]; intros l; [reflexivity|].
  destruct l as [|x l]; [now rewrite !skipn_nil|]. cbn [skipn Nat.add].
  apply IH.
Qed.

Lemma drained_trans (s1 s2 s3 : t) :
  drained s1 s2 -> drained s2 s3 -> drained s1 s3.
Proof.
  intros [[k1 H1] E1] [[k2 H2] E2]. split.
  - exists (k1 + k2). rewrite H2, H1. apply skipn_skipn_add.
  - intros E. destruct (E1 E) as [L1 [A1 P1]].
    destruct (E2 A1) as [L2 [A2 P2]]. repeat split; congruence.
Qed.

Lemma drained_consumed (s : t) : drained s (consumed s).
Proof.
  destruct (Token_eq_dec (ahead_ s) TK_EOP) as [E|E].
  - rewrite consumed_at_end by exact E. apply drained_refl.
  - split; [|contradiction]. exists 1.
    destruct (@consumed_pending s E) as [-> _].
    now destruct (TokenSource.pending (lexer_ s)).
Qed.

Lemma drained_reported (kind : Diagnostic.Kind) (loc : SourceLoc) (s : t) :
  drained s (mk (lexer_ s)
                (ParsingContext.trackReport kind loc (context_ s))
                (ahead_ s) (lastLoc_ s)).
Proof. split; [now exists 0|tauto]. Qed.

(** X16: the parser only ever adds to the context.  Whatever statement
    [parseStmt] parses or fails on, and over a whole [parse], the reports
    that were in the context are still there, in their order, with the new
    ones after them, and the file name is the same. *)
Theorem reports_only_grow (keep : bool) (n : nat) :
  (forall s stmt s',
     parseStmt (knot keep n) s = Ok stmt s' -> extends s s')
  /\ (forall self lexer context b s',
        ParsingContext.fileName context <> None ->
        parse (knot keep n) self (Some lexer) (Some context) = Ok b s' ->
        ParsingContext.fileName (context_ s')
        = ParsingContext.fileName context
        /\ exists more,
            reportsOf s' = ParsingContext.reports context ++ more).
Proof.
  assert (E : KeepsEnv extends (knot keep n)).
  { apply keeps_knot;
      [apply extends_refl|apply extends_trans|apply extends_consumed
      |apply extends_reported]. }
  split.
  - apply (@keeps_parseStmt extends);
      [apply extends_refl|apply extends_trans|apply extends_consumed
      |apply extends_reported|exact E].
  - intros self lexer context b s' Hf H. unfold parse in H.
    destruct (ParsingContext.fileName context) as [file|] eqn:F;
      [|contradiction]. cbv zeta in H.
    rewrite bind_consumeToken in H. unfold bind in H.
    destruct (parse_loop (knot keep n) (fuel (knot keep n)) []
                         (consumed (attached self lexer context)))
      as [stmts s1| |] eqn:P; try discriminate H.
    apply (@keeps_parse_loop extends) in P;
      [|apply extends_refl|apply extends_trans|apply extends_consumed
       |apply extends_reported|exact E].
    pose proof (extends_trans (extends_consumed _) P) as [X1 [more X2]].
    cbn [attached context_] in X1. unfold reportsOf in X2.
    cbn [attached context_] in X2.
    destruct stmts as [|st rest].
    + injection H as _ <-. rewrite X1, F. split; [reflexivity|].
      now exists more.
    + unfold takeAst in H. cbn in H. injection H as _ <-.
      cbn. rewrite X1, F. split; [reflexivity|]. now exists more.
Qed.

Lemma reports_only_grow_witness :
  extends (primed "t.py" [TK_PASS])
          (reported Diagnostic.UnexpectedToken
                    (consumed (primed "t.py" [TK_PASS]))).
Proof.
  destruct (reports_only_grow false 3) as [H _].
  apply (H (primed "t.py" [TK_PASS])
           (Some (BlockStmtAst [Some (EmptyStmtAst (tokAt "t.py" 1))]))).
  vm_compute. reflexivity.
Defined.

(** X17: the parser takes the tokens in order and gives none back.  After
    [parseStmt], and after a whole [parse], the tokens left in the lexer
    are what was there with some taken from the front; and a member
    function entered with [TK_EOP] ahead asks the lexer for nothing: the
    lexer, [ahead_] and [lastLoc_] stay as they are. *)
Theorem tokens_in_order (keep : bool) (n : nat) :
  (forall s stmt s',
     parseStmt (knot keep n) s = Ok stmt s' -> drained s s')
  /\ (forall self lexer context b s',
        ParsingContext.fileName context <> None ->
        parse (knot keep n) self (Some lexer) (Some context) = Ok b s' ->
        exists k, TokenSource.pending (lexer_ s')
                  = skipn k (TokenSource.pending lexer)).
Proof.
  assert (E : KeepsEnv drained (knot keep n)).
  { apply keeps_knot;
      [apply drained_refl|apply drained_trans|apply drained_consumed
      |apply drained_reported]. }
  split.
  - apply (@keeps_parseStmt drained);
      [apply drained_refl|apply drained_trans|apply drained_consumed
      |apply drained_reported|exact E].
  - intros self lexer context b s' Hf H. unfold parse in H.
    destruct (ParsingContext.fileName context) as [file|] eqn:F;
      [|contradiction]. cbv zeta in H.
    rewrite bind_consumeToken in H. unfold bind in H.
    destruct (parse_loop (knot keep n) (fuel (knot keep n)) []
                         (consumed (attached self lexer context)))
      as [stmts s1| |] eqn:P; try discriminate H.
    apply (@keeps_parse_loop drained) in P;
      [|apply drained_refl|apply drained_trans|apply drained_consumed
       |apply drained_reported|exact E].
    pose proof (drained_trans (drained_consumed _) P) as [[k X] _].
    cbn [attached lexer_] in X.
    destruct stmts as [|st rest].
    + injection H as _ <-. now exists k.
    + unfold takeAst in H. cbn in H. injection H as _ <-. now exists k.
Qed.

Lemma tokens_in_order_witness :
  drained (primed "t.py" [TK_PASS; TK_NEWLINE; TK_BREAK; TK_NEWLINE])
          (consumed (consumed
             (primed "t.py" [TK_PASS; TK_NEWLINE; TK_BREAK; TK_NEWLINE]))).
Proof.
  destruct (tokens_in_order false 3) as [H _].
  apply (H (primed "t.py" [TK_PASS; TK_NEWLINE; TK_BREAK; TK_NEWLINE])
           (Some (EmptyStmtAst (tokAt "t.py" 1)))).
  vm_compute. reflexivity.
Defined.

Lemma parse_loop_at_end (r : Env) :
  forall (n : nat) (stmts stmts' : list Stmt) (s s' : t),
    parse_loop r n stmts s = Ok stmts' s' -> ahead_ s' = TK_EOP.
Proof.
  induction n as [|n IH]; intros stmts stmts' s s'; cbn [parse_loop];
    rewrite bind_gets; destruct (tok_eqb (ahead_ s) TK_EOP) eqn:E;
    cbn [negb]; try discriminate;
    try (intros H; injection H as _ <-; now apply tok_eqb_eq in E).
  unfold bind at 1. rewrite maybeConsume_Ok.
  destruct (tok_eqb (ahead_ s) TK_NEWLINE); [apply IH|].
  unfold bind. destruct (parseStmt r s) as [st s1| |]; try discriminate.
  apply IH.
Qed.

(** X18: a parser object parses once.  [parse] returns only with
    [TK_EOP] in [ahead_], and [ahead_] is not reset on entry: a second
    [parse] on the same object, with whatever lexer and context, reads no
    token, leaves the new context as it got it and returns [false]. *)
Theorem parse_not_reusable (r r' : Env) (self s' : t)
        (lexer lexer2 : TokenSource.t) (context context2 : ParsingContext.t)
        (b : bool) :
  ParsingContext.fileName context <> None ->
  ParsingContext.fileName context2 <> None ->
  parse r self (Some lexer) (Some context) = Ok b s' ->
  ahead_ s' = TK_EOP
  /\ parse r' s' (Some lexer2) (Some context2)
     = Ok false (attached s' lexer2 context2).
Proof.
  intros Hf Hf2 H.
  assert (A : ahead_ s' = TK_EOP).
  { unfold parse in H.
    destruct (ParsingContext.fileName context); [|contradiction].
    cbv zeta in H. rewrite bind_consumeToken in H. unfold bind in H.
    destruct (parse_loop r (fuel r) []
                         (consumed (attached self lexer context)))
      as [stmts s1| |] eqn:P; try discriminate H.
    apply parse_loop_at_end in P.
    destruct stmts; [injection H as _ <-; exact P|].
    unfold takeAst in H. cbn in H. injection H as _ <-. exact P. }
  split; [exact A|]. unfold parse.
  destruct (ParsingContext.fileName context2); [|contradiction].
  cbv zeta. rewrite bind_consumeToken.
  rewrite consumed_at_end by exact A.
  assert (L : forall n,
             parse_loop r' n [] (attached s' lexer2 context2)
             = Ok [] (attached s' lexer2 context2)).
  { intros n. destruct n; cbn [parse_loop]; rewrite bind_gets;
      cbn [attached ahead_]; rewrite A; reflexivity. }
  unfold bind. now rewrite L.
Qed.

Lemma parse_not_reusable_witness :
  parse (knot false 8)
        (mk (TokenSource.mk (tokAt "" 2) [])
            (ParsingContext.takeAst
               (mkProgram [Some (EmptyStmtAst (tokAt "a.py" 1))])
               (ParsingContext.fresh "a.py"))
            TK_EOP (tokAt "a.py" 2))
        (Some (TokenSource.ofTokens [TK_BREAK; TK_NEWLINE]))
        (Some (ParsingContext.fresh "b.py"))
  = Ok false
       (mk (TokenSource.ofTokens [TK_BREAK; TK_NEWLINE])
           (ParsingContext.fresh "b.py") TK_EOP (tokAt "a.py" 2)).
Proof.
  destruct (@parse_not_reusable (knot false 8) (knot false 8) newParser
              (mk (TokenSource.mk (tokAt "" 2) [])
                  (ParsingContext.takeAst
                     (mkProgram [Some (EmptyStmtAst (tokAt "a.py" 1))])
                     (ParsingContext.fresh "a.py"))
                  TK_EOP (tokAt "a.py" 2))
              (TokenSource.ofTokens [TK_PASS; TK_NEWLINE])
              (TokenSource.ofTokens [TK_BREAK; TK_NEWLINE])
              (ParsingContext.fresh "a.py") (ParsingContext.fresh "b.py")
              true) as [_ H].
  - discriminate.
  - discriminate.
  - vm_compute. reflexivity.
  - exact H.
Defined.

(** *** Null lists *)

Lemma more_fuel_null {A} (f : Env -> M A) (keep : bool) (n k : nat) (s : t) :
  (forall r r', RefinesEnv r r' -> Refines (f r) (f r')) ->
  f (knot keep n) s = NullDeref ->
  f (knot keep (n + k)) s = NullDeref.
Proof.
  intros Hf H. rewrite <- H. apply (Hf _ _ (knot_more keep n k)).
  rewrite H. discriminate.
Qed.

Lemma endsExprList_reported (kind : Diagnostic.Kind) (s : t) :
  endsExprList (reported kind s) = endsExprList s.
Proof. reflexivity. Qed.

Lemma endsTestList_reported (kind : Diagnostic.Kind) (s : t) :
  endsTestList (reported kind s) = endsTestList s.
Proof. reflexivity. Qed.

Lemma parsePower_loop_ends (r : Env) (n : nat) (atom : Expr) (s : t) :
  endsExprList s = true -> parsePower_loop r (S n) atom s = Ok atom s.
Proof.
  intros H. cbn [parsePower_loop]. rewrite bind_gets.
  unfold endsExprList in H. destruct (ahead_ s); try discriminate H;
    reflexivity.
Qed.

Lemma maybeConsume_ends (tk : Token) (s : t) :
  endsExprList s = true -> tk = TK_STAR_STAR \/ tk = TK_COMMA ->
  maybeConsume tk s = Ok false s.
Proof.
  intros H [->| ->]; rewrite maybeConsume_Ok; unfold endsExprList in H;
    destruct (ahead_ s); try discriminate H; reflexivity.
Qed.

Lemma parseBinaryExpr_loop_ends (r : Env) (n : nat) (p : Precedence)
      (factor : Expr) (s : t) :
  endsExprList s = true -> Or <= p ->
  parseBinaryExpr_loop r (S n) p factor s = Ok factor s.
Proof.
  intros H Hp. cbn [parseBinaryExpr_loop]. rewrite bind_gets.
  assert (Z : fst (fetchPrecAhead s) = Zero).
  { unfold endsExprList in H. destruct (ahead_ s); try discriminate H;
      now apply Nat.eqb_eq in H. }
  destruct (fetchPrecAhead s) as [prec bin]. cbn [fst] in Z. subst prec.
  replace (Zero <? p) with true; [reflexivity|].
  symmetry. apply Nat.ltb_lt. unfold Or, Zero in *. lia.
Qed.

(** [parseExpr] on a token that starts no expression, when the next one
    carries on with nothing. *)
Lemma parseExpr_unexpected (r : Env) (s : t) :
  1 <= fuel r ->
  isExprAhead s = false ->
  endsExprList (consumed s) = true ->
  parseExpr r s = Ok None (reported Diagnostic.UnexpectedToken (consumed s)).
Proof.
  intros Hf H1 H2.
  assert (H2' : endsExprList
                  (reported Diagnostic.UnexpectedToken (consumed s)) = true)
    by (rewrite endsExprList_reported; exact H2).
  assert (F : parseFactor r s = parsePower r s).
  { unfold parseFactor. rewrite bind_gets.
    unfold isExprAhead, isFactorAhead in H1.
    destruct (ahead_ s); try discriminate H1; reflexivity. }
  assert (A : isAtomAhead s = false).
  { unfold isExprAhead, isFactorAhead in H1.
    destruct (ahead_ s); try discriminate H1; exact H1. }
  assert (P : parsePower r s
              = Ok None (reported Diagnostic.UnexpectedToken (consumed s))).
  { unfold parsePower.
    assert (PA : parseAtom r s
                 = Ok None (reported Diagnostic.UnexpectedToken
                                     (consumed s))).
    { unfold isAtomAhead in A. unfold parseAtom. rewrite bind_gets.
      destruct (ahead_ s); try discriminate A;
        unfold bind; rewrite failMatch_true_Ok; reflexivity. }
    rewrite (bind_Ok _ PA). destruct (fuel r) as [|m]; [lia|].
    rewrite (bind_Ok _ (parsePower_loop_ends r m None _ H2')).
    rewrite (bind_Ok _ (@maybeConsume_ends TK_STAR_STAR _ H2'
                          (or_introl eq_refl))).
    reflexivity. }
  unfold parseExpr, parseBinaryExpr. rewrite (bind_Ok _ (eq_trans F P)).
  destruct (fuel r) as [|m]; [lia|].
  apply parseBinaryExpr_loop_ends; [exact H2'|unfold Or; lia].
Qed.

(** X19: a [for] without a target.  When the token after [for] cannot
    start an expression and the one after it carries the expression list
    no further (it is no trailer, no operator and no comma), the
    expression list is null, or holds a null expression, and the range-for
    of [parseForStmt] dereferences a null pointer. *)
Theorem parseForStmt_null_target (keep : bool) (n : nat) (s : t) :
  ahead_ s = TK_FOR ->
  isExprAhead (consumed s) = false ->
  endsExprList (consumed (consumed s)) = true ->
  parseForStmt (knot keep (2 + n)) s = NullDeref.
Proof.
  intros H0 H1 H2.
  assert (H2' : endsExprList
                  (reported Diagnostic.UnexpectedToken
                            (consumed (consumed s))) = true)
    by (rewrite endsExprList_reported; exact H2).
  unfold parseForStmt. rewrite bind_gets, H0. cbn [tok_eqb Token_beq negb].
  unfold bind at 1. rewrite match_Ok, H0. cbn [tok_eqb Token_beq].
  assert (L : parseExprList (knot keep (2 + n)) (consumed s)
              = Ok (if keep then [None] else [])
                   (reported Diagnostic.UnexpectedToken
                             (consumed (consumed s)))).
  { pose proof (@parseExpr_unexpected (knot keep (1 + n)) (consumed s)
                  ltac:(rewrite fuel_knot; lia) H1 H2) as PE.
    unfold parseExprList, parseList, bind.
    change (rec_parseExpr (knot keep (2 + n)))
      with (parseExpr (knot keep (1 + n))).
    rewrite PE, fuel_knot. cbn [Nat.add parseList_loop]. unfold bind.
    rewrite (@maybeConsume_ends TK_COMMA _ H2' (or_intror eq_refl)).
    unfold addToList. rewrite keepNull_knot. reflexivity. }
  rewrite (bind_Ok _ L).
  destruct keep; reflexivity.
Qed.

Lemma parseForStmt_null_target_witness :
  parseForStmt (knot false 2)
               (primed "t.py" [TK_FOR; TK_IN; TK_IDENTIFIER; TK_COLON;
                               TK_NEWLINE])
  = NullDeref.
Proof.
  apply (@parseForStmt_null_target false 0
           (primed "t.py" [TK_FOR; TK_IN; TK_IDENTIFIER; TK_COLON;
                           TK_NEWLINE])); reflexivity.
Defined.

Lemma endsTestList_endsExprList (s : t) :
  endsTestList s = true -> endsExprList s = true.
Proof.
  unfold endsTestList. destruct (ahead_ s) eqn:E; intros H;
    try discriminate H; exact H.
Qed.

Lemma maybeConsume_endsTest (tk : Token) (s : t) :
  endsTestList s = true ->
  In tk [TK_NOT; TK_AND; TK_OR; TK_IF; TK_COMMA] ->
  maybeConsume tk s = Ok false s.
Proof.
  intros H I. rewrite maybeConsume_Ok. cbn [In] in I.
  unfold endsTestList, endsExprList in H.
  repeat (destruct I as [<-|I];
          [destruct (ahead_ s); try discriminate H; reflexivity|]).
  contradiction.
Qed.

Lemma parseComparison_loop_ends (r : Env) (n : nat) (expr : Expr) (s : t) :
  endsTestList s = true -> parseComparison_loop r (S n) expr s = Ok expr s.
Proof.
  intros H. cbn [parseComparison_loop]. rewrite bind_gets.
  unfold endsTestList in H. destruct (ahead_ s); try discriminate H;
    reflexivity.
Qed.

(** [parseTest] on a token that starts no test, when the next one carries
    on with nothing. *)
Lemma parseTest_unexpected (r : Env) (s : t) :
  1 <= fuel r ->
  isTestAhead s = false ->
  endsTestList (consumed s) = true ->
  parseTest r s = Ok None (reported Diagnostic.UnexpectedToken (consumed s)).
Proof.
  intros Hf H1 H2.
  assert (H2' : endsTestList
                  (reported Diagnostic.UnexpectedToken (consumed s)) = true)
    by (rewrite endsTestList_reported; exact H2).
  assert (HE : isExprAhead s = false).
  { unfold isTestAhead, isNonLambdaTestAhead in H1.
    destruct (ahead_ s); try discriminate H1; exact H1. }
  assert (NL : tok_eqb (ahead_ s) TK_LAMBDA = false).
  { unfold isTestAhead in H1. destruct (ahead_ s); try discriminate H1;
      reflexivity. }
  assert (NN : tok_eqb (ahead_ s) TK_NOT = false).
  { unfold isTestAhead, isNonLambdaTestAhead in H1.
    destruct (ahead_ s); try discriminate H1; reflexivity. }
  pose proof (@parseExpr_unexpected r s Hf HE
                (endsTestList_endsExprList _ H2)) as PE.
  destruct (fuel r) as [|m] eqn:F; [lia|].
  assert (PC : parseComparison r s
               = Ok None (reported Diagnostic.UnexpectedToken (consumed s))).
  { unfold parseComparison. rewrite (bind_Ok _ PE), F.
    now apply parseComparison_loop_ends. }
  assert (PN : parseNotTest r s
               = Ok None (reported Diagnostic.UnexpectedToken (consumed s))).
  { unfold parseNotTest. unfold bind. rewrite maybeConsume_Ok, NN.
    exact PC. }
  assert (PA : parseAndTest r s
               = Ok None (reported Diagnostic.UnexpectedToken (consumed s))).
  { unfold parseAndTest. rewrite (bind_Ok _ PN), F.
    cbn [parseAndTest_loop]. unfold bind.
    rewrite (@maybeConsume_endsTest TK_AND _ H2') by (cbn; tauto).
    reflexivity. }
  assert (PO : parseOrTest r s
               = Ok None (reported Diagnostic.UnexpectedToken (consumed s))).
  { unfold parseOrTest. rewrite (bind_Ok _ PA), F.
    cbn [parseOrTest_loop]. unfold bind.
    rewrite (@maybeConsume_endsTest TK_OR _ H2') by (cbn; tauto).
    reflexivity. }
  unfold parseTest. rewrite bind_gets, NL. rewrite (bind_Ok _ PO).
  unfold bind. rewrite (@maybeConsume_endsTest TK_IF _ H2') by (cbn; tauto).
  reflexivity.
Qed.

(** X20: a class with empty parentheses.  After [class NAME (], when the
    next token starts no test and the one after it carries the list of
    bases no further, as in [class C():], the list of bases is null, or
    holds a null expression, and the range-for of [parseClassDef]
    dereferences a null pointer. *)
Theorem parseClassDef_null_bases (keep : bool) (n : nat) (s : t) :
  ahead_ s = TK_CLASS ->
  ahead_ (consumed s) = TK_IDENTIFIER ->
  ahead_ (consumed (consumed s)) = TK_LPAREN ->
  isTestAhead (consumed (consumed (consumed s))) = false ->
  endsTestList (consumed (consumed (consumed (consumed s)))) = true ->
  parseClassDef (knot keep (2 + n)) s = NullDeref.
Proof.
  intros H0 H1 H2 H3 H4.
  assert (H4' : endsTestList
                  (reported Diagnostic.UnexpectedToken
                     (consumed (consumed (consumed (consumed s))))) = true)
    by (rewrite endsTestList_reported; exact H4).
  assert (L : parseTestList (knot keep (2 + n))
                            (consumed (consumed (consumed s)))
              = Ok (if keep then [None] else [])
                   (reported Diagnostic.UnexpectedToken
                      (consumed (consumed (consumed (consumed s)))))).
  { pose proof (@parseTest_unexpected (knot keep (1 + n))
                  (consumed (consumed (consumed s)))
                  ltac:(rewrite fuel_knot; lia) H3 H4) as PT.
    unfold parseTestList, parseList, bind.
    change (rec_parseTest (knot keep (2 + n)))
      with (parseTest (knot keep (1 + n))).
    rewrite PT, fuel_knot. cbn [Nat.add parseList_loop]. unfold bind.
    rewrite (@maybeConsume_endsTest TK_COMMA _ H4') by (cbn; tauto).
    unfold addToList. rewrite keepNull_knot. reflexivity. }
  unfold parseClassDef. rewrite bind_gets, H0.
  cbn [tok_eqb Token_beq negb].
  unfold bind at 1. rewrite match_Ok, H0. cbn [tok_eqb Token_beq].
  rewrite bind_gets. unfold bind at 1. unfold parseName.
  unfold bind at 1. rewrite match_Ok, H1. cbn [tok_eqb Token_beq].
  rewrite bind_gets. cbn [ret]. unfold bind at 1.
  rewrite maybeConsume_Ok, H2. cbn [tok_eqb Token_beq].
  unfold bind at 1. unfold bind at 1. rewrite L.
  destruct keep; reflexivity.
Qed.

Lemma parseClassDef_null_bases_witness :
  parseClassDef (knot false 2)
                (primed "t.py" [TK_CLASS; TK_IDENTIFIER; TK_LPAREN; TK_RPAREN;
                                TK_COLON; TK_PASS; TK_NEWLINE])
  = NullDeref.
Proof.
  apply (@parseClassDef_null_bases false 0
           (primed "t.py" [TK_CLASS; TK_IDENTIFIER; TK_LPAREN; TK_RPAREN;
                           TK_COLON; TK_PASS; TK_NEWLINE])); reflexivity.
Defined.

End PyParserFacts.
